(** * KFeatureRoutingFunction: routing probabilities of a soft decision tree

    A shallow embedding of the CPU kernel of
    [tensorflow/contrib/tensor_forest/hybrid/core/ops/k_feature_routing_function_op.cc]
    and the properties its specification states about it.

    Layout of the development:
    - [Binary32]: the C++ [float] type as IEEE 754 binary32, on the
      Standard Library's [SpecFloat] (precision 24, maximal exponent 128,
      round to nearest, ties to even), with the exact rational value of a
      float;
    - [Tensor], [Buffer]: row-major tensors and the freshly allocated,
      not yet initialised output storage;
    - [Compute]: the kernel, written in a small state and failure monad
      that follows the source statement by statement and keeps a trace of
      the calls and stores it makes;
    - what the specification speaks about: valid invocations, the Node
      Split Probability of a row at a node, the product along a path, the
      expected trace, the loop invariants;
    - the loops: the invariants hold and the kernel runs to its end;
    - rounding to binary32: products and complements of probabilities;
    - the claims;
    - the constructor, the shape function registered with the op and
      further properties of [Compute]: when it returns an output, what it
      stores and in which order, what a value depends on and how the
      values of a row relate to each other. *)

From Stdlib Require Import ZArith List String Bool Lia QArith Qabs Qpower.
From Stdlib Require Import Lqa Floats.SpecFloat DecimalString.
From stdpp Require Import base list.

Local Open Scope Z_scope.

(* ===================================================================== *)
(** * The data model *)
(* ===================================================================== *)

(** ** binary32 arithmetic *)

Module Binary32.

Definition prec : Z := 24.
Definition emax : Z := 128.

(** A C++ [float]. *)
Definition float32 : Type := spec_float.

(** The literal [1.0f]. *)
Definition one : float32 := S754_finite false 8388608 (-23).

(** The value [+0.0f]. *)
Definition zero : float32 := S754_zero false.

Definition mul : float32 -> float32 -> float32 := SFmul prec emax.
Definition sub : float32 -> float32 -> float32 := SFsub prec emax.
Definition add : float32 -> float32 -> float32 := SFadd prec emax.

(** The comparisons [<=] and [==] of C++ on floats. *)
Definition leb : float32 -> float32 -> bool := SFleb.
Definition eqb : float32 -> float32 -> bool := SFeqb.

(** Every value a C++ [float] can hold is a valid binary32 datum. *)
Definition valid (x : float32) : bool := valid_binary prec emax x.

(** The rational number a finite float denotes (zero for the others). *)
Definition F2Q (x : float32) : Q :=
  match x with
  | S754_finite s m e => (inject_Z (cond_Zopp s (Zpos m)) * Qpower 2 e)%Q
  | _ => 0%Q
  end.

(** A probability: a valid float that compares between [0.0f] and [1.0f]. *)
Definition is_prob (x : float32) : bool :=
  valid x && leb zero x && leb x one.

End Binary32.

Import Binary32.

(** ** Tensors *)

(** Modelled from the spec: the framework's [Tensor] and its accessors are
    not part of the sources.  Section 3 describes the inputs as rectangular
    collections of real numbers; a tensor is a shape and its elements in
    row-major order. *)
Record Tensor : Type := mkTensor {
  shape : list Z;
  flat : list float32
}.

(** Modelled from the spec: [shape().dims()], the rank that section 4.1
    requires to be two for a batch with rows. *)
Definition dims (t : Tensor) : Z := Z.of_nat (length (shape t)).

(** Modelled from the spec: [shape().dim_size(d)], the [num_data] and
    [num_features] of section 3.  Asking for a dimension the shape does not
    have yields an unspecified number in an optimised build; [0] stands for
    it.  The shape function registered with the kernel admits inputs of
    rank at least one only; on those the kernel asks for a missing
    dimension only as [dim_size(1)] of a shape of rank one with no rows,
    and then never uses the result. *)
Definition dim_size (t : Tensor) (d : nat) : Z := nth d (shape t) 0.

(** A batch without rows: a tensor that has a first dimension, of size
    zero (the "empty batch" of section 3). *)
Definition empty_batch (t : Tensor) : bool :=
  (1 <=? dims t) && (dim_size t 0 =? 0).

(** Number of elements in one slice along the first dimension. *)
Definition row_size (t : Tensor) : Z := fold_right Z.mul 1 (tl (shape t)).

(** Modelled from the spec: [t.Slice(start, limit)], the sub-tensor of the
    rows [start .. limit-1]; with [limit = start + 1] it is the [row_i] and
    the [tree_parameters[j]] of section 4.1.  The framework aborts when the
    range does not lie within the first dimension; [None] stands for
    that. *)
Definition Slice (t : Tensor) (start limit : Z) : option Tensor :=
  match shape t with
  | [] => None
  | d0 :: rest =>
      if (0 <=? start) && (start <=? limit) && (limit <=? d0) then
        Some {| shape := (limit - start) :: rest;
                flat := take (Z.to_nat ((limit - start) * row_size t))
                          (drop (Z.to_nat (start * row_size t)) (flat t)) |}
      else None
  end.

(** Modelled from the spec: [t.tensor<float, 1>()], the view of the Tree
    Biases as "a per-node collection of scalar biases" (section 3).  The
    framework aborts on a tensor of another rank; [None] stands for that. *)
Definition tensor1 (t : Tensor) : option (list float32) :=
  if dims t =? 1 then Some (flat t) else None.

(** [static_cast<int32>] of a 64-bit dimension. *)
Definition to_int32 (z : Z) : Z := (z + 2 ^ 31) mod 2 ^ 32 - 2 ^ 31.

(** ** The output buffer *)

(** Modelled from the spec: the output tensor belongs to the framework.
    Section 6 has the output "a freshly allocated rows x max_nodes
    real-valued buffer"; the storage is not initialised, so a cell is [None]
    until the kernel writes it. *)
Record Buffer : Type := mkBuffer {
  buf_shape : list Z;
  cells : list (option float32)
}.

(** Modelled from the spec: [allocate_output] on the shape built by
    [AddDim], the allocation of section 3 ("allocated once per call").
    [TensorShape::AddDim] aborts on a negative size; [None] stands for
    that. *)
Definition allocate_output (shp : list Z) : option Buffer :=
  if forallb (fun d => 0 <=? d) shp then
    Some {| buf_shape := shp;
            cells := replicate (Z.to_nat (fold_right Z.mul 1 shp)) None |}
  else None.

(** Row-major offset of the element [(i, k)] of a matrix with [cols] columns. *)
Definition offset (cols i k : Z) : Z := i * cols + k.

(** Rows and columns of a matrix buffer. *)
Definition rows (b : Buffer) : Z := nth 0%nat (buf_shape b) 0.
Definition columns (b : Buffer) : Z := nth 1%nat (buf_shape b) 0.

(** The value of the element [(i, k)] of a matrix buffer: [None] outside the
    matrix and for a cell that was never written. *)
Definition cell (b : Buffer) (i k : Z) : option float32 :=
  if (0 <=? i) && (i <? rows b) && (0 <=? k) && (k <? columns b)
  then mjoin (cells b !! Z.to_nat (offset (columns b) i k))
  else None.

(* ===================================================================== *)
(** * The kernel *)
(* ===================================================================== *)

(** ** Collaborators *)

(** The helpers of [hybrid/core/ops/utils.h] and [kernels/tree_utils.h] are
    not part of the sources: the kernel is parameterised by them.
    - [CheckTensorBounds] tells whether the tensor passed its bounds check
      (when it does not, the helper reports the failure itself);
    - [GetFeatureSet layer index seed num_features k fs] is the content of
      the vector [fs] after the call;
    - [LeftProbabilityK point fs weights bias num_features k] is the
      probability of going left.
    Section 6 of the specification has both numeric primitives pure and
    deterministic, hence functions. *)
Class TensorForest : Type := {
  CheckTensorBounds : Tensor -> bool;
  GetFeatureSet : Z -> Z -> Z -> Z -> Z -> list Z -> list Z;
  LeftProbabilityK : Tensor -> list Z -> Tensor -> float32 -> Z -> Z -> float32
}.

(** The attributes read by the constructor (all [int32]). *)
Record KFeatureRoutingFunction : Type := mkKernel {
  layer_num_ : Z;
  max_nodes_ : Z;
  num_features_per_node_ : Z;
  random_seed_ : Z
}.

(** ** Observable events *)

(** The calls the kernel makes to its environment and the stores it makes
    to [out_probs], in the order it makes them.  The trace is ghost state:
    nothing in the kernel reads it. *)
Inductive Event : Type :=
| CallCheckTensorBounds (t : Tensor)
| CallAllocateOutput (shp : list Z)
| CallGetFeatureSet (tree_num node_num random_seed num_features k : Z)
| CallLeftProbabilityK (point : Tensor) (fs : list Z) (weight : Tensor)
    (bias : float32) (num_features k : Z)
| Store (i k : Z) (v : float32).

Inductive Status : Type :=
| InvalidArgument (msg : string).

(** How an invocation of [Compute] ends. *)
Inductive Outcome : Type :=
| Failed (s : Status)
    (** [OP_REQUIRES] reported [s] on the context and [Compute] returned:
        no output was set *)
| BoundsRejected
    (** [CheckTensorBounds] returned false and [Compute] returned *)
| Done (probabilities : Buffer)
    (** [Compute] ran to its end with output 0 allocated *)
| Aborted.
    (** the process aborted on a framework check, or an access fell outside
        the storage of a tensor (undefined behaviour) *)

(** ** The state of the two loops *)

Record Frame : Type := mkFrame {
  out_probs : list (option float32);  (** storage behind [out_probs] *)
  feature_set : list Z;               (** the vector [feature_set] *)
  trace : list Event                  (** the events so far *)
}.

Definition M (A : Type) : Type := Frame -> option (A * Frame).

Definition ret {A} (a : A) : M A := fun st => Some (a, st).

Definition bind {A B} (m : M A) (k : A -> M B) : M B :=
  fun st => match m st with
            | Some (a, st') => k a st'
            | None => None
            end.

Definition abort {A} : M A := fun _ => None.

Declare Scope kernel_scope.
Delimit Scope kernel_scope with kernel.
Notation "x <- m ;; k" := (bind m (fun x => k))
  (at level 100, m at next level, right associativity) : kernel_scope.
Notation "m ;; k" := (bind m (fun _ => k))
  (at level 100, right associativity) : kernel_scope.

(** An operation the framework may abort on. *)
Definition checked {A} (o : option A) : M A :=
  match o with Some a => ret a | None => abort end.

(** [for (int i = lo; i < lo + n; i++) body(i)] *)
Fixpoint for_loop (n : nat) (i : Z) (body : Z -> M unit) : M unit :=
  match n with
  | O => ret tt
  | S n' => bind (body i) (fun _ => for_loop n' (i + 1) body)
  end.

Section Compute.

Context `{TF : TensorForest}.
Variable self : KFeatureRoutingFunction.

Local Open Scope kernel_scope.

(** [out_probs(i, k)] as an rvalue.  The accessor does no bounds check: it
    reads the storage at the row-major offset.  Outside the storage, and
    on a cell never written, the behaviour is undefined. *)
Definition read_out (i k : Z) : M float32 :=
  fun st =>
    let o := offset (max_nodes_ self) i k in
    if 0 <=? o then
      match out_probs st !! Z.to_nat o with
      | Some (Some v) => Some (v, st)
      | _ => None
      end
    else None.

(** [out_probs(i, k) = v] *)
Definition write_out (i k : Z) (v : float32) : M unit :=
  fun st =>
    let o := offset (max_nodes_ self) i k in
    if (0 <=? o) && (o <? Z.of_nat (length (out_probs st))) then
      Some (tt, {| out_probs := <[Z.to_nat o := Some v]> (out_probs st);
                   feature_set := feature_set st;
                   trace := trace st ++ [Store i k v] |})
    else None.

(** [feature_set.clear()] *)
Definition clear_feature_set : M unit :=
  fun st => Some (tt, {| out_probs := out_probs st;
                         feature_set := [];
                         trace := trace st |}).

(** [tensorforest::GetFeatureSet(..., &feature_set)] *)
Definition call_GetFeatureSet (tree_num node_num seed nf k : Z) : M unit :=
  fun st => Some (tt, {| out_probs := out_probs st;
                         feature_set :=
                           GetFeatureSet tree_num node_num seed nf k
                             (feature_set st);
                         trace := trace st
                                    ++ [CallGetFeatureSet tree_num node_num
                                          seed nf k] |}).

Definition call_LeftProbabilityK (point : Tensor) (weight : Tensor)
    (bias : float32) (nf k : Z) : M float32 :=
  fun st => Some (LeftProbabilityK point (feature_set st) weight bias nf k,
                  {| out_probs := out_probs st;
                     feature_set := feature_set st;
                     trace := trace st
                                ++ [CallLeftProbabilityK point
                                      (feature_set st) weight bias nf k] |}).

(** The body of the loop over [j] (lines 139 to 152). *)
Definition node_step (tree_parameters_tensor : Tensor)
    (tree_biases : list float32) (num_features : Z) (point : Tensor)
    (i j : Z) : M unit :=
  clear_feature_set ;;
  call_GetFeatureSet (layer_num_ self) i (random_seed_ self) num_features
    (num_features_per_node_ self) ;;
  let left_child := 2 * j + 1 in
  let right_child := left_child + 1 in
  prob <- read_out i j ;;
  weight <- checked (Slice tree_parameters_tensor j (j + 1)) ;;
  bias <- checked (tree_biases !! Z.to_nat j) ;;
  left_prob <- call_LeftProbabilityK point weight bias num_features
                 (num_features_per_node_ self) ;;
  write_out i left_child (mul prob left_prob) ;;
  write_out i right_child (mul prob (sub one left_prob)).

(** The body of the loop over [i] (lines 134 to 153).  The division of
    [max_nodes_ / 2] is that of C++ on [int], which truncates. *)
Definition row_step (input_data tree_parameters_tensor : Tensor)
    (tree_biases : list float32) (num_features : Z) (i : Z) : M unit :=
  point <- checked (Slice input_data i (i + 1)) ;;
  write_out i 0 one ;;
  for_loop (Z.to_nat (Z.quot (max_nodes_ self) 2)) 0
    (node_step tree_parameters_tensor tree_biases num_features point i).

(** [KFeatureRoutingFunction::Compute], with the trace of its events. *)
Definition Compute (input_data tree_parameters_tensor tree_biases_tensor
    : Tensor) : Outcome * list Event :=
  if (0 <? dim_size input_data 0) && negb (dims input_data =? 2) then
    (Failed (InvalidArgument "input_data should be two-dimensional"), [])
  else if negb (CheckTensorBounds input_data) then
    (BoundsRejected, [CallCheckTensorBounds input_data])
  else
    let num_data := to_int32 (dim_size input_data 0) in
    let num_features := to_int32 (dim_size input_data 1) in
    let output_shape := [num_data; max_nodes_ self] in
    let events := [CallCheckTensorBounds input_data;
                   CallAllocateOutput output_shape] in
    match allocate_output output_shape with
    | None => (Aborted, events)
    | Some output_probabilities =>
        match tensor1 tree_biases_tensor with
        | None => (Aborted, events)
        | Some tree_biases =>
            match
              for_loop (Z.to_nat num_data) 0
                (row_step input_data tree_parameters_tensor tree_biases
                   num_features)
                {| out_probs := cells output_probabilities;
                   feature_set := [];
                   trace := events |}
            with
            | None => (Aborted, events)
            | Some (_, st) =>
                (Done {| buf_shape := buf_shape output_probabilities;
                         cells := out_probs st |},
                 trace st)
            end
        end
    end.

End Compute.

Arguments Compute {TF} self input_data tree_parameters_tensor
  tree_biases_tensor.

(** ** The constructor *)

Section Construction.

(** The statuses of the framework: the constructor only passes them on. *)
Variable status : Type.

(** The construction context, as far as the constructor uses it:
    [GetAttr(name, &value)] gives the value of the attribute or the status
    of the failure. *)
Definition OpKernelConstruction : Type := string -> status + Z.

(** [KFeatureRoutingFunction::KFeatureRoutingFunction] (lines 93 to 100):
    four reads, each under [OP_REQUIRES_OK], which on a failure reports the
    status on the context and returns.  The result is the kernel or the
    status reported, with the names of the attributes asked for. *)
Definition construct_kernel (context : OpKernelConstruction)
    : (status + KFeatureRoutingFunction) * list string :=
  match context "max_nodes"%string with
  | inl s => (inl s, ["max_nodes"%string])
  | inr max_nodes =>
  match context "num_features_per_node"%string with
  | inl s => (inl s, ["max_nodes"; "num_features_per_node"]%string)
  | inr num_features_per_node =>
  match context "layer_num"%string with
  | inl s => (inl s, ["max_nodes"; "num_features_per_node";
                       "layer_num"]%string)
  | inr layer_num =>
  match context "random_seed"%string with
  | inl s => (inl s, ["max_nodes"; "num_features_per_node"; "layer_num";
                       "random_seed"]%string)
  | inr random_seed =>
      (inr {| layer_num_ := layer_num; max_nodes_ := max_nodes;
              num_features_per_node_ := num_features_per_node;
              random_seed_ := random_seed |},
       ["max_nodes"; "num_features_per_node"; "layer_num";
        "random_seed"]%string)
  end end end end.

End Construction.

Arguments construct_kernel {status} context.

(** The attributes in the order the constructor reads them. *)
Definition attributes_read : list string :=
  ["max_nodes"; "num_features_per_node"; "layer_num"; "random_seed"]%string.

(** ** Shape inference *)

(** Modelled from the spec: the shapes of the framework's shape inference,
    which section 1 leaves to the hosting runtime.  A dimension is known
    or not, and so is the rank of a shape. *)
Definition DimensionHandle : Type := option Z.
(** Modelled from the spec: a shape of the framework's shape inference,
    [None] when its rank is not known. *)
Definition ShapeHandle : Type := option (list DimensionHandle).

(** A number in decimal, as a status message shows it. *)
Definition decimal (n : Z) : string := NilZero.string_of_int (Z.to_int n).

(** Modelled from the spec: [InferenceContext::WithRankAtLeast], which lets
    a shape of unknown rank pass. *)
Definition WithRankAtLeast (shape : ShapeHandle) (rank : Z)
    : Status + ShapeHandle :=
  match shape with
  | None => inr shape
  | Some ds =>
      let existing := Z.of_nat (length ds) in
      if rank <=? existing then inr shape
      else inl (InvalidArgument
                  ("Shape must be at least rank " ++ decimal rank
                   ++ " but is rank " ++ decimal existing))
  end.

(** Modelled from the spec: [InferenceContext::Dim], unknown for a shape of
    unknown rank.  The shape function asks for dimension 0 of shapes of
    rank at least one only. *)
Definition Dim (s : ShapeHandle) (idx : nat) : DimensionHandle :=
  match s with
  | None => None
  | Some ds => nth idx ds None
  end.

(** Modelled from the spec: [InferenceContext::Matrix]. *)
Definition Matrix (dim1 dim2 : DimensionHandle) : ShapeHandle :=
  Some [dim1; dim2].

(** The shape function registered with the op (lines 58 to 65), on the
    shapes of the three inputs: the shape of the output, or the status it
    returns. *)
Definition shape_fn (input0 input1 input2 : ShapeHandle)
    : Status + ShapeHandle :=
  match WithRankAtLeast input0 1 with
  | inl s => inl s
  | inr input =>
      match WithRankAtLeast input1 1 with
      | inl s => inl s
      | inr params => inr (Matrix (Dim input 0) (Dim params 0))
      end
  end.

(** A shape all of whose dimensions are known. *)
Definition known (shp : list Z) : ShapeHandle := Some (map Some shp).

(* ===================================================================== *)
(** * What the specification speaks about *)
(* ===================================================================== *)

Section Specification.

Context `{TF : TensorForest}.
Variable self : KFeatureRoutingFunction.
Variables input_data tree_parameters_tensor tree_biases_tensor : Tensor.

(** The quantities [Compute] derives from its input. *)
Definition num_data : Z := to_int32 (dim_size input_data 0).
Definition num_features : Z := to_int32 (dim_size input_data 1).

(** Number of internal nodes: the bound [max_nodes_ / 2] of the loop. *)
Definition internal_nodes : Z := Z.quot (max_nodes_ self) 2.

(** The configurations and inputs the specification calls valid
    (sections 1 and 4.1): a matrix of features whose dimensions fit
    [int32] and pass the bounds check, a capacity with the shape of a
    complete binary tree (positive and odd), one bias and one row of
    weights for every internal node. *)
Definition valid_invocation : bool :=
  (dims input_data =? 2)
  && (0 <=? dim_size input_data 0) && (dim_size input_data 0 <? 2 ^ 31)
  && (0 <=? dim_size input_data 1) && (dim_size input_data 1 <? 2 ^ 31)
  && CheckTensorBounds input_data
  && (0 <? max_nodes_ self) && (max_nodes_ self <? 2 ^ 31)
  && Z.odd (max_nodes_ self)
  && (dims tree_biases_tensor =? 1)
  && (internal_nodes <=? Z.of_nat (length (flat tree_biases_tensor)))
  && (1 <=? dims tree_parameters_tensor)
  && (internal_nodes <=? dim_size tree_parameters_tensor 0).

(** Row [i] of a tensor, and the bias of node [j]; the defaults are never
    met on a valid invocation (lemma [collaborator_arguments]). *)
Definition row_of (t : Tensor) (i : Z) : Tensor :=
  default (mkTensor [] []) (Slice t i (i + 1)).

Definition bias_of (j : Z) : float32 :=
  default zero (flat tree_biases_tensor !! Z.to_nat j).

(** The feature subset of step 2a of section 4.1: the selector applied to
    [(layer_num, i, random_seed, num_features, num_features_per_node)],
    filling an empty vector. *)
Definition feature_subset (i : Z) : list Z :=
  GetFeatureSet (layer_num_ self) i (random_seed_ self) num_features
    (num_features_per_node_ self) [].

(** The Node Split Probability of row [i] at node [j] (step 2b). *)
Definition left_prob (i j : Z) : float32 :=
  LeftProbabilityK (row_of input_data i) (feature_subset i)
    (row_of tree_parameters_tensor j) (bias_of j) num_features
    (num_features_per_node_ self).

(** The product of the split probabilities along the path from the root,
    in the order the path is walked.  Node [k] of the flat tree is node
    [k + 1] of the heap numbering that starts at one; there the parent of
    [n] is [n / 2], the left child is [2 n] and the right child
    [2 n + 1], so the binary digits of [n] below its leading one spell
    the path.  [lp j] is the probability of going left at node [j]. *)
Fixpoint path_product (lp : Z -> float32) (n : positive) : float32 :=
  match n with
  | xH => one
  | xO p => mul (path_product lp p) (lp (Zpos p - 1))
  | xI p => mul (path_product lp p) (sub one (lp (Zpos p - 1)))
  end.

(** The routing probability of the glossary, for row [i] and node [k]. *)
Definition routing_probability (i k : Z) : float32 :=
  path_product (left_prob i) (Z.to_pos (k + 1)).

(** The events one node of one row gives rise to, then one row, then the
    whole invocation. *)
Definition node_events (i j : Z) : list Event :=
  [CallGetFeatureSet (layer_num_ self) i (random_seed_ self) num_features
     (num_features_per_node_ self);
   CallLeftProbabilityK (row_of input_data i) (feature_subset i)
     (row_of tree_parameters_tensor j) (bias_of j) num_features
     (num_features_per_node_ self);
   Store i (2 * j + 1) (routing_probability i (2 * j + 1));
   Store i (2 * j + 2) (routing_probability i (2 * j + 2))].

Definition row_events (i : Z) : list Event :=
  Store i 0 one :: flat_map (node_events i) (seqZ 0 internal_nodes).

Definition expected_trace : list Event :=
  CallCheckTensorBounds input_data
  :: CallAllocateOutput [num_data; max_nodes_ self]
  :: flat_map row_events (seqZ 0 num_data).

(** The invariant of the loop over [j], before node [j] of row [i] is
    processed: the rows before [i] and the nodes of row [i] below
    [2 j + 1] hold their routing probability. *)
Definition node_invariant (i j : Z) (st : Frame) : Prop :=
  Z.of_nat (length (out_probs st)) = num_data * max_nodes_ self
  /\ (forall i' k, 0 <= i' < i -> 0 <= k < max_nodes_ self ->
        out_probs st !! Z.to_nat (offset (max_nodes_ self) i' k)
        = Some (Some (routing_probability i' k)))
  /\ (forall k, 0 <= k < 2 * j + 1 ->
        out_probs st !! Z.to_nat (offset (max_nodes_ self) i k)
        = Some (Some (routing_probability i k)))
  /\ trace st
     = CallCheckTensorBounds input_data
       :: CallAllocateOutput [num_data; max_nodes_ self]
       :: flat_map row_events (seqZ 0 i)
          ++ Store i 0 one :: flat_map (node_events i) (seqZ 0 j).

(** The invariant of the loop over [i], before row [i] is processed. *)
Definition row_invariant (i : Z) (st : Frame) : Prop :=
  Z.of_nat (length (out_probs st)) = num_data * max_nodes_ self
  /\ (forall i' k, 0 <= i' < i -> 0 <= k < max_nodes_ self ->
        out_probs st !! Z.to_nat (offset (max_nodes_ self) i' k)
        = Some (Some (routing_probability i' k)))
  /\ trace st
     = CallCheckTensorBounds input_data
       :: CallAllocateOutput [num_data; max_nodes_ self]
       :: flat_map row_events (seqZ 0 i).

End Specification.

(* ===================================================================== *)
(** * Reading a trace *)
(* ===================================================================== *)

(** The arguments of the calls to the Feature Subset Selector, in order. *)
Definition selector_calls (es : list Event) : list (Z * Z * Z * Z * Z) :=
  flat_map (fun e => match e with
                     | CallGetFeatureSet a b c d k => [(a, b, c, d, k)]
                     | _ => []
                     end) es.

(** The feature subsets handed to the Node Split Probability, in order. *)
Definition subsets_used (es : list Event) : list (list Z) :=
  flat_map (fun e => match e with
                     | CallLeftProbabilityK _ fs _ _ _ _ => [fs]
                     | _ => []
                     end) es.

(** The indices [(i, k)] of the stores to [out_probs], in order. *)
Definition stores (es : list Event) : list (Z * Z) :=
  flat_map (fun e => match e with
                     | Store i k _ => [(i, k)]
                     | _ => []
                     end) es.

(** The shapes of the outputs allocated. *)
Definition allocations (es : list Event) : list (list Z) :=
  flat_map (fun e => match e with
                     | CallAllocateOutput shp => [shp]
                     | _ => []
                     end) es.

(** The status [Compute] reports for an input batch of the wrong rank. *)
Definition rank_error : Status :=
  InvalidArgument "input_data should be two-dimensional".



(* ===================================================================== *)
(** * Quantities of the rounding theory *)
(* ===================================================================== *)

(** The value of a finite float in units of [2^-149], the smallest positive
    binary32 number: an integer for every valid float. *)
Definition ulps (x : float32) : Z :=
  match x with
  | S754_finite s m e => cond_Zopp s (Zpos m * 2 ^ (e + 149))
  | _ => 0
  end.

(** What [is_prob] means on the representation: a zero, or a positive
    finite float in canonical form whose value is at most one. *)
Definition prob_shape (x : float32) : Prop :=
  match x with
  | S754_zero _ => True
  | S754_finite false m e =>
      bounded prec emax m e = true /\ e <= 0 /\ Zpos m <= 2 ^ (- e)
  | _ => False
  end.

(** The record [rec] is what is left of the mantissa [m] after [k] shifts
    to the right: twice [m] is made of the digits kept, the round bit and
    the rest, and the sticky bit tells whether the rest is zero. *)
Definition shifted (m k : Z) (rec : shr_record) : Prop :=
  0 <= shr_m rec
  /\ exists t, 0 <= t < 2 ^ k
       /\ 2 * m = shr_m rec * 2 ^ (k + 1)
                  + (if shr_r rec then 2 ^ k else 0) + t
       /\ shr_s rec = negb (t =? 0).

(** What rounding returns for the mantissa [m1] on the exponent [e1]: a
    zero, or the canonical float of that value. *)
Definition rounds_to (r : float32) (m1 e1 : Z) : Prop :=
  (m1 = 0 /\ r = S754_zero false)
  \/ exists m' e',
       r = S754_finite false m' e' /\ bounded prec emax m' e' = true
       /\ e1 <= e' /\ Zpos m' * 2 ^ (e' - e1) = m1.

(* ===================================================================== *)
(** * Paths and levels of the tree *)
(* ===================================================================== *)

(** The internal nodes on the way from the root to a node, the parent
    first.  The node is given in the heap numbering that starts at one, as
    for [path_product]; the list holds indices of the flat tree. *)
Fixpoint ancestors (n : positive) : list Z :=
  match n with
  | xH => []
  | xO p => (Zpos p - 1) :: ancestors p
  | xI p => (Zpos p - 1) :: ancestors p
  end.

(** The nodes at depth [d] of the flat tree, from left to right. *)
Definition level (d : Z) : list Z := seqZ (2 ^ d - 1) (2 ^ d).

(** The mass row [i] of an output holds at depth [d]: the exact sum of the
    values of its cells. *)
Definition level_mass (out : Buffer) (i d : Z) : Q :=
  fold_right Qplus 0%Q
    (map (fun k => F2Q (default zero (cell out i k))) (level d)).

(** The depth of a node given in the heap numbering that starts at one. *)
Fixpoint depth (n : positive) : Z :=
  match n with
  | xH => 0
  | xO p => depth p + 1
  | xI p => depth p + 1
  end.

(** The product along the path to a node in exact arithmetic: [q j] is the
    probability of going left at node [j], [1 - q j] that of going
    right. *)
Fixpoint exact_path_product (q : Z -> Q) (n : positive) : Q :=
  match n with
  | xH => 1
  | xO p => exact_path_product q p * q (Zpos p - 1)
  | xI p => exact_path_product q p * (1 - q (Zpos p - 1))
  end.

(** A float that is a zero, of either sign. *)
Definition is_zero (x : float32) : bool :=
  match x with
  | S754_zero _ => true
  | _ => false
  end.

(* ===================================================================== *)
(** * Stand-ins and concrete inputs *)
(* ===================================================================== *)

(** Collaborators for running the kernel on concrete inputs: the bounds
    check accepts, the selector appends the index it is given to the
    vector, and the split probability of a node is the bias of the node.
    With them the biases of an input fix the split probabilities. *)
#[export] Instance stand_in : TensorForest := {|
  CheckTensorBounds := fun _ => true;
  GetFeatureSet := fun _ node_num _ _ _ fs => fs ++ [node_num];
  LeftProbabilityK := fun _ _ _ bias _ _ => bias
|}.

(** The floats [0.1f] and [0.6f]. *)
Definition tenth : float32 := S754_finite false 13421773 (-27).
Definition three_fifths : float32 := S754_finite false 10066330 (-24).

(** A tree of capacity seven (three levels), two features per node. *)
Definition tree7 : KFeatureRoutingFunction :=
  {| layer_num_ := 0; max_nodes_ := 7; num_features_per_node_ := 2;
     random_seed_ := 42 |}.

Definition weights7 : Tensor :=
  {| shape := [3; 2]; flat := [one; zero; zero; one; one; one] |}.

Definition biases7 : Tensor :=
  {| shape := [3]; flat := [tenth; tenth; three_fifths] |}.

(** Two batches that agree on their first row only. *)
Definition batch_a : Tensor :=
  {| shape := [2; 2]; flat := [one; zero; zero; one] |}.

Definition batch_b : Tensor :=
  {| shape := [3; 2]; flat := [one; zero; one; one; tenth; zero] |}.

(** The scenario of section 8: capacity three, one row [[1.0, 0.0]], root
    weights [[0.5, -0.5]], and a split probability of [0.6f] at the root. *)
Definition tree3 : KFeatureRoutingFunction :=
  {| layer_num_ := 0; max_nodes_ := 3; num_features_per_node_ := 2;
     random_seed_ := 42 |}.

Definition batch3 : Tensor := {| shape := [1; 2]; flat := [one; zero] |}.

Definition weights3 : Tensor :=
  {| shape := [1; 2];
     flat := [S754_finite false 8388608 (-24);
              S754_finite true 8388608 (-24)] |}.

Definition biases3 : Tensor := {| shape := [1]; flat := [three_fifths] |}.

(** A capacity that is even, hence not that of a complete binary tree. *)
Definition tree4 : KFeatureRoutingFunction :=
  {| layer_num_ := 0; max_nodes_ := 4; num_features_per_node_ := 2;
     random_seed_ := 42 |}.

(** Batches of rank three, with three rows and with none. *)
Definition batch_rank3 : Tensor :=
  {| shape := [3; 2; 3]; flat := replicate 18 zero |}.

Definition batch_rank3_empty : Tensor :=
  {| shape := [0; 2; 3]; flat := [] |}.

(** Collaborators whose selector does not look at the index it is given:
    it selects the first [k] features; the split probability is the first
    feature of the point. *)
Definition index_blind : TensorForest := {|
  CheckTensorBounds := fun _ => true;
  GetFeatureSet := fun _ _ _ _ k fs => fs ++ seqZ 0 k;
  LeftProbabilityK := fun point _ _ bias _ _ =>
                        default bias (head (flat point))
|}.

(** The rows of [batch_a], the other way round. *)
Definition batch_c : Tensor :=
  {| shape := [2; 2]; flat := [zero; one; one; zero] |}.

(** Weights and biases that differ from [weights7] and [biases7] at the
    nodes 1 and 2 only. *)
Definition weights7' : Tensor :=
  {| shape := [3; 2]; flat := [one; zero; tenth; tenth; zero; zero] |}.

Definition biases7' : Tensor :=
  {| shape := [3]; flat := [tenth; three_fifths; tenth] |}.

(** Biases that make the root send everything to the left and node 1
    everything to the right. *)
Definition biases_hard : Tensor :=
  {| shape := [3]; flat := [one; zero; tenth] |}.

(** Biases with a NaN at node 1. *)
Definition biases_nan : Tensor :=
  {| shape := [3]; flat := [tenth; S754_nan; tenth] |}.

(* ===================================================================== *)
(** * The model at work *)
(* ===================================================================== *)

(** binary32 as the hardware computes it: [0.1f * 0.1f] is [0x3C23D70B],
    [1.0f - 0.1f] is [0x3F666666] and [0.1f + 0.6f] is [0x3F333334]. *)
Example mul_tenth_tenth :
  mul tenth tenth = S754_finite false 10737419 (-30).
Proof. reflexivity. Qed.

Example sub_one_tenth : sub one tenth = S754_finite false 15099494 (-24).
Proof. reflexivity. Qed.

Example add_tenth_three_fifths :
  add tenth three_fifths = S754_finite false 11744052 (-24).
Proof. reflexivity. Qed.

(** The scenario of section 8: the row is [[1.0, 0.6, 1.0f - 0.6f]].  The
    last entry is [0.39999998f], one unit in the last place below [0.4f]. *)
Example scenario_capacity_three :
  fst (Compute tree3 batch3 weights3 biases3)
  = Done {| buf_shape := [1; 3];
            cells := [Some one; Some three_fifths;
                      Some (S754_finite false 13421772 (-25))] |}.
Proof. reflexivity. Qed.

(** With an even capacity the last store of a row falls outside the row:
    for the last row it falls outside the storage. *)
Example even_capacity_leaves_storage :
  fst (Compute tree4 batch_a weights7 biases7) = Aborted.
Proof. reflexivity. Qed.

(* ===================================================================== *)
(** * The loops *)
(* ===================================================================== *)

(** A guard of the kernel or of the framework holds: the goal is
    [true = guard], the guard a conjunction of comparisons. *)
Ltac guard_holds := symmetry; rewrite ?andb_true_iff; repeat split; lia.

(** The rule of the counted loop: a body that keeps the invariant and never
    aborts gives a loop that ends with the invariant. *)
Lemma for_loop_invariant (Inv : Z -> Frame -> Prop) (body : Z -> M unit) :
  forall (n : nat) (lo : Z) (st : Frame),
    Inv lo st ->
    (forall i s, lo <= i < lo + Z.of_nat n -> Inv i s ->
       exists s', body i s = Some (tt, s') /\ Inv (i + 1) s') ->
    exists st', for_loop n lo body st = Some (tt, st')
                /\ Inv (lo + Z.of_nat n) st'.
Proof.
  induction n as [|n IH]; intros lo st Hinv Hbody.
  - exists st. split; [reflexivity|]. now replace (lo + Z.of_nat 0) with lo by lia.
  - destruct (Hbody lo st ltac:(lia) Hinv) as (s1 & Hs1 & Hinv1).
    destruct (IH (lo + 1) s1 Hinv1) as (s2 & Hs2 & Hinv2).
    + intros i s Hi. apply Hbody. lia.
    + exists s2. split.
      * simpl. unfold bind. now rewrite Hs1.
      * now replace (lo + Z.of_nat (S n)) with (lo + 1 + Z.of_nat n) by lia.
Qed.

(** Two cells of a matrix share their storage only when they are the same
    cell. *)
Lemma offset_inj (cols i k i' k' : Z) :
  0 <= k < cols -> 0 <= k' < cols ->
  offset cols i k = offset cols i' k' -> i = i' /\ k = k'.
Proof.
  unfold offset. intros Hk Hk' Heq.
  assert (i = i').
  { destruct (Z.lt_trichotomy i i') as [Hlt | [-> | Hgt]]; [|reflexivity|].
    - assert ((i + 1) * cols <= i' * cols) by (apply Z.mul_le_mono_nonneg_r; lia). lia.
    - assert ((i' + 1) * cols <= i * cols) by (apply Z.mul_le_mono_nonneg_r; lia). lia. }
  subst i'. lia.
Qed.

(** The product along the path to a child extends that of its parent. *)
Lemma path_product_left (lp : Z -> float32) (j : Z) :
  0 <= j ->
  path_product lp (Z.to_pos (2 * j + 1 + 1))
  = mul (path_product lp (Z.to_pos (j + 1))) (lp j).
Proof.
  intros Hj. replace (2 * j + 1 + 1) with (Zpos (xO (Z.to_pos (j + 1)))) by lia.
  rewrite Pos2Z.id. cbn [path_product]. rewrite Z2Pos.id by lia.
  now replace (j + 1 - 1) with j by lia.
Qed.

Lemma path_product_right (lp : Z -> float32) (j : Z) :
  0 <= j ->
  path_product lp (Z.to_pos (2 * j + 2 + 1))
  = mul (path_product lp (Z.to_pos (j + 1))) (sub one (lp j)).
Proof.
  intros Hj. replace (2 * j + 2 + 1) with (Zpos (xI (Z.to_pos (j + 1)))) by lia.
  rewrite Pos2Z.id. cbn [path_product]. rewrite Z2Pos.id by lia.
  now replace (j + 1 - 1) with j by lia.
Qed.

Section Loops.
Context `{TF : TensorForest}.
Variable self : KFeatureRoutingFunction.
Variables input_data tree_parameters_tensor tree_biases_tensor : Tensor.
Hypothesis Hvalid :
  valid_invocation self input_data tree_parameters_tensor tree_biases_tensor = true.

Local Abbreviation mn := (max_nodes_ self).
Local Abbreviation nd := (num_data input_data).
Local Abbreviation nf := (num_features input_data).
Local Abbreviation h := (internal_nodes self).

(** What a valid invocation gives, as equations and bounds. *)
Lemma valid_facts :
  dims input_data = 2 /\ nd = dim_size input_data 0 /\ 0 <= nd < 2 ^ 31
  /\ nf = dim_size input_data 1
  /\ CheckTensorBounds input_data = true
  /\ 0 < mn < 2 ^ 31 /\ mn = 2 * h + 1 /\ 0 <= h
  /\ dims tree_biases_tensor = 1
  /\ h <= Z.of_nat (length (flat tree_biases_tensor))
  /\ 1 <= dims tree_parameters_tensor
  /\ h <= dim_size tree_parameters_tensor 0.
Proof.
  unfold valid_invocation in Hvalid.
  repeat (apply andb_prop in Hvalid; destruct Hvalid as [Hvalid ?]).
  unfold num_data, num_features, to_int32, internal_nodes in *.
  assert (Hodd: mn = 2 * (mn ÷ 2) + 1).
  { rewrite Z.quot_div_nonneg by lia.
    assert (Z.odd mn = true) as Ho by assumption.
    rewrite Z.odd_spec in Ho. destruct Ho as [q Hq].
    pose proof (Z.div_mod mn 2). pose proof (Z.mod_pos_bound mn 2). lia. }
  assert (0 <= mn ÷ 2) by (apply Z.quot_pos; lia).
  rewrite !Z.mod_small by lia.
  repeat split; try lia. now destruct (CheckTensorBounds input_data).
Qed.

(** The indices of the children are computed on [int32] without
    overflow. *)
Lemma child_indices_fit_int32 (j : Z) :
  0 <= j < h ->
  to_int32 (2 * j + 1) = 2 * j + 1
  /\ to_int32 (2 * j + 1 + 1) = 2 * j + 1 + 1.
Proof.
  intros Hj. destruct valid_facts as (_ & _ & _ & _ & _ & Hmn & Hodd & _).
  unfold to_int32. rewrite !Z.mod_small by lia. lia.
Qed.

Lemma routing_probability_root (i : Z) :
  routing_probability self input_data tree_parameters_tensor
    tree_biases_tensor i 0 = one.
Proof. reflexivity. Qed.

Lemma routing_probability_left (i j : Z) :
  0 <= j ->
  routing_probability self input_data tree_parameters_tensor
    tree_biases_tensor i (2 * j + 1)
  = mul (routing_probability self input_data tree_parameters_tensor
           tree_biases_tensor i j)
        (left_prob self input_data tree_parameters_tensor
           tree_biases_tensor i j).
Proof. intros Hj. unfold routing_probability. now apply path_product_left. Qed.

Lemma routing_probability_right (i j : Z) :
  0 <= j ->
  routing_probability self input_data tree_parameters_tensor
    tree_biases_tensor i (2 * j + 2)
  = mul (routing_probability self input_data tree_parameters_tensor
           tree_biases_tensor i j)
        (sub one (left_prob self input_data tree_parameters_tensor
                    tree_biases_tensor i j)).
Proof. intros Hj. unfold routing_probability. now apply path_product_right. Qed.

Lemma node_events_step (i j : Z) :
  0 <= j ->
  node_events self input_data tree_parameters_tensor tree_biases_tensor i j
  = let prob := routing_probability self input_data
                  tree_parameters_tensor tree_biases_tensor i j in
    let fs := GetFeatureSet (layer_num_ self) i (random_seed_ self) nf
                (num_features_per_node_ self) [] in
    let left_prob := LeftProbabilityK (row_of input_data i) fs
                       (row_of tree_parameters_tensor j)
                       (bias_of tree_biases_tensor j) nf
                       (num_features_per_node_ self) in
    [CallGetFeatureSet (layer_num_ self) i (random_seed_ self) nf
       (num_features_per_node_ self);
     CallLeftProbabilityK (row_of input_data i) fs
       (row_of tree_parameters_tensor j) (bias_of tree_biases_tensor j) nf
       (num_features_per_node_ self);
     Store i (2 * j + 1) (mul prob left_prob);
     Store i (2 * j + 1 + 1) (mul prob (sub one left_prob))].
Proof.
  intros Hj. unfold node_events.
  rewrite routing_probability_left, routing_probability_right by lia.
  replace (2 * j + 1 + 1) with (2 * j + 2) by lia. reflexivity.
Qed.

(** On a valid invocation the slices and the bias the kernel passes to
    [LeftProbabilityK] exist: no default of [row_of] and [bias_of] is met. *)
Lemma collaborator_arguments (i j : Z) :
  0 <= i < nd -> 0 <= j < h ->
  Slice input_data i (i + 1) = Some (row_of input_data i)
  /\ Slice tree_parameters_tensor j (j + 1)
     = Some (row_of tree_parameters_tensor j)
  /\ flat tree_biases_tensor !! Z.to_nat j
     = Some (bias_of tree_biases_tensor j).
Proof.
  intros Hi Hj.
  destruct valid_facts as (Hd & Hnd & _ & _ & _ & _ & _ & _ & _ & Hb & Hp & Hp0).
  unfold row_of, bias_of, Slice, dims, dim_size in *.
  repeat split.
  - destruct (shape input_data) as [|d0 rest]; [simpl in Hd; lia|].
    simpl in Hnd.
    replace ((0 <=? i) && (i <=? i + 1) && (i + 1 <=? d0)) with true
      by guard_holds.
    reflexivity.
  - destruct (shape tree_parameters_tensor) as [|d0 rest]; [simpl in Hp; lia|].
    simpl in Hp0.
    replace ((0 <=? j) && (j <=? j + 1) && (j + 1 <=? d0)) with true
      by guard_holds.
    reflexivity.
  - destruct (lookup_lt_is_Some_2 (flat tree_biases_tensor) (Z.to_nat j))
      as [b Hb']; [lia|].
    now rewrite Hb'.
Qed.

(** One turn of the loop over [j]. *)
Lemma node_step_correct (i j : Z) (st : Frame) :
  0 <= i < nd -> 0 <= j < h ->
  node_invariant self input_data tree_parameters_tensor tree_biases_tensor
    i j st ->
  exists st',
    node_step self tree_parameters_tensor (flat tree_biases_tensor) nf
      (row_of input_data i) i j st = Some (tt, st')
    /\ node_invariant self input_data tree_parameters_tensor
         tree_biases_tensor i (j + 1) st'.
Proof.
  intros Hi Hj (Hlen & Hrows & Hrow & Htrace).
  destruct valid_facts as (_ & _ & _ & _ & _ & Hmn & Hodd & Hh & _).
  destruct (collaborator_arguments i j Hi Hj) as (_ & Hw & Hb).
  assert (Hin : forall k, 0 <= k < mn ->
            0 <= offset mn i k < nd * mn).
  { intros k Hk. unfold offset. nia. }
  unfold node_step, bind, clear_feature_set, call_GetFeatureSet, read_out,
    call_LeftProbabilityK, write_out, checked, ret; cbn [out_probs feature_set trace].
  rewrite Hrow by lia.
  destruct (Z.leb_spec 0 (offset mn i j)) as [_|Hneg];
    [|specialize (Hin j); lia].
  rewrite Hw, Hb.
  pose proof (Hin (2 * j + 1) ltac:(lia)) as Hl.
  pose proof (Hin (2 * j + 1 + 1) ltac:(lia)) as Hr.
  cbn [out_probs feature_set trace]. rewrite Hlen.
  replace ((0 <=? offset mn i (2 * j + 1))
           && (offset mn i (2 * j + 1) <? nd * mn)) with true
    by guard_holds.
  cbn [out_probs feature_set trace]. rewrite length_insert, Hlen.
  replace ((0 <=? offset mn i (2 * j + 1 + 1))
           && (offset mn i (2 * j + 1 + 1) <? nd * mn)) with true
    by guard_holds.
  eexists. split; [reflexivity|].
  unfold node_invariant; cbn [out_probs feature_set trace].
  rewrite !length_insert.
  split; [exact Hlen|]. split; [|split].
  - intros i' k Hi' Hk.
    rewrite !list_lookup_insert_ne.
    + now apply Hrows.
    + intros E. apply Z2Nat.inj in E; [|lia|specialize (Hin k); unfold offset in *; nia].
      apply offset_inj in E; lia.
    + intros E. apply Z2Nat.inj in E; [|lia|specialize (Hin k); unfold offset in *; nia].
      apply offset_inj in E; lia.
  - intros k Hk.
    destruct (Z.eq_dec k (2 * j + 1 + 1)) as [->|Hne2].
    { rewrite list_lookup_insert_eq by (rewrite length_insert; lia).
      replace (2 * j + 1 + 1) with (2 * j + 2) by lia.
      now rewrite routing_probability_right by lia. }
    rewrite list_lookup_insert_ne
      by (intros E; apply Z2Nat.inj in E; [|lia|specialize (Hin k); lia];
          apply offset_inj in E; lia).
    destruct (Z.eq_dec k (2 * j + 1)) as [->|Hne1].
    { rewrite list_lookup_insert_eq by lia.
      now rewrite routing_probability_left by lia. }
    rewrite list_lookup_insert_ne
      by (intros E; apply Z2Nat.inj in E; [|lia|specialize (Hin k); lia];
          apply offset_inj in E; lia).
    apply Hrow. lia.
  - rewrite Htrace.
    replace (j + 1) with (Z.of_nat (S (Z.to_nat j))) by lia.
    rewrite seqZ_S, flat_map_app, Z2Nat.id by lia.
    cbn [flat_map]. rewrite app_nil_r.
    rewrite Z.add_0_l, (node_events_step i j) by lia.
    cbv zeta. repeat (cbn [app]; rewrite <- ?app_assoc). reflexivity.
Qed.

(** One turn of the loop over [i]. *)
Lemma row_step_correct (i : Z) (st : Frame) :
  0 <= i < nd ->
  row_invariant self input_data tree_parameters_tensor tree_biases_tensor
    i st ->
  exists st',
    row_step self input_data tree_parameters_tensor
      (flat tree_biases_tensor) nf i st = Some (tt, st')
    /\ row_invariant self input_data tree_parameters_tensor
         tree_biases_tensor (i + 1) st'.
Proof.
  intros Hi (Hlen & Hrows & Htrace).
  destruct valid_facts as (_ & _ & _ & _ & _ & Hmn & Hodd & Hh & _).
  assert (Hpoint : Slice input_data i (i + 1) = Some (row_of input_data i)).
  { unfold row_of. destruct valid_facts as (Hd & Hnd & _).
    unfold Slice, dims, dim_size in *.
    destruct (shape input_data) as [|d0 rest]; [simpl in Hd; lia|].
    simpl in Hnd.
    replace ((0 <=? i) && (i <=? i + 1) && (i + 1 <=? d0)) with true
      by guard_holds.
    reflexivity. }
  assert (Hin : forall k, 0 <= k < mn -> 0 <= offset mn i k < nd * mn).
  { intros k Hk. unfold offset. nia. }
  pose proof (Hin 0 ltac:(lia)) as H0.
  unfold row_step, bind at 1. rewrite Hpoint. cbn [checked ret].
  unfold bind at 1, write_out at 1. rewrite Hlen.
  replace ((0 <=? offset mn i 0) && (offset mn i 0 <? nd * mn)) with true
    by guard_holds.
  match goal with
  | |- exists st', for_loop _ _ _ ?s = _ /\ _ => set (st1 := s)
  end.
  destruct (for_loop_invariant
              (node_invariant self input_data tree_parameters_tensor
                 tree_biases_tensor i)
              (node_step self tree_parameters_tensor
                 (flat tree_biases_tensor) nf (row_of input_data i) i)
              (Z.to_nat h) 0 st1) as (st2 & Hrun & Hinv2).
  - subst st1. unfold node_invariant; cbn [out_probs feature_set trace].
    rewrite length_insert. split; [exact Hlen|]. split; [|split].
    + intros i' k Hi' Hk. rewrite list_lookup_insert_ne; [now apply Hrows|].
      intros E. apply Z2Nat.inj in E; [|lia|unfold offset; nia].
      apply offset_inj in E; lia.
    + intros k Hk. replace k with 0 by lia.
      rewrite list_lookup_insert_eq by lia. reflexivity.
    + rewrite Htrace. reflexivity.
  - intros j s Hj. apply node_step_correct; lia.
  - exists st2. split; [exact Hrun|].
    rewrite Z.add_0_l, Z2Nat.id in Hinv2 by lia.
    destruct Hinv2 as (Hlen2 & Hrows2 & Hrow2 & Htrace2).
    split; [exact Hlen2|]. split.
    + intros i' k Hi' Hk.
      destruct (Z.eq_dec i' i) as [->|Hne]; [apply Hrow2; lia|].
      apply Hrows2; lia.
    + rewrite Htrace2.
      replace (i + 1) with (Z.of_nat (S (Z.to_nat i))) by lia.
      rewrite seqZ_S, flat_map_app, Z2Nat.id by lia.
      cbn [flat_map]. rewrite app_nil_r. reflexivity.
Qed.

(** On a valid invocation [Compute] runs to its end; every cell of its
    output holds the routing probability of its row and node, and the
    trace it made are the expected ones. *)
Lemma Compute_correct :
  exists out,
    Compute self input_data tree_parameters_tensor tree_biases_tensor
    = (Done out,
       expected_trace self input_data tree_parameters_tensor
         tree_biases_tensor)
    /\ buf_shape out = [nd; mn]
    /\ forall i k, 0 <= i < nd -> 0 <= k < mn ->
         cell out i k
         = Some (routing_probability self input_data
                   tree_parameters_tensor tree_biases_tensor i k).
Proof.
  destruct valid_facts
    as (Hd & Hnd & Hndr & _ & Hchk & Hmn & Hodd & Hh & Hbd & _).
  unfold Compute. rewrite Hd, Hchk. cbn [Z.eqb negb andb].
  rewrite andb_false_r.
  fold (num_data input_data). fold (num_features input_data).
  unfold allocate_output. cbn [forallb].
  replace ((0 <=? nd) && ((0 <=? mn) && true)) with true
    by guard_holds.
  unfold tensor1. rewrite Hbd. cbn [Z.eqb Pos.eqb cells buf_shape].
  match goal with
  | |- context [for_loop _ _ _ ?s] => set (st0 := s)
  end.
  destruct (for_loop_invariant
              (row_invariant self input_data tree_parameters_tensor
                 tree_biases_tensor)
              (row_step self input_data tree_parameters_tensor
                 (flat tree_biases_tensor) nf)
              (Z.to_nat nd) 0 st0) as (st1 & Hrun & Hinv).
  - subst st0. unfold row_invariant; cbn [out_probs feature_set trace].
    split; [|split].
    + rewrite length_replicate. cbn [fold_right]. lia.
    + intros; lia.
    + reflexivity.
  - intros i s Hi. apply row_step_correct; lia.
  - rewrite Hrun. rewrite Z.add_0_l, Z2Nat.id in Hinv by lia.
    destruct Hinv as (Hlen & Hrows & Htrace).
    eexists. split; [|split].
    + rewrite Htrace. reflexivity.
    + reflexivity.
    + intros i k Hi Hk. unfold cell, rows, columns. cbn [buf_shape cells nth].
      replace ((0 <=? i) && (i <? nd) && (0 <=? k) && (k <? mn)) with true
        by guard_holds.
      now rewrite Hrows.
Qed.

End Loops.

(* ===================================================================== *)
(** * Rounding to binary32 *)
(* ===================================================================== *)

(** The exponent of a result at most one is below the overflow threshold:
    the goal is [true = (e <=? emax - prec)]. *)
Ltac exponent_fits :=
  symmetry; apply Z.leb_le; change (emax - prec) with 104; lia.

Lemma pow2_pos (n : Z) : 0 <= n -> 0 < 2 ^ n.
Proof. intros. apply Z.pow_pos_nonneg; lia. Qed.

Lemma pow2_succ (n : Z) : 0 <= n -> 2 ^ (n + 1) = 2 * 2 ^ n.
Proof. intros. rewrite Z.pow_add_r by lia. change (2 ^ 1) with 2. lia. Qed.

Lemma pow2_add (a b : Z) : 0 <= a -> 0 <= b -> 2 ^ (a + b) = 2 ^ a * 2 ^ b.
Proof. intros. apply Z.pow_add_r; lia. Qed.

Lemma pow2_le (a b : Z) : a <= b -> 2 ^ a <= 2 ^ b.
Proof. intros. apply Z.pow_le_mono_r; lia. Qed.

Lemma pow2_lt_inv (a b : Z) : 2 ^ a < 2 ^ b -> a < b.
Proof.
  intros H. destruct (Z_lt_le_dec a b) as [|Hle]; [assumption|].
  apply pow2_le in Hle. lia.
Qed.

(** A mantissa of [d] binary digits lies in [[2^(d-1), 2^d)], and only
    there. *)
Lemma digits2_pos_bounds (m : positive) :
  2 ^ (Zpos (digits2_pos m) - 1) <= Zpos m < 2 ^ Zpos (digits2_pos m).
Proof.
  induction m as [p IH|p IH|]; cbn [digits2_pos].
  - rewrite Pos2Z.inj_succ.
    replace (Z.succ (Zpos (digits2_pos p)) - 1)
      with (Zpos (digits2_pos p) - 1 + 1) by lia.
    unfold Z.succ. rewrite !pow2_succ by lia. lia.
  - rewrite Pos2Z.inj_succ.
    replace (Z.succ (Zpos (digits2_pos p)) - 1)
      with (Zpos (digits2_pos p) - 1 + 1) by lia.
    unfold Z.succ. rewrite !pow2_succ by lia. lia.
  - cbn. lia.
Qed.

Lemma digits2_pos_unique (m : positive) (n : Z) :
  2 ^ (n - 1) <= Zpos m < 2 ^ n -> Zpos (digits2_pos m) = n.
Proof.
  intros [Hlo Hhi]. pose proof (digits2_pos_bounds m) as [Dlo Dhi].
  assert (Zpos (digits2_pos m) - 1 < n) by (apply pow2_lt_inv; lia).
  assert (n - 1 < Zpos (digits2_pos m)) by (apply pow2_lt_inv; lia).
  lia.
Qed.

(** [shifted] is the invariant of the shifts of [shr]. *)
Lemma shifted_start (m : Z) :
  0 <= m -> shifted m 0 (shr_record_of_loc m loc_Exact).
Proof.
  intros Hm. split; [exact Hm|]. exists 0. cbn. repeat split; lia.
Qed.

Lemma shifted_step (m k : Z) (rec : shr_record) :
  0 <= k -> shifted m k rec -> shifted m (k + 1) (shr_1 rec).
Proof.
  intros Hk (Hq & t & Ht & Heq & Hs).
  destruct rec as [q r s]. cbn [shr_m shr_r shr_s] in *.
  pose proof (pow2_pos k Hk) as Hpk.
  rewrite (pow2_succ k Hk) in Heq.
  assert (Hst : orb r s = negb ((if r then 2 ^ k else 0) + t =? 0)).
  { subst s. destruct r; cbn [orb].
    - symmetry. apply negb_true_iff, Z.eqb_neq. lia.
    - reflexivity. }
  assert (Hrt : 0 <= (if r then 2 ^ k else 0) + t < 2 ^ (k + 1)).
  { rewrite (pow2_succ k Hk). destruct r; lia. }
  destruct q as [|[p|p|]|p]; cbn [shr_1 shr_m shr_r shr_s]; try lia;
    unfold shifted; cbn [shr_m shr_r shr_s];
    (split; [lia|]);
    exists ((if r then 2 ^ k else 0) + t);
    (split; [exact Hrt|]); (split; [|exact Hst]);
    rewrite (pow2_succ (k + 1)), (pow2_succ k) by lia; lia.
Qed.

Lemma shifted_iter (m : Z) (p : positive) :
  forall k rec, 0 <= k -> shifted m k rec ->
    shifted m (k + Zpos p) (SpecFloat.iter_pos shr_1 p rec).
Proof.
  induction p as [p IH|p IH|]; intros k rec Hk Hrec; cbn [SpecFloat.iter_pos].
  - replace (k + Zpos p~1) with (k + 1 + Zpos p + Zpos p) by lia.
    apply IH; [lia|]. apply IH; [lia|]. now apply shifted_step.
  - replace (k + Zpos p~0) with (k + Zpos p + Zpos p) by lia.
    apply IH; [lia|]. now apply IH.
  - now apply shifted_step.
Qed.

(** Rounding the shifted record to nearest, ties to even. *)
Lemma round_nearest_even_shifted (m k : Z) (rec : shr_record) :
  0 <= k -> shifted m k rec ->
  let m1 := round_nearest_even (shr_m rec) (loc_of_shr_record rec) in
  shr_m rec <= m1 <= shr_m rec + 1
  /\ Z.abs (2 * (m1 * 2 ^ k - m)) <= 2 ^ k
  /\ (m1 = shr_m rec + 1 -> shr_m rec * 2 ^ k < m)
  /\ shr_m rec * 2 ^ k <= m < (shr_m rec + 1) * 2 ^ k
  /\ ((2 ^ k | m) -> m1 * 2 ^ k = m).
Proof.
  intros Hk (Hq & t & Ht & Heq & Hs) m1.
  destruct rec as [q r s]. cbn [shr_m shr_r shr_s] in *.
  pose proof (pow2_pos k Hk) as Hpk.
  rewrite (pow2_succ k Hk) in Heq.
  assert (Hdiv : (2 ^ k | m) -> r = false /\ t = 0).
  { intros [c Hc]. subst m.
    assert (c = q) by (destruct r; nia).
    subst c. destruct r; [lia|]. split; [reflexivity|lia]. }
  subst m1. destruct r, s; cbn [loc_of_shr_record round_nearest_even];
    try destruct (Z.even q);
    symmetry in Hs; rewrite ?negb_true_iff, ?negb_false_iff in Hs;
    rewrite ?Z.eqb_eq, ?Z.eqb_neq in Hs;
    (repeat split; try lia; try (intros Hd; destruct (Hdiv Hd); lia)).
Qed.

Lemma fexp_eq (x : Z) : fexp prec emax x = Z.max (x - 24) (-149).
Proof. reflexivity. Qed.

Lemma shr_fexp_exact_stay (m e : Z) :
  fexp prec emax (Zdigits2 m + e) - e <= 0 ->
  shr_fexp prec emax m e loc_Exact
  = ({| shr_m := m; shr_r := false; shr_s := false |}, e).
Proof.
  intros Hn. unfold shr_fexp, shr.
  destruct (fexp prec emax (Zdigits2 m + e) - e); [reflexivity|lia|reflexivity].
Qed.

Lemma shr_fexp_exact_shift (m e : Z) :
  0 <= m -> 0 < fexp prec emax (Zdigits2 m + e) - e ->
  exists rec,
    shr_fexp prec emax m e loc_Exact
    = (rec, fexp prec emax (Zdigits2 m + e))
    /\ shifted m (fexp prec emax (Zdigits2 m + e) - e) rec.
Proof.
  intros Hm Hn. unfold shr_fexp, shr.
  remember (fexp prec emax (Zdigits2 m + e) - e) as n eqn:En.
  destruct n as [|p|p]; try lia.
  exists (SpecFloat.iter_pos shr_1 p (shr_record_of_loc m loc_Exact)). split.
  - f_equal. lia.
  - replace (Zpos p) with (0 + Zpos p) by lia.
    apply shifted_iter; [lia|]. now apply shifted_start.
Qed.

Lemma mul_pow2_lt_inv (a b k : Z) : 0 <= k -> a * 2 ^ k < b * 2 ^ k -> a < b.
Proof.
  intros Hk H. apply Z.mul_lt_mono_pos_r in H; [assumption|now apply pow2_pos].
Qed.

Lemma mul_pow2_le_inv (a b k : Z) : 0 <= k -> a * 2 ^ k <= b * 2 ^ k -> a <= b.
Proof.
  intros Hk H. apply Z.mul_le_mono_pos_r in H; [assumption|now apply pow2_pos].
Qed.

(** Rounding an exact mantissa that has enough digits for its exponent and
    denotes a number below four. *)
Lemma binary_round_aux_small (m : positive) (e : Z) :
  e <= fexp prec emax (Zpos (digits2_pos m) + e) ->
  Zpos (digits2_pos m) + e <= 2 ->
  exists m1,
    let e1 := fexp prec emax (Zpos (digits2_pos m) + e) in
    0 <= m1
    /\ Z.abs (2 * (m1 * 2 ^ (e1 - e) - Zpos m)) <= 2 ^ (e1 - e)
    /\ ((2 ^ (e1 - e) | Zpos m) -> m1 * 2 ^ (e1 - e) = Zpos m)
    /\ (forall K, Zpos m <= K * 2 ^ (e1 - e) -> m1 <= K)
    /\ rounds_to (binary_round_aux prec emax false (Zpos m) e loc_Exact)
         m1 e1.
Proof.
  intros Hcan Hd2.
  pose proof (digits2_pos_bounds m) as [Dlo Dhi].
  set (d := Zpos (digits2_pos m)) in *.
  set (e1 := fexp prec emax (d + e)) in *.
  assert (He1 : e1 = Z.max (d + e - 24) (-149)) by apply fexp_eq.
  cbv zeta. unfold binary_round_aux.
  destruct (Z.eq_dec e1 e) as [Hk0|Hk0].
  - (* the mantissa is already on its exponent *)
    rewrite shr_fexp_exact_stay by (cbn [Zdigits2]; fold d; fold e1; lia).
    cbn [shr_m loc_of_shr_record round_nearest_even].
    rewrite shr_fexp_exact_stay by (cbn [Zdigits2]; fold d; fold e1; lia).
    cbn [shr_m].
    replace (e <=? emax - prec) with true by exponent_fits.
    exists (Zpos m). rewrite Hk0, Z.sub_diag, Z.mul_1_r.
    split; [lia|]. split; [lia|]. split; [reflexivity|].
    split; [intros K HK; lia|].
    right. exists m, e. split; [reflexivity|]. split; [|split; [lia|]].
    + unfold bounded, canonical_mantissa. fold d. fold e1.
      apply andb_true_iff. split; [apply Z.eqb_eq; lia|].
      apply Z.leb_le. change (emax - prec) with 104. lia.
    + rewrite Z.sub_diag. lia.
  - (* the mantissa is shifted and rounded *)
    destruct (shr_fexp_exact_shift (Zpos m) e) as (rec & Hrec & Hsh);
      [lia|cbn [Zdigits2]; fold d; fold e1; lia|].
    cbn [Zdigits2] in Hrec, Hsh. fold d in Hrec, Hsh. fold e1 in Hrec, Hsh.
    rewrite Hrec.
    set (k := e1 - e) in *.
    assert (Hk : 0 < k) by (subst k; lia).
    destruct (round_nearest_even_shifted (Zpos m) k rec ltac:(lia) Hsh)
      as (Hq & Herr & Hup & Hfloor & Hexact).
    set (m1 := round_nearest_even (shr_m rec) (loc_of_shr_record rec)) in *.
    destruct Hsh as (Hq0 & _).
    pose proof (pow2_pos k ltac:(lia)) as Hpk.
    assert (Hmono : forall K, Zpos m <= K * 2 ^ k -> m1 <= K).
    { intros K HK.
      destruct (Z.eq_dec m1 (shr_m rec + 1)) as [E|E].
      - specialize (Hup E).
        assert (shr_m rec < K); [|lia].
        apply (mul_pow2_lt_inv _ _ k); lia.
      - assert (m1 = shr_m rec) as -> by lia.
        apply (mul_pow2_le_inv _ _ k); lia. }
    assert (Hq24 : shr_m rec < 2 ^ 24).
    { apply (mul_pow2_lt_inv _ _ k); [lia|].
      rewrite <- pow2_add by lia.
      assert (2 ^ d <= 2 ^ (24 + k)) by (apply pow2_le; lia). lia. }
    assert (Hnormal : -149 < e1 -> 2 ^ 23 <= shr_m rec).
    { intros Hn. assert (d = k + 24) as Hdk by lia.
      assert (2 ^ (d - 1) = 2 ^ 23 * 2 ^ k) as Hp.
      { rewrite <- pow2_add by lia. f_equal. lia. }
      assert (2 ^ 23 < shr_m rec + 1); [|lia].
      apply (mul_pow2_lt_inv _ _ k); lia. }
    exists m1.
    split; [lia|]. split; [exact Herr|]. split; [exact Hexact|].
    split; [exact Hmono|].
    destruct (Z.eq_dec m1 0) as [Hz|Hnz].
    { (* rounded down to zero *)
      rewrite Hz.
      rewrite shr_fexp_exact_stay by (cbn [Zdigits2]; rewrite fexp_eq; lia).
      cbn [shr_m]. left. split; reflexivity. }
    destruct m1 as [|p1|p1] eqn:Em1; try lia.
    pose proof (digits2_pos_bounds p1) as [D1lo D1hi].
    right.
    destruct (Z_lt_le_dec (Zpos p1) (2 ^ 24)) as [Hsmall|Hbig].
    + (* no carry into a further digit *)
      assert (Hd24 : Zpos (digits2_pos p1) <= 24).
      { assert (Zpos (digits2_pos p1) - 1 < 24); [|lia].
        apply pow2_lt_inv. lia. }
      rewrite shr_fexp_exact_stay by (cbn [Zdigits2]; rewrite fexp_eq; lia).
      cbn [shr_m].
      replace (e1 <=? emax - prec) with true by exponent_fits.
      exists p1, e1. split; [reflexivity|]. split; [|split; [lia|]].
      * unfold bounded, canonical_mantissa.
        apply andb_true_iff. split.
        -- apply Z.eqb_eq. rewrite fexp_eq.
           destruct (Z.eq_dec e1 (-149)) as [|Hne]; [lia|].
           assert (23 < Zpos (digits2_pos p1)); [|lia].
           apply pow2_lt_inv. specialize (Hnormal ltac:(lia)). lia.
        -- apply Z.leb_le. change (emax - prec) with 104. lia.
      * rewrite Z.sub_diag. lia.
    + (* the rounding carried: the mantissa is 2^24 *)
      assert (Hp1 : p1 = 16777216%positive).
      { assert (Zpos p1 = 2 ^ 24) by lia.
        change (2 ^ 24) with 16777216 in *. lia. }
      subst p1.
      assert (Hcarry : shr_fexp prec emax 16777216 e1 loc_Exact
                       = ({| shr_m := 8388608; shr_r := false;
                             shr_s := false |}, e1 + 1)).
      { unfold shr_fexp. change (Zdigits2 16777216) with 25.
        rewrite fexp_eq.
        replace (Z.max (25 + e1 - 24) (-149) - e1) with 1 by lia.
        reflexivity. }
      rewrite Hcarry. cbn [shr_m].
      replace (e1 + 1 <=? emax - prec) with true by exponent_fits.
      exists 8388608%positive, (e1 + 1).
      split; [reflexivity|]. split; [|split; [lia|]].
      * unfold bounded, canonical_mantissa.
        change (Zpos (digits2_pos 8388608)) with 24.
        apply andb_true_iff. split.
        -- apply Z.eqb_eq. rewrite fexp_eq. lia.
        -- apply Z.leb_le. change (emax - prec) with 104. lia.
      * replace (e1 + 1 - e1) with 1 by lia. reflexivity.
Qed.

(** A rounded result in units of [2^-149]. *)
Lemma rounds_to_ulps (r : float32) (m1 e1 : Z) :
  -149 <= e1 -> rounds_to r m1 e1 -> ulps r = m1 * 2 ^ (e1 + 149).
Proof.
  intros He1 [[-> ->]|(m' & e' & -> & _ & He' & <-)]; [reflexivity|].
  cbn [ulps cond_Zopp]. rewrite <- Z.mul_assoc. f_equal.
  rewrite <- (pow2_add (e' - e1) (e1 + 149)) by lia. f_equal. lia.
Qed.

Lemma rounds_to_valid (r : float32) (m1 e1 : Z) :
  rounds_to r m1 e1 -> valid r = true /\ leb zero r = true.
Proof.
  intros [[_ ->]|(m' & e' & -> & Hb & _)]; [split; reflexivity|].
  split; [exact Hb|reflexivity].
Qed.

(** The result of rounding a mantissa that is exact, not above one and has
    enough digits for its exponent. *)
Lemma binary_round_aux_unit (m : positive) (e : Z) :
  e <= fexp prec emax (Zpos (digits2_pos m) + e) ->
  e <= 0 -> Zpos m <= 2 ^ (- e) ->
  exists m1 e1,
    e <= e1 /\ -149 <= e1 <= 0 /\ 0 <= m1 <= 2 ^ (- e1)
    /\ Z.abs (2 * (m1 * 2 ^ (e1 - e) - Zpos m)) <= 2 ^ (e1 - e)
    /\ (Zpos m = 2 ^ (- e) -> m1 * 2 ^ (e1 - e) = Zpos m)
    /\ (Zpos m < 2 ^ (- e) -> e1 <= -24)
    /\ prob_shape (binary_round_aux prec emax false (Zpos m) e loc_Exact)
    /\ ulps (binary_round_aux prec emax false (Zpos m) e loc_Exact)
       = m1 * 2 ^ (e1 + 149).
Proof.
  intros Hcan He Hm.
  pose proof (digits2_pos_bounds m) as [Dlo Dhi].
  assert (Hd1 : Zpos (digits2_pos m) + e <= 1).
  { assert (Zpos (digits2_pos m) - 1 < - e + 1); [|lia].
    apply pow2_lt_inv. rewrite pow2_succ by lia.
    pose proof (pow2_pos (- e) ltac:(lia)). lia. }
  pose proof (binary_round_aux_small m e Hcan ltac:(lia)) as Hround.
  cbv zeta in Hround.
  destruct Hround as (m1 & Hm1 & Herr & Hexact & Hmono & Hr).
  set (d := Zpos (digits2_pos m)) in *.
  set (e1 := fexp prec emax (d + e)) in *.
  assert (He1 : e1 = Z.max (d + e - 24) (-149)) by apply fexp_eq.
  assert (Hsplit : 2 ^ (- e) = 2 ^ (- e1) * 2 ^ (e1 - e)).
  { rewrite <- pow2_add by lia. f_equal. lia. }
  assert (Hm1le : m1 <= 2 ^ (- e1)) by (apply Hmono; lia).
  exists m1, e1.
  split; [exact Hcan|]. split; [lia|]. split; [lia|].
  split; [exact Herr|]. split; [|split; [|split]].
  - intros E. apply Hexact. rewrite E, Hsplit. now exists (2 ^ (- e1)).
  - intros Hs. assert (d - 1 < - e); [|lia]. apply pow2_lt_inv. lia.
  - destruct Hr as [[_ ->]|(m' & e' & -> & Hb & He' & Hv)]; [exact I|].
    cbn [prob_shape]. split; [exact Hb|].
    pose proof (pow2_pos (e' - e1) ltac:(lia)) as Hp.
    assert (He0 : e' <= 0).
    { destruct (Z_le_gt_dec e' 0) as [|Hgt]; [assumption|exfalso].
      assert (2 ^ (- e1 + 1) <= 2 ^ (e' - e1)) by (apply pow2_le; lia).
      rewrite pow2_succ in * by lia.
      pose proof (pow2_pos (- e1) ltac:(lia)). nia. }
    split; [exact He0|].
    apply (mul_pow2_le_inv _ _ (e' - e1)); [lia|].
    rewrite <- (pow2_add (- e') (e' - e1)) by lia.
    replace (- e' + (e' - e1)) with (- e1) by lia. lia.
  - apply rounds_to_ulps; [lia|exact Hr].
Qed.

(** From half an ulp of the mantissa to a bound on the scaled error. *)
Lemma scaled_error_bound (D K P B : Z) :
  0 < P -> Z.abs (2 * D) <= K -> K * P <= 2 * B -> Z.abs (D * P) <= B.
Proof.
  intros HP HD HK. rewrite Z.abs_mul, (Z.abs_eq P) by lia.
  assert (2 * Z.abs D <= K) by lia.
  assert (2 * Z.abs D * P <= K * P) by (apply Z.mul_le_mono_nonneg_r; lia).
  lia.
Qed.

Lemma pow2_le_inv (a b : Z) : 0 <= b -> 2 ^ a <= 2 ^ b -> a <= b.
Proof.
  intros Hb H. destruct (Z_le_gt_dec a b) as [|Hgt]; [assumption|].
  assert (2 ^ (b + 1) <= 2 ^ a) by (apply pow2_le; lia).
  rewrite pow2_succ in * by lia. pose proof (pow2_pos b Hb). lia.
Qed.

(** The shape of a finite probability: its exponent and its digits. *)
Lemma prob_shape_finite (m : positive) (e : Z) :
  prob_shape (S754_finite false m e) ->
  -149 <= e <= -23
  /\ Zpos (digits2_pos m) <= 24
  /\ Z.max (Zpos (digits2_pos m) + e - 24) (-149) = e
  /\ Zpos m <= 2 ^ (- e).
Proof.
  intros (Hb & He & Hm).
  unfold bounded, canonical_mantissa in Hb.
  apply andb_true_iff in Hb. destruct Hb as [Hc _].
  apply Z.eqb_eq in Hc. rewrite fexp_eq in Hc.
  pose proof (digits2_pos_bounds m) as [Dlo Dhi].
  assert (e <= -23).
  { destruct (Z.eq_dec e (-149)); [lia|].
    assert (Zpos (digits2_pos m) = 24) as Hd by lia. rewrite Hd in Dlo.
    assert (23 <= - e); [|lia]. apply pow2_le_inv; lia. }
  lia.
Qed.

(** The product of two probabilities is a probability, within [2^-25] of
    the exact product. *)
Lemma mul_prob (x y : float32) :
  prob_shape x -> prob_shape y ->
  prob_shape (mul x y)
  /\ Z.abs (ulps (mul x y) * 2 ^ 149 - ulps x * ulps y) <= 2 ^ 273.
Proof.
  intros Hx Hy.
  destruct x as [sx|sx| |[|] mx ex]; try contradiction;
    destruct y as [sy|sy| |[|] my ey]; try contradiction;
    try (unfold mul, SFmul; cbn [prob_shape ulps]; split; [exact I|];
         rewrite ?Z.mul_0_l, ?Z.mul_0_r; cbn; lia).
  destruct (prob_shape_finite _ _ Hx) as (Hex & Hdx & Hcx & Hmx).
  destruct (prob_shape_finite _ _ Hy) as (Hey & Hdy & Hcy & Hmy).
  pose proof (digits2_pos_bounds mx) as [Xlo Xhi].
  pose proof (digits2_pos_bounds my) as [Ylo Yhi].
  pose proof (digits2_pos_bounds (mx * my)) as [Plo Phi].
  set (dx := Zpos (digits2_pos mx)) in *.
  set (dy := Zpos (digits2_pos my)) in *.
  set (d := Zpos (digits2_pos (mx * my))) in *.
  rewrite Pos2Z.inj_mul in Plo, Phi.
  assert (Hd : dx + dy - 1 <= d).
  { assert (dx - 1 + (dy - 1) < d); [|lia]. apply pow2_lt_inv.
    assert (1 <= dx) by (subst dx; lia). assert (1 <= dy) by (subst dy; lia).
    rewrite pow2_add by lia.
    pose proof (pow2_pos (dx - 1) ltac:(lia)).
    pose proof (pow2_pos (dy - 1) ltac:(lia)).
    assert (2 ^ (dx - 1) * 2 ^ (dy - 1) <= Zpos mx * Zpos my)
      by (apply Z.mul_le_mono_nonneg; lia).
    lia. }
  assert (Hprod : Zpos (mx * my) <= 2 ^ (- (ex + ey))).
  { replace (- (ex + ey)) with (- ex + - ey) by lia.
    rewrite pow2_add, Pos2Z.inj_mul by lia.
    apply Z.mul_le_mono_nonneg; lia. }
  destruct (binary_round_aux_unit (mx * my) (ex + ey))
    as (m1 & e1 & He1 & He1r & Hm1 & Herr & Hexact & Hlt & Hshape & Hulps).
  { fold d. rewrite fexp_eq. lia. }
  { lia. }
  { exact Hprod. }
  unfold mul, SFmul. cbn [xorb]. split; [exact Hshape|].
  rewrite Hulps. cbn [ulps cond_Zopp].
  set (m := Zpos (mx * my)) in *. set (e := ex + ey) in *.
  assert (Hxy : Zpos mx * 2 ^ (ex + 149) * (Zpos my * 2 ^ (ey + 149))
                = m * 2 ^ (e + 298)).
  { subst m e. rewrite Pos2Z.inj_mul.
    replace (ex + ey + 298) with (ex + 149 + (ey + 149)) by lia.
    rewrite (pow2_add (ex + 149) (ey + 149)) by lia. ring. }
  assert (Hr : m1 * 2 ^ (e1 + 149) * 2 ^ 149
               = m1 * 2 ^ (e1 - e) * 2 ^ (e + 298)).
  { rewrite <- !Z.mul_assoc. f_equal.
    rewrite <- (pow2_add (e1 + 149) 149), <- (pow2_add (e1 - e) (e + 298))
      by lia.
    f_equal. lia. }
  rewrite Hxy, Hr, <- Z.mul_sub_distr_r.
  pose proof (pow2_pos (e + 298) ltac:(lia)) as Hp.
  destruct (Z.eq_dec m (2 ^ (- e))) as [Heq|Hne].
  - rewrite (Hexact Heq), Z.sub_diag, Z.mul_0_l. cbn. lia.
  - specialize (Hlt ltac:(lia)).
    apply (scaled_error_bound _ (2 ^ (e1 - e))); [exact Hp|exact Herr|].
    rewrite <- (pow2_add (e1 - e) (e + 298)), <- (pow2_succ 273) by lia.
    apply pow2_le. lia.
Qed.

Lemma pos_iter_xO (m d : positive) :
  Zpos (Pos.iter xO m d) = Zpos m * 2 ^ Zpos d.
Proof.
  induction d as [|d IH] using Pos.peano_ind.
  - cbn. lia.
  - rewrite Pos.iter_succ, Pos2Z.inj_xO, IH, Pos2Z.inj_succ.
    unfold Z.succ. rewrite pow2_succ by lia. lia.
Qed.

(** Aligning a mantissa on a lower exponent keeps the number. *)
Lemma shl_align_value (m : positive) (e e' : Z) :
  snd (shl_align m e e') = Z.min e e'
  /\ Zpos (fst (shl_align m e e')) = Zpos m * 2 ^ (e - Z.min e e').
Proof.
  unfold shl_align. destruct (e' - e) as [|p|p] eqn:E; cbn [fst snd].
  - rewrite Z.min_l by lia. rewrite Z.sub_diag. cbn. lia.
  - rewrite Z.min_l by lia. rewrite Z.sub_diag. cbn. lia.
  - rewrite Z.min_r by lia. split; [reflexivity|].
    rewrite pos_iter_xO. f_equal. f_equal. lia.
Qed.

Lemma prob_shape_one : prob_shape one.
Proof. cbn. repeat split; lia. Qed.

Lemma ulps_one : ulps one = 2 ^ 149.
Proof. reflexivity. Qed.

(** The complement to [1.0f] of a probability is a probability, within
    [2^-25] of the exact complement. *)
Lemma sub_one_prob (x : float32) :
  prob_shape x ->
  prob_shape (sub one x)
  /\ Z.abs (ulps (sub one x) - (2 ^ 149 - ulps x)) <= 2 ^ 124.
Proof.
  intros Hx.
  destruct x as [sx|sx| |[|] my ey]; try contradiction.
  { split; [exact prob_shape_one|]. cbn. lia. }
  destruct (prob_shape_finite _ _ Hx) as (Hey & Hdy & Hcy & Hmy).
  unfold sub, one, SFsub.
  rewrite (Z.min_r (-23) ey) by lia. cbn [cond_Zopp].
  destruct (shl_align_value 8388608 (-23) ey) as [_ Ha].
  destruct (shl_align_value my ey ey) as [_ Hb].
  rewrite Z.min_r in Ha by lia. rewrite Z.min_id, Z.sub_diag in Hb.
  rewrite Ha, Hb. clear Ha Hb.
  change (Zpos 8388608) with (2 ^ 23).
  rewrite <- (pow2_add 23 (-23 - ey)) by lia.
  replace (23 + (-23 - ey)) with (- ey) by lia.
  change (2 ^ 0) with 1. rewrite Z.mul_1_r.
  assert (Hx149 : Zpos my * 2 ^ (ey + 149) = 2 ^ 149 - (2 ^ (- ey) - Zpos my) * 2 ^ (ey + 149)).
  { rewrite Z.mul_sub_distr_r, <- (pow2_add (- ey) (ey + 149)) by lia.
    replace (- ey + (ey + 149)) with 149 by lia. lia. }
  cbn [ulps cond_Zopp]. rewrite Hx149.
  set (M := 2 ^ (- ey) - Zpos my) in *.
  pose proof (pow2_pos (- ey) ltac:(lia)) as Hpe.
  unfold binary_normalize.
  destruct M as [|pM|pM] eqn:EM; try lia.
  { split; [exact I|]. cbn. lia. }
  unfold binary_round.
  pose proof (digits2_pos_bounds pM) as [Mlo Mhi].
  set (dM := Zpos (digits2_pos pM)) in *.
  set (f := fexp prec emax (dM + ey)).
  assert (Hf : f = Z.max (dM + ey - 24) (-149)) by apply fexp_eq.
  destruct (shl_align_value pM ey f) as [Hez Hmz].
  destruct (shl_align pM ey f) as [mz ez]. cbn [fst snd] in Hez, Hmz.
  assert (HdM : 1 <= dM) by (subst dM; lia).
  assert (Hdz : Zpos (digits2_pos mz) = dM + (ey - ez)).
  { apply digits2_pos_unique. rewrite Hmz, <- Hez.
    replace (dM + (ey - ez) - 1) with (dM - 1 + (ey - ez)) by lia.
    rewrite !pow2_add by lia.
    pose proof (pow2_pos (ey - ez) ltac:(lia)).
    split; [apply Z.mul_le_mono_nonneg_r; lia
           |apply Z.mul_lt_mono_pos_r; lia]. }
  assert (Hmzlt : Zpos mz < 2 ^ (- ez)).
  { rewrite Hmz, <- Hez.
    replace (- ez) with (- ey + (ey - ez)) by lia.
    rewrite pow2_add by lia.
    apply Z.mul_lt_mono_pos_r; [apply pow2_pos|]; lia. }
  destruct (binary_round_aux_unit mz ez)
    as (m1 & e1 & He1 & He1r & Hm1 & Herr & _ & Hlt & Hshape & Hulps).
  { rewrite Hdz, fexp_eq. lia. }
  { lia. }
  { lia. }
  split; [exact Hshape|]. rewrite Hulps.
  specialize (Hlt Hmzlt).
  assert (Ht : Zpos pM * 2 ^ (ey + 149) = Zpos mz * 2 ^ (ez + 149)).
  { rewrite Hmz, <- Hez, <- Z.mul_assoc. f_equal.
    rewrite <- pow2_add by lia. f_equal. lia. }
  assert (Hr : m1 * 2 ^ (e1 + 149) = m1 * 2 ^ (e1 - ez) * 2 ^ (ez + 149)).
  { rewrite <- Z.mul_assoc. f_equal.
    rewrite <- (pow2_add (e1 - ez) (ez + 149)) by lia. f_equal. lia. }
  replace (m1 * 2 ^ (e1 + 149) - (2 ^ 149 - (2 ^ 149 - Zpos pM * 2 ^ (ey + 149))))
    with ((m1 * 2 ^ (e1 - ez) - Zpos mz) * 2 ^ (ez + 149))
    by (rewrite Z.mul_sub_distr_r, <- Hr, <- Ht; lia).
  pose proof (pow2_pos (ez + 149) ltac:(lia)) as Hp.
  apply (scaled_error_bound _ (2 ^ (e1 - ez))); [exact Hp|exact Herr|].
  rewrite <- (pow2_add (e1 - ez) (ez + 149)), <- (pow2_succ 124) by lia.
  apply pow2_le. lia.
Qed.

(** The sum of two probabilities that is below two is a valid float, within
    [2^-24] of the exact sum. *)
Lemma add_prob (x y : float32) :
  prob_shape x -> prob_shape y -> ulps x + ulps y < 2 ^ 150 ->
  valid (add x y) = true
  /\ Z.abs (ulps (add x y) - (ulps x + ulps y)) <= 2 ^ 125.
Proof.
  intros Hx Hy Hlt.
  destruct x as [sx|sx| |[|] mx ex]; try contradiction;
    destruct y as [sy|sy| |[|] my ey]; try contradiction.
  - split; [destruct sx, sy; reflexivity|].
    destruct sx, sy; cbn; lia.
  - destruct Hy as (Hb & _). split; [exact Hb|].
    unfold add, SFadd. cbn [ulps cond_Zopp].
    rewrite Z.add_0_l, Z.sub_diag. cbn. lia.
  - destruct Hx as (Hb & _). split; [exact Hb|].
    unfold add, SFadd. cbn [ulps cond_Zopp].
    rewrite Z.add_0_r, Z.sub_diag. cbn. lia.
  - destruct (prob_shape_finite _ _ Hx) as (Hex & _ & _ & _).
    destruct (prob_shape_finite _ _ Hy) as (Hey & _ & _ & _).
    cbn [ulps cond_Zopp] in *.
    unfold add, SFadd. cbn [cond_Zopp].
    set (ez := Z.min ex ey).
    destruct (shl_align_value mx ex ez) as [_ Ha].
    destruct (shl_align_value my ey ez) as [_ Hb].
    rewrite Z.min_r in Ha by (subst ez; lia).
    rewrite Z.min_r in Hb by (subst ez; lia).
    rewrite Ha, Hb. clear Ha Hb.
    assert (Hez : -149 <= ez <= -23) by (subst ez; lia).
    pose proof (pow2_pos (ex - ez) ltac:(lia)) as Hpx.
    pose proof (pow2_pos (ey - ez) ltac:(lia)) as Hpy.
    assert (Hsum : Zpos mx * 2 ^ (ex + 149) + Zpos my * 2 ^ (ey + 149)
                   = (Zpos mx * 2 ^ (ex - ez) + Zpos my * 2 ^ (ey - ez))
                     * 2 ^ (ez + 149)).
    { rewrite Z.mul_add_distr_r, <- !Z.mul_assoc.
      rewrite <- (pow2_add (ex - ez) (ez + 149)) by lia.
      rewrite <- (pow2_add (ey - ez) (ez + 149)) by lia.
      do 3 f_equal; lia. }
    rewrite Hsum in *.
    set (M := Zpos mx * 2 ^ (ex - ez) + Zpos my * 2 ^ (ey - ez)) in *.
    unfold binary_normalize.
    destruct M as [|pM|pM] eqn:EM; try lia.
    unfold binary_round.
    pose proof (digits2_pos_bounds pM) as [Mlo Mhi].
    set (dM := Zpos (digits2_pos pM)) in *.
    set (f := fexp prec emax (dM + ez)).
    assert (Hf : f = Z.max (dM + ez - 24) (-149)) by apply fexp_eq.
    destruct (shl_align_value pM ez f) as [Hez' Hmz].
    destruct (shl_align pM ez f) as [mz ez']. cbn [fst snd] in Hez', Hmz.
    assert (HdM : 1 <= dM) by (subst dM; lia).
    assert (Hdz : Zpos (digits2_pos mz) = dM + (ez - ez')).
    { apply digits2_pos_unique. rewrite Hmz, <- Hez'.
      replace (dM + (ez - ez') - 1) with (dM - 1 + (ez - ez')) by lia.
      rewrite !pow2_add by lia.
      pose proof (pow2_pos (ez - ez') ltac:(lia)).
      split; [apply Z.mul_le_mono_nonneg_r; lia
             |apply Z.mul_lt_mono_pos_r; lia]. }
    assert (HM2 : Zpos pM < 2 ^ (1 - ez)).
    { apply (mul_pow2_lt_inv _ _ (ez + 149)); [lia|].
      rewrite <- (pow2_add (1 - ez) (ez + 149)) by lia.
      replace (1 - ez + (ez + 149)) with 150 by lia. exact Hlt. }
    assert (HdM1 : dM + ez <= 1).
    { assert (dM - 1 < 1 - ez); [|lia]. apply pow2_lt_inv. lia. }
    assert (Hfz : fexp prec emax (Zpos (digits2_pos mz) + ez') = f).
    { subst f. f_equal. lia. }
    pose proof (binary_round_aux_small mz ez') as Hround.
    cbv zeta in Hround. rewrite Hfz in Hround.
    destruct Hround as (m1 & Hm1 & Herr & _ & _ & Hr); [lia|lia|].
    assert (Hf149 : -149 <= f) by lia.
    split; [exact (proj1 (rounds_to_valid _ _ _ Hr))|].
    rewrite (rounds_to_ulps _ _ _ Hf149 Hr).
    assert (Ht : Zpos pM * 2 ^ (ez + 149) = Zpos mz * 2 ^ (ez' + 149)).
    { rewrite Hmz, <- Hez', <- Z.mul_assoc. f_equal.
      rewrite <- (pow2_add (ez - ez') (ez' + 149)) by lia. f_equal. lia. }
    assert (Hrr : m1 * 2 ^ (f + 149) = m1 * 2 ^ (f - ez') * 2 ^ (ez' + 149)).
    { rewrite <- Z.mul_assoc. f_equal.
      rewrite <- (pow2_add (f - ez') (ez' + 149)) by lia. f_equal. lia. }
    rewrite Ht, Hrr, <- Z.mul_sub_distr_r.
    apply (scaled_error_bound _ (2 ^ (f - ez')));
      [apply pow2_pos; lia|exact Herr|].
    rewrite <- (pow2_add (f - ez') (ez' + 149)), <- (pow2_succ 125) by lia.
    apply pow2_le. lia.
Qed.

Lemma leb_one_mantissa (m : positive) :
  SFleb (S754_finite false m (-23)) one = true <-> Zpos m <= 2 ^ 23.
Proof.
  unfold SFleb, SFcompare, one. cbn [Z.compare Pos.compare].
  rewrite Pos.compare_cont_spec. cbn [Pos.switch_Eq].
  change (Zpos m <= 2 ^ 23) with (m <= 8388608)%positive.
  rewrite <- Pos.compare_le_iff.
  destruct (m ?= 8388608)%positive; split; intros H; try reflexivity;
    try discriminate H; try (intros E; discriminate E); now contradiction H.
Qed.

(** [prob_shape] is what [is_prob] decides. *)
Lemma is_prob_shape (x : float32) : is_prob x = true <-> prob_shape x.
Proof.
  unfold is_prob, valid, leb, zero. split.
  - intros H. apply andb_true_iff in H. destruct H as [H Hle1].
    apply andb_true_iff in H. destruct H as [Hv Hle0].
    destruct x as [s|[|]| |[|] m e];
      [exact I|discriminate Hle0|discriminate Hle1|discriminate Hle0
      |discriminate Hle0|].
    cbn [valid_binary] in Hv. cbn [prob_shape].
    pose proof Hv as Hb. unfold bounded, canonical_mantissa in Hb.
    apply andb_true_iff in Hb. destruct Hb as [Hc _].
    apply Z.eqb_eq in Hc. rewrite fexp_eq in Hc.
    pose proof (digits2_pos_bounds m) as [Dlo Dhi].
    split; [exact Hv|].
    destruct (Z.compare_spec e (-23)) as [He|He|He].
    + subst e. apply leb_one_mantissa in Hle1. split; [lia|exact Hle1].
    + split; [lia|].
      assert (2 ^ Zpos (digits2_pos m) <= 2 ^ (- e)) by (apply pow2_le; lia).
      lia.
    + exfalso. unfold SFleb, SFcompare, one in Hle1.
      rewrite (proj2 (Z.compare_gt_iff e (-23))) in Hle1 by lia.
      discriminate Hle1.
  - intros Hx.
    destruct x as [s|s| |[|] m e]; try contradiction; [reflexivity|].
    destruct (prob_shape_finite _ _ Hx) as (He & Hd & Hc & Hm).
    destruct Hx as (Hb & _).
    cbn [valid_binary]. rewrite Hb. cbn [andb].
    destruct (Z.eq_dec e (-23)) as [->|Hne].
    + apply leb_one_mantissa. exact Hm.
    + unfold SFleb, SFcompare, one.
      rewrite (proj2 (Z.compare_lt_iff e (-23))) by lia. reflexivity.
Qed.

Lemma Qpower2_scaled (e : Z) :
  -149 <= e -> (Qpower 2 e == inject_Z (2 ^ (e + 149)) / inject_Z (2 ^ 149))%Q.
Proof.
  intros He.
  replace e with ((e + 149) + (-149)) at 1 by lia.
  rewrite Qpower_plus by discriminate.
  rewrite (Zpower_Qpower 2 (e + 149)) by lia.
  reflexivity.
Qed.

(** The rational value of a probability is its number of units of [2^-149]. *)
Lemma F2Q_ulps (x : float32) :
  prob_shape x -> (F2Q x == inject_Z (ulps x) / inject_Z (2 ^ 149))%Q.
Proof.
  intros Hx. destruct x as [s|s| |[|] m e]; try contradiction.
  - cbn [F2Q ulps]. reflexivity.
  - destruct (prob_shape_finite _ _ Hx) as (He & _).
    cbn [F2Q ulps cond_Zopp]. rewrite Qpower2_scaled by lia.
    rewrite inject_Z_mult. field. discriminate.
Qed.

(** The rational value of a valid float is its number of units of
    [2^-149]. *)
Lemma F2Q_ulps_valid (x : float32) :
  valid x = true -> (F2Q x == inject_Z (ulps x) / inject_Z (2 ^ 149))%Q.
Proof.
  intros Hx. destruct x as [s|s| |s m e]; try reflexivity.
  cbn [valid valid_binary] in Hx. unfold valid, valid_binary in Hx.
  unfold bounded, canonical_mantissa in Hx.
  apply andb_true_iff in Hx. destruct Hx as [Hc _].
  apply Z.eqb_eq in Hc. rewrite fexp_eq in Hc.
  cbn [F2Q ulps]. rewrite Qpower2_scaled by lia.
  destruct s; cbn [cond_Zopp].
  - rewrite !inject_Z_opp, inject_Z_mult. field. discriminate.
  - rewrite inject_Z_mult. field. discriminate.
Qed.

Lemma prob_shape_ulps (x : float32) :
  prob_shape x -> 0 <= ulps x <= 2 ^ 149.
Proof.
  intros Hx. destruct x as [s|s| |[|] m e]; try contradiction.
  - cbn. lia.
  - destruct (prob_shape_finite _ _ Hx) as (He & _ & _ & Hm).
    cbn [ulps cond_Zopp].
    pose proof (pow2_pos (e + 149) ltac:(lia)). split; [lia|].
    replace 149 with (- e + (e + 149)) at 2 by lia.
    rewrite (pow2_add (- e) (e + 149)) by lia.
    apply Z.mul_le_mono_nonneg_r; lia.
Qed.

(** A parent's mass against the sum of its children's, in units of
    [2^-149]. *)
Lemma split_conserves_ulps (p lp : float32) :
  prob_shape p -> prob_shape lp ->
  Z.abs (ulps (mul p lp) + ulps (mul p (sub one lp)) - ulps p) <= 3 * 2 ^ 124.
Proof.
  intros Hp Hlp.
  destruct (sub_one_prob lp Hlp) as [Hc Hce].
  destruct (mul_prob p lp Hp Hlp) as [_ Hle].
  destruct (mul_prob p (sub one lp) Hp Hc) as [_ Hre].
  pose proof (prob_shape_ulps p Hp) as HP.
  set (P := ulps p) in *. set (X := ulps lp) in *.
  set (C := ulps (sub one lp)) in *.
  set (L := ulps (mul p lp)) in *. set (R := ulps (mul p (sub one lp))) in *.
  change (2 ^ 273) with (2 ^ 149 * 2 ^ 124) in *.
  set (U := 2 ^ 149) in *. set (E := 2 ^ 124) in *.
  assert (HU : 0 < U) by (subst U; apply pow2_pos; lia).
  assert (HE : 0 < E) by (subst E; apply pow2_pos; lia).
  assert (Hkey : (L + R - P) * U
                 = (L * U - P * X) + (R * U - P * C) + P * (C - (U - X)))
    by ring.
  assert (Z.abs (P * (C - (U - X))) <= U * E).
  { rewrite Z.abs_mul, (Z.abs_eq P) by lia.
    apply Z.mul_le_mono_nonneg; lia. }
  assert (Z.abs ((L + R - P) * U) <= 3 * E * U) by lia.
  rewrite Z.abs_mul, (Z.abs_eq U) in * by lia.
  apply (Z.mul_le_mono_pos_r _ _ U); lia.
Qed.

(** From a bound in units of [2^-149] to a bound on rational values. *)
Lemma ulps_bound_Q (n c : Z) :
  Z.abs n <= c * 2 ^ 124 ->
  (Qabs (inject_Z n / inject_Z (2 ^ 149)) <= c # 2 ^ 25)%Q.
Proof.
  intros H.
  change (inject_Z (2 ^ 149)) with (inject_Z (Zpos (2 ^ 149))).
  rewrite <- Qmake_Qdiv.
  unfold Qle, Qabs; cbn [Qnum Qden].
  change (Zpos (2 ^ 25)) with (2 ^ 25).
  change (Zpos (2 ^ 149)) with (2 ^ 124 * 2 ^ 25).
  pose proof (pow2_pos 25 ltac:(lia)) as H25.
  rewrite Z.mul_assoc. apply Z.mul_le_mono_nonneg_r; lia.
Qed.

(** A parent's mass against the exact sum of its children's. *)
Lemma split_conserves_mass (p lp : float32) :
  prob_shape p -> prob_shape lp ->
  (Qabs (F2Q (mul p lp) + F2Q (mul p (sub one lp)) - F2Q p)
   <= 3 # 2 ^ 25)%Q.
Proof.
  intros Hp Hlp.
  destruct (sub_one_prob lp Hlp) as [Hc _].
  destruct (mul_prob p lp Hp Hlp) as [Hl _].
  destruct (mul_prob p (sub one lp) Hp Hc) as [Hr _].
  pose proof (split_conserves_ulps p lp Hp Hlp) as H.
  rewrite (F2Q_ulps _ Hl), (F2Q_ulps _ Hr), (F2Q_ulps _ Hp).
  assert (E : (inject_Z (ulps (mul p lp)) / inject_Z (2 ^ 149)
               + inject_Z (ulps (mul p (sub one lp))) / inject_Z (2 ^ 149)
               - inject_Z (ulps p) / inject_Z (2 ^ 149)
               == inject_Z (ulps (mul p lp) + ulps (mul p (sub one lp))
                            - ulps p) / inject_Z (2 ^ 149))%Q).
  { unfold Z.sub. rewrite !inject_Z_plus, inject_Z_opp.
    field. discriminate. }
  rewrite E. now apply ulps_bound_Q.
Qed.

(** A parent's mass against the binary32 sum of its children's. *)
Lemma split_conserves_mass_float (p lp : float32) :
  prob_shape p -> prob_shape lp ->
  (Qabs (F2Q (add (mul p lp) (mul p (sub one lp))) - F2Q p)
   <= 5 # 2 ^ 25)%Q.
Proof.
  intros Hp Hlp.
  destruct (sub_one_prob lp Hlp) as [Hc _].
  destruct (mul_prob p lp Hp Hlp) as [Hl _].
  destruct (mul_prob p (sub one lp) Hp Hc) as [Hr _].
  pose proof (split_conserves_ulps p lp Hp Hlp) as Hsplit.
  pose proof (prob_shape_ulps p Hp) as HP.
  set (l := mul p lp) in *. set (r := mul p (sub one lp)) in *.
  assert (Hlt : ulps l + ulps r < 2 ^ 150).
  { change (2 ^ 150) with (2 ^ 149 + 2 ^ 25 * 2 ^ 124).
    pose proof (pow2_pos 124 ltac:(lia)).
    set (E := 2 ^ 124) in *. set (U := 2 ^ 149) in *.
    change (2 ^ 25) with 33554432. lia. }
  destruct (add_prob l r Hl Hr Hlt) as [Hv Herr].
  rewrite (F2Q_ulps_valid _ Hv), (F2Q_ulps p Hp).
  assert (E : (inject_Z (ulps (add l r)) / inject_Z (2 ^ 149)
               - inject_Z (ulps p) / inject_Z (2 ^ 149)
               == inject_Z (ulps (add l r) - ulps p) / inject_Z (2 ^ 149))%Q).
  { unfold Z.sub. rewrite inject_Z_plus, inject_Z_opp. field. discriminate. }
  rewrite E. apply ulps_bound_Q.
  change (2 ^ 125) with (2 * 2 ^ 124) in Herr.
  set (E124 := 2 ^ 124) in *. lia.
Qed.

(* ===================================================================== *)
(** * Traces *)
(* ===================================================================== *)

Lemma flat_map_flat_map {A B C} (f : B -> list C) (g : A -> list B) (l : list A) :
  flat_map f (flat_map g l) = flat_map (fun x => flat_map f (g x)) l.
Proof.
  induction l as [|x l IH]; [reflexivity|].
  cbn [flat_map]. now rewrite flat_map_app, IH.
Qed.

Lemma flat_map_singleton_seqZ {A} (x : A) (n : Z) :
  flat_map (fun _ : Z => [x]) (seqZ 0 n) = replicate (Z.to_nat n) x.
Proof.
  rewrite <- (length_seqZ 0 n).
  induction (seqZ 0 n) as [|y l IH]; [reflexivity|].
  cbn [flat_map length replicate app]. now rewrite IH.
Qed.

Section Traces.

Context `{TF : TensorForest}.
Variable self : KFeatureRoutingFunction.
Variables input_data tree_parameters_tensor tree_biases_tensor : Tensor.

Lemma selector_calls_expected :
  selector_calls (expected_trace self input_data tree_parameters_tensor
                    tree_biases_tensor)
  = flat_map (fun i => replicate (Z.to_nat (internal_nodes self))
                         (layer_num_ self, i, random_seed_ self,
                          num_features input_data,
                          num_features_per_node_ self))
      (seqZ 0 (num_data input_data)).
Proof.
  unfold expected_trace, selector_calls. cbn [flat_map app].
  rewrite flat_map_flat_map. apply flat_map_ext. intros i.
  unfold row_events. cbn [flat_map app].
  rewrite flat_map_flat_map. apply flat_map_singleton_seqZ.
Qed.

Lemma subsets_used_expected :
  subsets_used (expected_trace self input_data tree_parameters_tensor
                  tree_biases_tensor)
  = flat_map (fun i => replicate (Z.to_nat (internal_nodes self))
                         (GetFeatureSet (layer_num_ self) i
                            (random_seed_ self) (num_features input_data)
                            (num_features_per_node_ self) []))
      (seqZ 0 (num_data input_data)).
Proof.
  unfold expected_trace, subsets_used. cbn [flat_map app].
  rewrite flat_map_flat_map. apply flat_map_ext. intros i.
  unfold row_events. cbn [flat_map app].
  rewrite flat_map_flat_map. apply flat_map_singleton_seqZ.
Qed.

Lemma stores_expected :
  stores (expected_trace self input_data tree_parameters_tensor
            tree_biases_tensor)
  = flat_map (fun i => (i, 0) :: flat_map (fun j => [(i, 2 * j + 1);
                                                    (i, 2 * j + 2)])
                                   (seqZ 0 (internal_nodes self)))
      (seqZ 0 (num_data input_data)).
Proof.
  unfold expected_trace, stores. cbn [flat_map app].
  rewrite flat_map_flat_map. apply flat_map_ext. intros i.
  unfold row_events. cbn [flat_map app]. f_equal.
  rewrite flat_map_flat_map. apply flat_map_ext. reflexivity.
Qed.

End Traces.

(* ===================================================================== *)
(** * Probabilities along a path *)
(* ===================================================================== *)

Lemma path_product_ext (lp lp' : Z -> float32) (n : positive) :
  (forall j, lp j = lp' j) -> path_product lp n = path_product lp' n.
Proof.
  intros Heq. induction n as [p IH|p IH|]; cbn [path_product];
    rewrite ?IH, ?Heq; reflexivity.
Qed.

(** In a tree with [h] internal nodes whose split probabilities are
    probabilities, so is the product along the path to any node. *)
Lemma path_product_prob (lp : Z -> float32) (h : Z) :
  (forall j, 0 <= j < h -> prob_shape (lp j)) ->
  forall n, Zpos n <= 2 * h + 1 -> prob_shape (path_product lp n).
Proof.
  intros Hlp. induction n as [p IH|p IH|]; intros Hn; cbn [path_product].
  - apply mul_prob; [apply IH; lia|].
    apply sub_one_prob, Hlp. lia.
  - apply mul_prob; [apply IH; lia|]. apply Hlp. lia.
  - exact prob_shape_one.
Qed.

Lemma prob_shape_F2Q (x : float32) :
  prob_shape x -> (0 <= F2Q x <= 1)%Q.
Proof.
  intros Hx. pose proof (prob_shape_ulps x Hx) as [Hlo Hhi].
  rewrite (F2Q_ulps x Hx).
  change (inject_Z (2 ^ 149)) with (inject_Z (Zpos (2 ^ 149))).
  rewrite <- Qmake_Qdiv. unfold Qle; cbn [Qnum Qden].
  change (Zpos (2 ^ 149)) with (2 ^ 149). lia.
Qed.

Lemma is_prob_bounds (x : float32) :
  is_prob x = true -> leb zero x = true /\ leb x one = true.
Proof.
  unfold is_prob. intros H.
  apply andb_true_iff in H. destruct H as [H H1].
  apply andb_true_iff in H. destruct H as [_ H0]. now split.
Qed.

(** Rows that are equal have the same number of features. *)
Lemma Slice_num_features (a b : Tensor) (i : Z) :
  dims a = 2 -> dims b = 2 ->
  0 <= i < dim_size a 0 -> 0 <= i < dim_size b 0 ->
  Slice a i (i + 1) = Slice b i (i + 1) ->
  dim_size a 1 = dim_size b 1.
Proof.
  unfold dims, dim_size, Slice. intros Ha Hb Hia Hib.
  destruct (shape a) as [|a0 [|a1 [|a2 ra]]]; cbn [length] in Ha; try lia.
  destruct (shape b) as [|b0 [|b1 [|b2 rb]]]; cbn [length] in Hb; try lia.
  cbn [nth] in *.
  replace ((0 <=? i) && (i <=? i + 1) && (i + 1 <=? a0)) with true
    by guard_holds.
  replace ((0 <=? i) && (i <=? i + 1) && (i + 1 <=? b0)) with true
    by guard_holds.
  intros E. now injection E.
Qed.

(* ===================================================================== *)
(** * The claims of the specification *)
(* ===================================================================== *)

(** C1.  On a valid invocation, for every row [i] and every internal node
    [j], taken in increasing order, the kernel stores
    [output[i, 2j+1] = output[i, j] * left_prob] and
    [output[i, 2j+2] = output[i, j] * (1 - left_prob)], where [left_prob] is
    the Node Split Probability of row [i] at node [j]; equivalently, each
    node holds the product of the split probabilities along its path from
    the root.  The products are those of binary32; the trace gives the
    order of the calls and of the stores. *)
Theorem children_are_split_products `{TF : TensorForest}
    (self : KFeatureRoutingFunction)
    (input_data tree_parameters_tensor tree_biases_tensor : Tensor) :
  valid_invocation self input_data tree_parameters_tensor tree_biases_tensor
  = true ->
  exists out,
    Compute self input_data tree_parameters_tensor tree_biases_tensor
    = (Done out,
       expected_trace self input_data tree_parameters_tensor
         tree_biases_tensor)
    /\ (forall i j,
          0 <= i < num_data input_data -> 0 <= j < internal_nodes self ->
          exists prob,
            cell out i j = Some prob
            /\ cell out i (2 * j + 1)
               = Some (mul prob
                         (left_prob self input_data tree_parameters_tensor
                            tree_biases_tensor i j))
            /\ cell out i (2 * j + 2)
               = Some (mul prob
                         (sub one
                            (left_prob self input_data
                               tree_parameters_tensor tree_biases_tensor
                               i j))))
    /\ (forall i k,
          0 <= i < num_data input_data -> 0 <= k < max_nodes_ self ->
          cell out i k
          = Some (path_product
                    (left_prob self input_data tree_parameters_tensor
                       tree_biases_tensor i)
                    (Z.to_pos (k + 1)))).
Proof.
  intros Hvalid.
  destruct (Compute_correct self _ _ _ Hvalid) as (out & Hrun & _ & Hcell).
  destruct (valid_facts self _ _ _ Hvalid)
    as (_ & _ & _ & _ & _ & Hmn & Hodd & Hh & _).
  exists out. split; [exact Hrun|]. split.
  - intros i j Hi Hj.
    exists (routing_probability self input_data tree_parameters_tensor
              tree_biases_tensor i j).
    rewrite !Hcell by lia.
    rewrite routing_probability_left, routing_probability_right by lia.
    auto.
  - intros i k Hi Hk. now apply Hcell.
Qed.

Lemma children_are_split_products_witness :
  valid_invocation tree7 batch_a weights7 biases7 = true
  /\ exists out,
       Compute tree7 batch_a weights7 biases7
       = (Done out, expected_trace tree7 batch_a weights7 biases7)
       /\ (forall i j,
             0 <= i < num_data batch_a -> 0 <= j < internal_nodes tree7 ->
             exists prob,
               cell out i j = Some prob
               /\ cell out i (2 * j + 1)
                  = Some (mul prob
                            (left_prob tree7 batch_a weights7 biases7 i j))
               /\ cell out i (2 * j + 2)
                  = Some (mul prob
                            (sub one
                               (left_prob tree7 batch_a weights7 biases7
                                  i j))))
       /\ (forall i k,
             0 <= i < num_data batch_a -> 0 <= k < max_nodes_ tree7 ->
             cell out i k
             = Some (path_product
                       (left_prob tree7 batch_a weights7 biases7 i)
                       (Z.to_pos (k + 1)))).
Proof.
  split; [reflexivity|].
  apply (children_are_split_products tree7 batch_a weights7 biases7).
  reflexivity.
Defined.

(** C2 as stated fails: in the tree of capacity seven whose first two
    nodes split with probability [0.1f], the children of node 1 do not add
    up to node 1, neither with the addition of binary32 nor as rational
    numbers. *)
Lemma mass_not_conserved_exactly :
  valid_invocation tree7 batch_a weights7 biases7 = true
  /\ is_prob (left_prob tree7 batch_a weights7 biases7 0 0) = true
  /\ is_prob (left_prob tree7 batch_a weights7 biases7 0 1) = true
  /\ exists out prob left right,
       fst (Compute tree7 batch_a weights7 biases7) = Done out
       /\ cell out 0 1 = Some prob
       /\ cell out 0 3 = Some left
       /\ cell out 0 4 = Some right
       /\ eqb (add left right) prob = false
       /\ Qeq_bool (F2Q left + F2Q right) (F2Q prob) = false.
Proof.
  split; [reflexivity|]. split; [reflexivity|]. split; [reflexivity|].
  do 4 eexists.
  split; [vm_compute; reflexivity|].
  repeat split; vm_compute; reflexivity.
Qed.

(** C2, amended.  On a valid invocation whose split probabilities are
    probabilities, for every row and every internal node [j] the values of
    the two children add up to the value of [j] up to the rounding of
    binary32: the sum taken exactly is within [3 * 2^-25] of [prob[j]], and
    the sum taken with the addition of binary32 within [5 * 2^-25].  The
    children of every internal node are within capacity. *)
Theorem mass_conserved_up_to_rounding `{TF : TensorForest}
    (self : KFeatureRoutingFunction)
    (input_data tree_parameters_tensor tree_biases_tensor : Tensor) :
  valid_invocation self input_data tree_parameters_tensor tree_biases_tensor
  = true ->
  (forall i j,
     0 <= i < num_data input_data -> 0 <= j < internal_nodes self ->
     is_prob (left_prob self input_data tree_parameters_tensor
                tree_biases_tensor i j) = true) ->
  exists out,
    fst (Compute self input_data tree_parameters_tensor tree_biases_tensor)
    = Done out
    /\ forall i j,
         0 <= i < num_data input_data -> 0 <= j < internal_nodes self ->
         2 * j + 2 < max_nodes_ self
         /\ exists prob left right,
              cell out i j = Some prob
              /\ cell out i (2 * j + 1) = Some left
              /\ cell out i (2 * j + 2) = Some right
              /\ (Qabs (F2Q left + F2Q right - F2Q prob) <= 3 # 2 ^ 25)%Q
              /\ (Qabs (F2Q (add left right) - F2Q prob)
                  <= 5 # 2 ^ 25)%Q.
Proof.
  intros Hvalid Hlp.
  destruct (Compute_correct self _ _ _ Hvalid) as (out & Hrun & _ & Hcell).
  destruct (valid_facts self _ _ _ Hvalid)
    as (_ & _ & _ & _ & _ & Hmn & Hodd & Hh & _).
  exists out. rewrite Hrun. split; [reflexivity|].
  intros i j Hi Hj. split; [lia|].
  do 3 eexists.
  split; [apply Hcell; lia|]. split; [apply Hcell; lia|].
  split; [apply Hcell; lia|].
  rewrite routing_probability_left, routing_probability_right by lia.
  assert (Hp : prob_shape
                 (routing_probability self input_data
                    tree_parameters_tensor tree_biases_tensor i j)).
  { unfold routing_probability.
    apply (path_product_prob _ (internal_nodes self)).
    - intros j' Hj'. apply is_prob_shape, Hlp; assumption.
    - rewrite Z2Pos.id by lia. lia. }
  assert (Hl : prob_shape
                 (left_prob self input_data tree_parameters_tensor
                    tree_biases_tensor i j))
    by (apply is_prob_shape, Hlp; assumption).
  split; [now apply split_conserves_mass
         |now apply split_conserves_mass_float].
Qed.

Lemma mass_conserved_up_to_rounding_witness :
  valid_invocation tree7 batch_a weights7 biases7 = true
  /\ (forall i j,
        0 <= i < num_data batch_a -> 0 <= j < internal_nodes tree7 ->
        is_prob (left_prob tree7 batch_a weights7 biases7 i j) = true)
  /\ exists out,
       fst (Compute tree7 batch_a weights7 biases7) = Done out
       /\ forall i j,
            0 <= i < num_data batch_a -> 0 <= j < internal_nodes tree7 ->
            2 * j + 2 < max_nodes_ tree7
            /\ exists prob left right,
                 cell out i j = Some prob
                 /\ cell out i (2 * j + 1) = Some left
                 /\ cell out i (2 * j + 2) = Some right
                 /\ (Qabs (F2Q left + F2Q right - F2Q prob)
                     <= 3 # 2 ^ 25)%Q
                 /\ (Qabs (F2Q (add left right) - F2Q prob)
                     <= 5 # 2 ^ 25)%Q.
Proof.
  assert (Hlp : forall i j,
            0 <= i < num_data batch_a -> 0 <= j < internal_nodes tree7 ->
            is_prob (left_prob tree7 batch_a weights7 biases7 i j) = true).
  { intros i j _ Hj. change (internal_nodes tree7) with 3 in Hj.
    assert (j = 0 \/ j = 1 \/ j = 2) as [-> | [-> | ->]] by lia;
      reflexivity. }
  split; [reflexivity|]. split; [exact Hlp|].
  apply (mass_conserved_up_to_rounding tree7 batch_a weights7 biases7);
    [reflexivity|exact Hlp].
Defined.

(** C3.  For every valid configuration and every row [i] of a non-empty
    batch, the output at node 0 is exactly [1.0] when the call returns. *)
Theorem root_is_one `{TF : TensorForest} (self : KFeatureRoutingFunction)
    (input_data tree_parameters_tensor tree_biases_tensor : Tensor)
    (i : Z) :
  valid_invocation self input_data tree_parameters_tensor tree_biases_tensor
  = true ->
  0 <= i < num_data input_data ->
  exists out,
    fst (Compute self input_data tree_parameters_tensor tree_biases_tensor)
    = Done out
    /\ cell out i 0 = Some one.
Proof.
  intros Hvalid Hi.
  destruct (Compute_correct self _ _ _ Hvalid) as (out & Hrun & _ & Hcell).
  destruct (valid_facts self _ _ _ Hvalid) as (_ & _ & _ & _ & _ & Hmn & _).
  exists out. rewrite Hrun. split; [reflexivity|].
  rewrite Hcell by lia. reflexivity.
Qed.

Lemma root_is_one_witness :
  valid_invocation tree7 batch_a weights7 biases7 = true
  /\ 0 <= 1 < num_data batch_a
  /\ exists out,
       fst (Compute tree7 batch_a weights7 biases7) = Done out
       /\ cell out 1 0 = Some one.
Proof.
  split; [reflexivity|]. split; [cbv; split; [discriminate|reflexivity]|].
  apply (root_is_one tree7 batch_a weights7 biases7 1); [reflexivity|].
  cbv; split; [discriminate|reflexivity].
Defined.

(** C4.  On a valid invocation the Feature Subset Selector is called, for
    every row [i], once per internal node and each time with the arguments
    [(layer_num, i, random_seed, num_features, num_features_per_node)]:
    it is seeded by the row index, never by the node index, and the
    feature subset handed to the Node Split Probability is the same at
    every node of the row. *)
Theorem selector_seeded_by_row `{TF : TensorForest}
    (self : KFeatureRoutingFunction)
    (input_data tree_parameters_tensor tree_biases_tensor : Tensor) :
  valid_invocation self input_data tree_parameters_tensor tree_biases_tensor
  = true ->
  selector_calls
    (snd (Compute self input_data tree_parameters_tensor
            tree_biases_tensor))
  = flat_map (fun i => replicate (Z.to_nat (internal_nodes self))
                         (layer_num_ self, i, random_seed_ self,
                          num_features input_data,
                          num_features_per_node_ self))
      (seqZ 0 (num_data input_data))
  /\ subsets_used
       (snd (Compute self input_data tree_parameters_tensor
               tree_biases_tensor))
     = flat_map (fun i => replicate (Z.to_nat (internal_nodes self))
                            (GetFeatureSet (layer_num_ self) i
                               (random_seed_ self)
                               (num_features input_data)
                               (num_features_per_node_ self) []))
         (seqZ 0 (num_data input_data)).
Proof.
  intros Hvalid.
  destruct (Compute_correct self _ _ _ Hvalid) as (out & Hrun & _).
  rewrite Hrun. cbn [snd].
  split; [apply selector_calls_expected | apply subsets_used_expected].
Qed.

Lemma selector_seeded_by_row_witness :
  valid_invocation tree7 batch_a weights7 biases7 = true
  /\ selector_calls (snd (Compute tree7 batch_a weights7 biases7))
     = [(0, 0, 42, 2, 2); (0, 0, 42, 2, 2); (0, 0, 42, 2, 2);
        (0, 1, 42, 2, 2); (0, 1, 42, 2, 2); (0, 1, 42, 2, 2)]
  /\ subsets_used (snd (Compute tree7 batch_a weights7 biases7))
     = [[0]; [0]; [0]; [1]; [1]; [1]].
Proof.
  split; [reflexivity|].
  exact (selector_seeded_by_row tree7 batch_a weights7 biases7 eq_refl).
Defined.

(** C5.  When [max_nodes] is the capacity of a complete binary tree
    (positive and odd), every index the kernel stores to (index 0 and the
    pairs [2j+1], [2j+2] for the internal nodes [j]) lies within
    [[0, max_nodes)], and together the stores initialise every one of the
    [max_nodes] columns of every row. *)
Theorem writes_in_range_and_complete `{TF : TensorForest}
    (self : KFeatureRoutingFunction)
    (input_data tree_parameters_tensor tree_biases_tensor : Tensor) :
  valid_invocation self input_data tree_parameters_tensor tree_biases_tensor
  = true ->
  Forall (fun ik => 0 <= fst ik < num_data input_data
                    /\ 0 <= snd ik < max_nodes_ self)
    (stores (snd (Compute self input_data tree_parameters_tensor
                    tree_biases_tensor)))
  /\ stores (snd (Compute self input_data tree_parameters_tensor
                    tree_biases_tensor))
     = flat_map (fun i => (i, 0) :: flat_map (fun j => [(i, 2 * j + 1);
                                                       (i, 2 * j + 2)])
                                      (seqZ 0 (internal_nodes self)))
         (seqZ 0 (num_data input_data))
  /\ exists out,
       fst (Compute self input_data tree_parameters_tensor
              tree_biases_tensor) = Done out
       /\ forall i k,
            0 <= i < num_data input_data -> 0 <= k < max_nodes_ self ->
            In (i, k)
              (stores (snd (Compute self input_data tree_parameters_tensor
                              tree_biases_tensor)))
            /\ is_Some (cell out i k).
Proof.
  intros Hvalid.
  destruct (Compute_correct self _ _ _ Hvalid) as (out & Hrun & _ & Hcell).
  destruct (valid_facts self _ _ _ Hvalid)
    as (_ & _ & Hnd & _ & _ & Hmn & Hodd & Hh & _).
  rewrite Hrun. cbn [fst snd]. rewrite stores_expected.
  split; [|split; [reflexivity|]].
  - apply Forall_flat_map, Forall_forall. intros i Hi.
    apply elem_of_seqZ in Hi.
    constructor; [cbn; lia|].
    apply Forall_flat_map, Forall_forall. intros j Hj.
    apply elem_of_seqZ in Hj.
    repeat constructor; cbn; lia.
  - exists out. split; [reflexivity|]. intros i k Hi Hk. split.
    + apply in_flat_map. exists i. split.
      { rewrite <- list_elem_of_In, elem_of_seqZ. lia. }
      destruct (Z.eq_dec k 0) as [->|Hk0]; [now left|]. right.
      pose proof (Z.div_mod (k - 1) 2 ltac:(lia)) as Hdm.
      pose proof (Z.mod_pos_bound (k - 1) 2 ltac:(lia)) as Hmod.
      apply in_flat_map. exists ((k - 1) / 2). split.
      { rewrite <- list_elem_of_In, elem_of_seqZ. lia. }
      destruct (Z.eq_dec ((k - 1) mod 2) 0).
      * left. f_equal. lia.
      * right. left. f_equal. lia.
    + rewrite Hcell by lia. eauto.
Qed.

Lemma writes_in_range_and_complete_witness :
  valid_invocation tree7 batch_a weights7 biases7 = true
  /\ stores (snd (Compute tree7 batch_a weights7 biases7))
     = [(0, 0); (0, 1); (0, 2); (0, 3); (0, 4); (0, 5); (0, 6);
        (1, 0); (1, 1); (1, 2); (1, 3); (1, 4); (1, 5); (1, 6)].
Proof.
  split; [reflexivity|].
  exact (proj1 (proj2 (writes_in_range_and_complete tree7 batch_a weights7
                         biases7 eq_refl))).
Defined.

(** C6.  On a valid invocation, when the Node Split Probability of every
    row at every internal node is a probability (a valid float between
    [0.0f] and [1.0f]), every output satisfies [0 <= output[i, k] <= 1]:
    by the comparisons of binary32 and as a rational number. *)
Theorem outputs_are_probabilities `{TF : TensorForest}
    (self : KFeatureRoutingFunction)
    (input_data tree_parameters_tensor tree_biases_tensor : Tensor) :
  valid_invocation self input_data tree_parameters_tensor tree_biases_tensor
  = true ->
  (forall i j,
     0 <= i < num_data input_data -> 0 <= j < internal_nodes self ->
     is_prob (left_prob self input_data tree_parameters_tensor
                tree_biases_tensor i j) = true) ->
  exists out,
    fst (Compute self input_data tree_parameters_tensor tree_biases_tensor)
    = Done out
    /\ forall i k,
         0 <= i < num_data input_data -> 0 <= k < max_nodes_ self ->
         exists v,
           cell out i k = Some v
           /\ leb zero v = true /\ leb v one = true
           /\ (0 <= F2Q v <= 1)%Q.
Proof.
  intros Hvalid Hlp.
  destruct (Compute_correct self _ _ _ Hvalid) as (out & Hrun & _ & Hcell).
  destruct (valid_facts self _ _ _ Hvalid)
    as (_ & _ & _ & _ & _ & Hmn & Hodd & Hh & _).
  exists out. rewrite Hrun. split; [reflexivity|].
  intros i k Hi Hk. eexists. split; [now apply Hcell|].
  assert (Hshape : prob_shape
                     (routing_probability self input_data
                        tree_parameters_tensor tree_biases_tensor i k)).
  { unfold routing_probability.
    apply (path_product_prob _ (internal_nodes self)).
    - intros j Hj. apply is_prob_shape, Hlp; assumption.
    - rewrite Z2Pos.id by lia. lia. }
  destruct (is_prob_bounds _ (proj2 (is_prob_shape _) Hshape)) as [H0 H1].
  split; [exact H0|]. split; [exact H1|]. now apply prob_shape_F2Q.
Qed.

Lemma outputs_are_probabilities_witness :
  valid_invocation tree7 batch_a weights7 biases7 = true
  /\ (forall i j,
        0 <= i < num_data batch_a -> 0 <= j < internal_nodes tree7 ->
        is_prob (left_prob tree7 batch_a weights7 biases7 i j) = true)
  /\ exists out,
       fst (Compute tree7 batch_a weights7 biases7) = Done out
       /\ forall i k,
            0 <= i < num_data batch_a -> 0 <= k < max_nodes_ tree7 ->
            exists v,
              cell out i k = Some v
              /\ leb zero v = true /\ leb v one = true
              /\ (0 <= F2Q v <= 1)%Q.
Proof.
  assert (Hlp : forall i j,
            0 <= i < num_data batch_a -> 0 <= j < internal_nodes tree7 ->
            is_prob (left_prob tree7 batch_a weights7 biases7 i j) = true).
  { intros i j _ Hj. change (internal_nodes tree7) with 3 in Hj.
    assert (j = 0 \/ j = 1 \/ j = 2) as [-> | [-> | ->]] by lia;
      reflexivity. }
  split; [reflexivity|]. split; [exact Hlp|].
  apply (outputs_are_probabilities tree7 batch_a weights7 biases7);
    [reflexivity|exact Hlp].
Defined.

(** C7.  For every input batch with rows whose shape is not
    two-dimensional, the kernel reports the InvalidArgument error "input_data
    should be two-dimensional" and returns before the output is allocated:
    no event has happened and no output is produced. *)
Theorem rank_check_rejects `{TF : TensorForest}
    (self : KFeatureRoutingFunction)
    (input_data tree_parameters_tensor tree_biases_tensor : Tensor) :
  0 < dim_size input_data 0 -> dims input_data <> 2 ->
  Compute self input_data tree_parameters_tensor tree_biases_tensor
  = (Failed rank_error, [])
  /\ allocations
       (snd (Compute self input_data tree_parameters_tensor
               tree_biases_tensor)) = [].
Proof.
  intros Hrows Hrank. unfold Compute.
  destruct (Z.ltb_spec 0 (dim_size input_data 0)); [|lia].
  destruct (Z.eqb_spec (dims input_data) 2); [contradiction|].
  cbn. split; reflexivity.
Qed.

Lemma rank_check_rejects_witness :
  0 < dim_size batch_rank3 0 /\ dims batch_rank3 <> 2
  /\ Compute tree7 batch_rank3 weights7 biases7 = (Failed rank_error, [])
  /\ allocations (snd (Compute tree7 batch_rank3 weights7 biases7)) = [].
Proof.
  split; [reflexivity|]. split; [discriminate|].
  apply (rank_check_rejects tree7 batch_rank3 weights7 biases7);
    [reflexivity|discriminate].
Defined.

(** C8.  For an empty batch (no rows) the kernel succeeds: it reports no
    error and returns a well-formed output of shape [0 x max_nodes].  The
    bounds check of the input is taken to pass, the capacity not to be
    negative and the biases to be a vector, as the specification has the
    caller guarantee. *)
Theorem empty_batch_succeeds `{TF : TensorForest}
    (self : KFeatureRoutingFunction)
    (input_data tree_parameters_tensor tree_biases_tensor : Tensor) :
  empty_batch input_data = true ->
  CheckTensorBounds input_data = true ->
  0 <= max_nodes_ self -> dims tree_biases_tensor = 1 ->
  num_data input_data = 0
  /\ Compute self input_data tree_parameters_tensor tree_biases_tensor
     = (Done {| buf_shape := [0; max_nodes_ self]; cells := [] |},
        [CallCheckTensorBounds input_data;
         CallAllocateOutput [0; max_nodes_ self]]).
Proof.
  intros Hempty Hchk Hmn Hb.
  apply andb_true_iff in Hempty. destruct Hempty as [_ Hrows].
  apply Z.eqb_eq in Hrows. unfold num_data, Compute.
  rewrite Hrows, Hchk. cbn [Z.ltb Z.compare andb negb].
  change (to_int32 0) with 0. split; [reflexivity|].
  unfold tensor1, allocate_output. rewrite Hb. cbn [Z.eqb Pos.eqb forallb].
  destruct (Z.leb_spec 0 (max_nodes_ self)); [|lia].
  cbn. reflexivity.
Qed.

Lemma empty_batch_succeeds_witness :
  empty_batch batch_rank3_empty = true
  /\ CheckTensorBounds batch_rank3_empty = true
  /\ 0 <= max_nodes_ tree7 /\ dims biases7 = 1
  /\ num_data batch_rank3_empty = 0
  /\ Compute tree7 batch_rank3_empty weights7 biases7
     = (Done {| buf_shape := [0; 7]; cells := [] |},
        [CallCheckTensorBounds batch_rank3_empty;
         CallAllocateOutput [0; 7]]).
Proof.
  split; [reflexivity|]. split; [reflexivity|]. split; [discriminate|].
  split; [reflexivity|].
  apply (empty_batch_succeeds tree7 batch_rank3_empty weights7 biases7);
    [reflexivity|reflexivity|discriminate|reflexivity].
Defined.

(** C9.  Two valid invocations with the same tree parameters, biases and
    configuration whose input batches agree on row [i] produce the same
    row [i] of the output, whatever the other rows are and however many
    there are. *)
Theorem rows_do_not_interfere `{TF : TensorForest}
    (self : KFeatureRoutingFunction)
    (input_a input_b tree_parameters_tensor tree_biases_tensor : Tensor)
    (i : Z) :
  valid_invocation self input_a tree_parameters_tensor tree_biases_tensor
  = true ->
  valid_invocation self input_b tree_parameters_tensor tree_biases_tensor
  = true ->
  0 <= i < num_data input_a -> 0 <= i < num_data input_b ->
  Slice input_a i (i + 1) = Slice input_b i (i + 1) ->
  exists out_a out_b,
    fst (Compute self input_a tree_parameters_tensor tree_biases_tensor)
    = Done out_a
    /\ fst (Compute self input_b tree_parameters_tensor tree_biases_tensor)
       = Done out_b
    /\ forall k, cell out_a i k = cell out_b i k.
Proof.
  intros Ha Hb Hia Hib Hrow.
  destruct (Compute_correct self _ _ _ Ha) as (oa & Hra & Hsa & Hca).
  destruct (Compute_correct self _ _ _ Hb) as (ob & Hrb & Hsb & Hcb).
  destruct (valid_facts self _ _ _ Ha)
    as (Hda & Hna & _ & Hfa & _ & Hmn & _).
  destruct (valid_facts self _ _ _ Hb) as (Hdb & Hnb & _ & Hfb & _).
  exists oa, ob. rewrite Hra, Hrb. split; [reflexivity|].
  split; [reflexivity|]. intros k.
  destruct (Z_le_gt_dec 0 k) as [Hk0|Hk0];
    [destruct (Z_lt_le_dec k (max_nodes_ self)) as [Hk1|Hk1]|].
  - rewrite Hca, Hcb by lia. f_equal.
    unfold routing_probability. apply path_product_ext. intros j.
    assert (Hnf : num_features input_a = num_features input_b).
    { rewrite Hfa, Hfb. apply (Slice_num_features _ _ i); congruence. }
    unfold left_prob, feature_subset, row_of. now rewrite Hnf, Hrow.
  - unfold cell, columns. rewrite Hsa, Hsb. cbn [nth].
    replace (k <? max_nodes_ self) with false
      by (symmetry; apply Z.ltb_ge; lia).
    now rewrite !andb_false_r.
  - unfold cell. replace (0 <=? k) with false
      by (symmetry; apply Z.leb_gt; lia).
    now rewrite !andb_false_r.
Qed.

Lemma rows_do_not_interfere_witness :
  valid_invocation tree7 batch_a weights7 biases7 = true
  /\ valid_invocation tree7 batch_b weights7 biases7 = true
  /\ 0 <= 0 < num_data batch_a /\ 0 <= 0 < num_data batch_b
  /\ Slice batch_a 0 (0 + 1) = Slice batch_b 0 (0 + 1)
  /\ exists out_a out_b,
       fst (Compute tree7 batch_a weights7 biases7) = Done out_a
       /\ fst (Compute tree7 batch_b weights7 biases7) = Done out_b
       /\ forall k, cell out_a 0 k = cell out_b 0 k.
Proof.
  assert (Hr : forall n, 0 < n -> 0 <= 0 < n) by (intros; lia).
  split; [reflexivity|]. split; [reflexivity|].
  split; [apply Hr; reflexivity|]. split; [apply Hr; reflexivity|].
  split; [reflexivity|].
  apply (rows_do_not_interfere tree7 batch_a batch_b weights7 biases7 0);
    [reflexivity|reflexivity|apply Hr; reflexivity|apply Hr; reflexivity
    |reflexivity].
Defined.

(** C10.  For an input batch whose first dimension is 0 the check of the
    rank is skipped: such an input is never rejected by the precondition,
    whatever its rank, and the error "input_data should be two-dimensional"
    is only reported for a batch that has rows. *)
Theorem rank_error_needs_rows `{TF : TensorForest}
    (self : KFeatureRoutingFunction)
    (input_data tree_parameters_tensor tree_biases_tensor : Tensor) :
  (empty_batch input_data = true ->
   forall s,
     fst (Compute self input_data tree_parameters_tensor tree_biases_tensor)
     <> Failed s)
  /\ (forall s,
        fst (Compute self input_data tree_parameters_tensor
               tree_biases_tensor) = Failed s ->
        s = rank_error /\ 0 < dim_size input_data 0
        /\ dims input_data <> 2).
Proof.
  assert (Hgen : forall s,
            fst (Compute self input_data tree_parameters_tensor
                   tree_biases_tensor) = Failed s ->
            s = rank_error /\ 0 < dim_size input_data 0
            /\ dims input_data <> 2).
  { intros s. unfold Compute.
    destruct (Z.ltb_spec 0 (dim_size input_data 0)) as [Hpos|Hzero];
      destruct (Z.eqb_spec (dims input_data) 2) as [Htwo|Hnot];
      cbn [andb negb fst];
      try (intros E; injection E as <-; repeat split; assumption);
      destruct (CheckTensorBounds input_data); cbn [negb fst];
      try discriminate;
      destruct (allocate_output _); cbn [fst]; try discriminate;
      destruct (tensor1 _); cbn [fst]; try discriminate;
      destruct (for_loop _ _ _ _) as [[[] ?]|]; cbn [fst]; discriminate. }
  split; [|exact Hgen].
  intros Hempty s Hs. apply Hgen in Hs.
  apply andb_true_iff in Hempty. destruct Hempty as [_ Hrows].
  apply Z.eqb_eq in Hrows. lia.
Qed.

Lemma rank_error_needs_rows_witness :
  empty_batch batch_rank3_empty = true
  /\ dims batch_rank3_empty <> 2
  /\ forall s,
       fst (Compute tree7 batch_rank3_empty weights7 biases7) <> Failed s.
Proof.
  split; [reflexivity|]. split; [discriminate|].
  apply (rank_error_needs_rows tree7 batch_rank3_empty weights7 biases7).
  reflexivity.
Defined.

(* ===================================================================== *)
(** * Runs that end *)
(* ===================================================================== *)

(** The rule of the counted loop for a run that is known to end: the
    invariant holds at the end, and every turn was taken from a state
    that satisfied it. *)
Lemma for_loop_runs (Inv : Z -> Frame -> Prop) (body : Z -> M unit) :
  forall (n : nat) (lo : Z) (st st' : Frame),
    Inv lo st ->
    (forall i s s', lo <= i < lo + Z.of_nat n -> Inv i s ->
       body i s = Some (tt, s') -> Inv (i + 1) s') ->
    for_loop n lo body st = Some (tt, st') ->
    Inv (lo + Z.of_nat n) st'
    /\ forall i, lo <= i < lo + Z.of_nat n ->
         exists s s', Inv i s /\ body i s = Some (tt, s').
Proof.
  induction n as [|n IH]; intros lo st st' Hinv Hbody Hrun.
  - cbn in Hrun. injection Hrun as <-.
    split; [now replace (lo + Z.of_nat 0) with lo by lia|]. intros i Hi. lia.
  - cbn [for_loop] in Hrun. unfold bind in Hrun.
    destruct (body lo st) as [[[] s1]|] eqn:Hs1; [|discriminate].
    pose proof (Hbody lo st s1 ltac:(lia) Hinv Hs1) as Hinv1.
    destruct (IH (lo + 1) s1 st' Hinv1) as [Hend Hturns].
    + intros i s s' Hi. apply Hbody. lia.
    + exact Hrun.
    + split.
      * now replace (lo + Z.of_nat (S n)) with (lo + 1 + Z.of_nat n) by lia.
      * intros i Hi. destruct (Z.eq_dec i lo) as [->|Hne].
        -- now exists st, s1.
        -- apply Hturns. lia.
Qed.

Section Runs.
Context `{TF : TensorForest}.
Variable self : KFeatureRoutingFunction.

Local Abbreviation mn := (max_nodes_ self).

(** What a turn of the loop over [j] that ends has done. *)
Lemma node_step_Some (tree_parameters_tensor : Tensor)
    (tree_biases : list float32) (nf : Z) (point : Tensor) (i j : Z)
    (st st' : Frame) :
  node_step self tree_parameters_tensor tree_biases nf point i j st
  = Some (tt, st') ->
  exists prob weight bias,
    let fs := GetFeatureSet (layer_num_ self) i (random_seed_ self) nf
                (num_features_per_node_ self) [] in
    let lp := LeftProbabilityK point fs weight bias nf
                (num_features_per_node_ self) in
    out_probs st !! Z.to_nat (offset mn i j) = Some (Some prob)
    /\ Slice tree_parameters_tensor j (j + 1) = Some weight
    /\ tree_biases !! Z.to_nat j = Some bias
    /\ 0 <= offset mn i (2 * j + 1) < Z.of_nat (length (out_probs st))
    /\ 0 <= offset mn i (2 * j + 1 + 1) < Z.of_nat (length (out_probs st))
    /\ out_probs st'
       = <[Z.to_nat (offset mn i (2 * j + 1 + 1))
           := Some (mul prob (sub one lp))]>
           (<[Z.to_nat (offset mn i (2 * j + 1)) := Some (mul prob lp)]>
              (out_probs st))
    /\ trace st'
       = trace st
         ++ [CallGetFeatureSet (layer_num_ self) i (random_seed_ self) nf
               (num_features_per_node_ self);
             CallLeftProbabilityK point fs weight bias nf
               (num_features_per_node_ self);
             Store i (2 * j + 1) (mul prob lp);
             Store i (2 * j + 1 + 1) (mul prob (sub one lp))].
Proof.
  unfold node_step, bind, clear_feature_set, call_GetFeatureSet, read_out,
    call_LeftProbabilityK, write_out, checked, ret, abort;
    cbn [out_probs feature_set trace].
  destruct (0 <=? offset mn i j); [|discriminate].
  destruct (out_probs st !! Z.to_nat (offset mn i j)) as [[prob|]|];
    [|discriminate|discriminate].
  destruct (Slice tree_parameters_tensor j (j + 1)) as [weight|];
    [|discriminate].
  destruct (tree_biases !! Z.to_nat j) as [bias|]; [|discriminate].
  cbn [out_probs feature_set trace].
  destruct ((0 <=? offset mn i (2 * j + 1))
            && (offset mn i (2 * j + 1)
                <? Z.of_nat (length (out_probs st)))) eqn:Hl;
    [|discriminate].
  cbn [out_probs feature_set trace]. rewrite length_insert.
  destruct ((0 <=? offset mn i (2 * j + 1 + 1))
            && (offset mn i (2 * j + 1 + 1)
                <? Z.of_nat (length (out_probs st)))) eqn:Hr;
    [|discriminate].
  intros E. injection E as <-. cbn [out_probs feature_set trace].
  apply andb_true_iff in Hl, Hr. rewrite Z.leb_le, Z.ltb_lt in Hl, Hr.
  exists prob, weight, bias. cbv zeta.
  repeat (split; [first [reflexivity | lia]|]).
  repeat (cbn [app]; rewrite <- ?app_assoc). reflexivity.
Qed.

(** What a turn of the loop over [i] that ends has done before it entered
    the loop over [j]. *)
Lemma row_step_Some (input_data tree_parameters_tensor : Tensor)
    (tree_biases : list float32) (nf : Z) (i : Z) (st st' : Frame) :
  row_step self input_data tree_parameters_tensor tree_biases nf i st
  = Some (tt, st') ->
  exists point,
    Slice input_data i (i + 1) = Some point
    /\ 0 <= offset mn i 0 < Z.of_nat (length (out_probs st))
    /\ for_loop (Z.to_nat (Z.quot mn 2)) 0
         (node_step self tree_parameters_tensor tree_biases nf point i)
         {| out_probs := <[Z.to_nat (offset mn i 0) := Some one]>
                           (out_probs st);
            feature_set := feature_set st;
            trace := trace st ++ [Store i 0 one] |}
       = Some (tt, st').
Proof.
  unfold row_step, bind at 1.
  destruct (Slice input_data i (i + 1)) as [point|]; [|discriminate].
  cbn [checked ret]. unfold bind at 1, write_out at 1.
  destruct ((0 <=? offset mn i 0)
            && (offset mn i 0 <? Z.of_nat (length (out_probs st)))) eqn:H0;
    [|discriminate].
  intros Hrun. apply andb_true_iff in H0. rewrite Z.leb_le, Z.ltb_lt in H0.
  exists point. split; [reflexivity|]. split; [lia|exact Hrun].
Qed.

(** The storage keeps its size. *)
Lemma node_step_length (tree_parameters_tensor : Tensor)
    (tree_biases : list float32) (nf : Z) (point : Tensor) (i j : Z)
    (st st' : Frame) :
  node_step self tree_parameters_tensor tree_biases nf point i j st
  = Some (tt, st') ->
  length (out_probs st') = length (out_probs st).
Proof.
  intros H. apply node_step_Some in H.
  destruct H as (prob & weight & bias & H). cbv zeta in H.
  destruct H as (_ & _ & _ & _ & _ & -> & _). now rewrite !length_insert.
Qed.

Lemma row_step_length (input_data tree_parameters_tensor : Tensor)
    (tree_biases : list float32) (nf : Z) (i : Z) (st st' : Frame) :
  row_step self input_data tree_parameters_tensor tree_biases nf i st
  = Some (tt, st') ->
  length (out_probs st') = length (out_probs st).
Proof.
  intros H. apply row_step_Some in H. destruct H as (point & _ & _ & Hrun).
  apply (for_loop_runs
           (fun _ s => length (out_probs s) = length (out_probs st)))
    in Hrun.
  - exact (proj1 Hrun).
  - cbn [out_probs]. now rewrite length_insert.
  - intros j s s' _ Hs Hstep. apply node_step_length in Hstep. congruence.
Qed.

(** What a run of the two loops that ends tells about the capacity, the
    batch, the biases and the weights. *)
Lemma loops_end_facts (input_data tree_parameters_tensor : Tensor)
    (tree_biases : list float32) (nf nd : Z) (st st' : Frame) :
  0 < nd -> Z.of_nat (length (out_probs st)) = nd * mn ->
  for_loop (Z.to_nat nd) 0
    (row_step self input_data tree_parameters_tensor tree_biases nf) st
  = Some (tt, st') ->
  0 < mn /\ Z.odd mn = true
  /\ (forall i, 0 <= i < nd -> is_Some (Slice input_data i (i + 1)))
  /\ (forall j, 0 <= j < Z.quot mn 2 ->
        is_Some (Slice tree_parameters_tensor j (j + 1))
        /\ is_Some (tree_biases !! Z.to_nat j)).
Proof.
  intros Hnd Hlen Hrun.
  apply (for_loop_runs
           (fun _ s => Z.of_nat (length (out_probs s)) = nd * mn))
    in Hrun; [|exact Hlen|].
  2:{ intros i s s' _ Hs Hstep. apply row_step_length in Hstep. congruence. }
  destruct Hrun as [_ Hturns]. rewrite Z.add_0_l, Z2Nat.id in Hturns by lia.
  (* the last row *)
  destruct (Hturns (nd - 1) ltac:(lia)) as (s & s' & Hs & Hstep).
  apply row_step_Some in Hstep.
  destruct Hstep as (point & _ & Hroot & Hnodes).
  assert (Hmn : 0 < mn).
  { unfold offset in Hroot. rewrite Hs in Hroot. nia. }
  apply (for_loop_runs
           (fun _ s1 => Z.of_nat (length (out_probs s1)) = nd * mn))
    in Hnodes.
  2:{ cbn [out_probs]. now rewrite length_insert. }
  2:{ intros j s1 s2 _ Hs1 Hstep. apply node_step_length in Hstep.
      congruence. }
  destruct Hnodes as [_ Hnodes].
  assert (Hq : 0 <= Z.quot mn 2) by (apply Z.quot_pos; lia).
  rewrite Z.add_0_l, Z2Nat.id in Hnodes by lia.
  pose proof (Z.quot_div_nonneg mn 2 ltac:(lia) ltac:(lia)) as Hquot.
  pose proof (Z.div_mod mn 2 ltac:(lia)) as Hdm.
  pose proof (Z.mod_pos_bound mn 2 ltac:(lia)) as Hmod.
  split; [exact Hmn|]. split; [|split].
  - rewrite Z.odd_spec.
    destruct (Z.eq_dec (mn mod 2) 1) as [Hodd|Heven];
      [exists (mn / 2); lia|exfalso].
    assert (Hh : mn = 2 * Z.quot mn 2) by lia.
    destruct (Hnodes (Z.quot mn 2 - 1) ltac:(lia)) as (s1 & s2 & Hs1 & Hn).
    apply node_step_Some in Hn. destruct Hn as (prob & weight & bias & Hn).
    cbv zeta in Hn. destruct Hn as (_ & _ & _ & _ & Hright & _).
    unfold offset in Hright. rewrite Hs1 in Hright. nia.
  - intros i Hi. destruct (Hturns i Hi) as (s1 & s2 & _ & Hstep).
    apply row_step_Some in Hstep. destruct Hstep as (p & -> & _). eauto.
  - intros j Hj. destruct (Hnodes j Hj) as (s1 & s2 & _ & Hn).
    apply node_step_Some in Hn. destruct Hn as (prob & weight & bias & Hn).
    cbv zeta in Hn. destruct Hn as (_ & -> & -> & _). eauto.
Qed.

End Runs.

(** An invocation that returns an output went through both checks, the
    allocation, the view of the biases and the two loops. *)
Lemma Compute_Done `{TF : TensorForest} (self : KFeatureRoutingFunction)
    (input_data tree_parameters_tensor tree_biases_tensor : Tensor)
    (out : Buffer) :
  fst (Compute self input_data tree_parameters_tensor tree_biases_tensor)
  = Done out ->
  (0 < dim_size input_data 0 -> dims input_data = 2)
  /\ CheckTensorBounds input_data = true
  /\ 0 <= num_data input_data /\ 0 <= max_nodes_ self
  /\ dims tree_biases_tensor = 1
  /\ buf_shape out = [num_data input_data; max_nodes_ self]
  /\ exists st',
       for_loop (Z.to_nat (num_data input_data)) 0
         (row_step self input_data tree_parameters_tensor
            (flat tree_biases_tensor) (num_features input_data))
         {| out_probs := replicate
                           (Z.to_nat (num_data input_data * max_nodes_ self))
                           None;
            feature_set := [];
            trace := [CallCheckTensorBounds input_data;
                      CallAllocateOutput
                        [num_data input_data; max_nodes_ self]] |}
       = Some (tt, st')
       /\ cells out = out_probs st'
       /\ snd (Compute self input_data tree_parameters_tensor
                 tree_biases_tensor) = trace st'.
Proof.
  unfold Compute. fold (num_data input_data). fold (num_features input_data).
  destruct ((0 <? dim_size input_data 0) && negb (dims input_data =? 2))
    eqn:Hrank; [discriminate|].
  destruct (CheckTensorBounds input_data); [|discriminate].
  cbn [negb]. unfold allocate_output. cbn [forallb fold_right].
  destruct ((0 <=? num_data input_data)
            && ((0 <=? max_nodes_ self) && true)) eqn:Hdims;
    [|discriminate].
  unfold tensor1.
  destruct (dims tree_biases_tensor =? 1) eqn:Hb; [|discriminate].
  cbn [cells buf_shape]. rewrite Z.mul_1_r.
  destruct (for_loop _ _ _ _) as [[[] st']|] eqn:Hrun; [|discriminate].
  cbn [fst snd]. intros E. injection E as <-. cbn [buf_shape cells].
  rewrite !andb_true_iff, !Z.leb_le in Hdims. apply Z.eqb_eq in Hb.
  split.
  { intros Hrows. apply andb_false_iff in Hrank.
    destruct Hrank as [Hrank|Hrank].
    - apply Z.ltb_ge in Hrank. lia.
    - apply negb_false_iff, Z.eqb_eq in Hrank. exact Hrank. }
  repeat (split; [first [reflexivity | lia]|]).
  exists st'. repeat split; reflexivity.
Qed.

(** The size of the storage [Compute] starts its loops with. *)
Lemma fresh_storage_length (nd mn : Z) :
  0 <= nd -> 0 <= mn ->
  Z.of_nat (length (replicate (Z.to_nat (nd * mn)) (@None float32)))
  = nd * mn.
Proof. intros Hnd Hmn. rewrite length_replicate. nia. Qed.

(** A cell that holds a value keeps holding one through a store. *)
Lemma initialised_insert (xs : list (option float32)) (n o : nat)
    (v : float32) :
  (exists w, xs !! o = Some (Some w)) ->
  exists w, <[n := Some v]> xs !! o = Some (Some w).
Proof.
  intros [w Hw]. destruct (Nat.eq_dec n o) as [->|Hne].
  - exists v. apply list_lookup_insert_eq. now apply lookup_lt_Some in Hw.
  - exists w. now rewrite list_lookup_insert_ne.
Qed.

Lemma initialised_stored (xs : list (option float32)) (n : nat)
    (v : float32) :
  (n < length xs)%nat -> exists w, <[n := Some v]> xs !! n = Some (Some w).
Proof. intros Hn. exists v. now apply list_lookup_insert_eq. Qed.



(** Cells outside the matrix hold nothing. *)
Lemma cell_outside (b : Buffer) (nd mn i k : Z) :
  buf_shape b = [nd; mn] ->
  ~ (0 <= i < nd /\ 0 <= k < mn) -> cell b i k = None.
Proof.
  intros Hs Hout. unfold cell, rows, columns. rewrite Hs. cbn [nth].
  destruct ((0 <=? i) && (i <? nd) && (0 <=? k) && (k <? mn)) eqn:Hg;
    [|reflexivity].
  rewrite !andb_true_iff, !Z.leb_le, !Z.ltb_lt in Hg. lia.
Qed.

(** Rows that are equal have the same number of features, wherever they
    sit in their batches. *)
Lemma Slice_row_features (a b : Tensor) (i i' : Z) :
  dims a = 2 -> dims b = 2 ->
  0 <= i < dim_size a 0 -> 0 <= i' < dim_size b 0 ->
  Slice a i (i + 1) = Slice b i' (i' + 1) ->
  dim_size a 1 = dim_size b 1.
Proof.
  unfold dims, dim_size, Slice. intros Ha Hb Hia Hib.
  destruct (shape a) as [|a0 [|a1 [|a2 ra]]]; cbn [length] in Ha; try lia.
  destruct (shape b) as [|b0 [|b1 [|b2 rb]]]; cbn [length] in Hb; try lia.
  cbn [nth] in *.
  replace ((0 <=? i) && (i <=? i + 1) && (i + 1 <=? a0)) with true
    by guard_holds.
  replace ((0 <=? i') && (i' <=? i' + 1) && (i' + 1 <=? b0)) with true
    by guard_holds.
  intros E. now injection E.
Qed.

(* ===================================================================== *)
(** * Nodes in order *)
(* ===================================================================== *)

(** The pairs of children of consecutive nodes are consecutive nodes. *)
Lemma children_of_range {A} (f : Z -> A) (a : Z) (n : nat) :
  flat_map (fun j => [f (2 * j + 1); f (2 * j + 2)]) (seqZ a (Z.of_nat n))
  = map f (seqZ (2 * a + 1) (2 * Z.of_nat n)).
Proof.
  induction n as [|n IH]; [reflexivity|].
  rewrite seqZ_S, flat_map_app, IH. cbn [flat_map app].
  replace (2 * Z.of_nat (S n)) with (2 * Z.of_nat n + 2) by lia.
  rewrite (seqZ_app (2 * a + 1) (2 * Z.of_nat n) 2) by lia.
  rewrite map_app. f_equal.
  rewrite (seqZ_cons _ 2), (seqZ_cons _ (Z.pred 2)) by lia.
  rewrite seqZ_nil by lia. cbn [map].
  f_equal; [f_equal; lia|]. f_equal. f_equal. lia.
Qed.

(** The rows of a matrix laid out one after the other. *)
Lemma rows_in_order (cols : Z) (n : nat) :
  0 <= cols ->
  flat_map (fun i => seqZ (i * cols) cols) (seqZ 0 (Z.of_nat n))
  = seqZ 0 (Z.of_nat n * cols).
Proof.
  intros Hc. induction n as [|n IH]; [reflexivity|].
  rewrite seqZ_S, flat_map_app, IH. cbn [flat_map]. rewrite app_nil_r.
  replace (Z.of_nat (S n) * cols) with (Z.of_nat n * cols + cols) by lia.
  rewrite seqZ_app by nia. now rewrite !Z.add_0_l.
Qed.

Lemma level_succ (d : Z) :
  0 <= d ->
  level (d + 1) = flat_map (fun j => [2 * j + 1; 2 * j + 2]) (level d).
Proof.
  intros Hd. unfold level. pose proof (pow2_pos d Hd) as Hp.
  replace (seqZ (2 ^ d - 1) (2 ^ d))
    with (seqZ (2 ^ d - 1) (Z.of_nat (Z.to_nat (2 ^ d))))
    by (now rewrite Z2Nat.id by lia).
  rewrite (children_of_range (fun k => k)), map_id, Z2Nat.id by lia.
  rewrite pow2_succ by lia. f_equal. lia.
Qed.

Lemma level_range (d k : Z) :
  0 <= d -> In k (level d) -> 2 ^ d - 1 <= k < 2 ^ (d + 1) - 1.
Proof.
  intros Hd Hk. unfold level in Hk.
  rewrite <- list_elem_of_In, elem_of_seqZ in Hk.
  rewrite pow2_succ by lia. lia.
Qed.

(** The product along a path looks at the split probabilities of the
    nodes on the path only. *)
Lemma path_product_local (lp lp' : Z -> float32) (n : positive) :
  (forall j, In j (ancestors n) -> lp j = lp' j) ->
  path_product lp n = path_product lp' n.
Proof.
  induction n as [p IH|p IH|]; cbn [path_product ancestors]; intros Heq;
    [| |reflexivity];
    (rewrite IH by (intros j Hj; apply Heq; now right));
    (rewrite (Heq (Zpos p - 1)) by now left);
    reflexivity.
Qed.

(* ===================================================================== *)
(** * More on rounding *)
(* ===================================================================== *)

(** The rounded product of two probabilities is not above the first. *)
Lemma mul_prob_le (x y : float32) :
  prob_shape x -> prob_shape y -> ulps (mul x y) <= ulps x.
Proof.
  intros Hx Hy. pose proof (prob_shape_ulps x Hx) as [Hx0 _].
  destruct x as [sx|sx| |[|] mx ex]; try contradiction;
    destruct y as [sy|sy| |[|] my ey]; try contradiction;
    try (unfold mul, SFmul; cbn [ulps cond_Zopp] in *; lia).
  destruct (prob_shape_finite _ _ Hx) as (Hex & Hdx & Hcx & Hmx).
  destruct (prob_shape_finite _ _ Hy) as (Hey & Hdy & Hcy & Hmy).
  pose proof (digits2_pos_bounds mx) as [Xlo Xhi].
  pose proof (digits2_pos_bounds my) as [Ylo Yhi].
  pose proof (digits2_pos_bounds (mx * my)) as [Plo Phi].
  set (dx := Zpos (digits2_pos mx)) in *.
  set (dy := Zpos (digits2_pos my)) in *.
  set (d := Zpos (digits2_pos (mx * my))) in *.
  rewrite Pos2Z.inj_mul in Plo, Phi.
  assert (Hdx1 : 1 <= dx) by (subst dx; lia).
  assert (Hdy1 : 1 <= dy) by (subst dy; lia).
  assert (Hd1 : 1 <= d) by (subst d; lia).
  assert (Hd : dx + dy - 1 <= d).
  { assert (dx - 1 + (dy - 1) < d); [|lia]. apply pow2_lt_inv.
    rewrite pow2_add by lia.
    pose proof (pow2_pos (dx - 1) ltac:(lia)).
    pose proof (pow2_pos (dy - 1) ltac:(lia)).
    assert (2 ^ (dx - 1) * 2 ^ (dy - 1) <= Zpos mx * Zpos my)
      by (apply Z.mul_le_mono_nonneg; lia).
    lia. }
  assert (Hprod : Zpos mx * Zpos my <= Zpos mx * 2 ^ (- ey))
    by (apply Z.mul_le_mono_nonneg_l; lia).
  assert (Hdu : d <= dx - ey).
  { assert (d - 1 < dx - ey); [|lia]. apply pow2_lt_inv.
    replace (dx - ey) with (dx + - ey) by lia. rewrite pow2_add by lia.
    pose proof (pow2_pos (- ey) ltac:(lia)).
    assert (Zpos mx * 2 ^ (- ey) < 2 ^ dx * 2 ^ (- ey))
      by (apply Z.mul_lt_mono_pos_r; lia).
    lia. }
  pose proof (binary_round_aux_small (mx * my) (ex + ey)) as Hround.
  cbv zeta in Hround. fold d in Hround. rewrite fexp_eq in Hround.
  destruct Hround as (m1 & Hm1 & _ & _ & Hmono & Hr); [lia|lia|].
  set (e1 := Z.max (d + (ex + ey) - 24) (-149)) in *.
  assert (He1 : -149 <= e1 <= ex) by (subst e1; lia).
  unfold mul, SFmul. cbn [xorb].
  rewrite (rounds_to_ulps _ _ _ (proj1 He1) Hr). cbn [ulps cond_Zopp].
  assert (HK : m1 <= Zpos mx * 2 ^ (ex - e1)).
  { apply Hmono. rewrite Pos2Z.inj_mul, <- Z.mul_assoc.
    rewrite <- (pow2_add (ex - e1) (e1 - (ex + ey))) by lia.
    replace (ex - e1 + (e1 - (ex + ey))) with (- ey) by lia. exact Hprod. }
  replace (ex + 149) with (ex - e1 + (e1 + 149)) by lia.
  rewrite (pow2_add (ex - e1) (e1 + 149)), Z.mul_assoc by lia.
  apply Z.mul_le_mono_nonneg_r; [|exact HK].
  pose proof (pow2_pos (e1 + 149) ltac:(lia)). lia.
Qed.

(** The comparison of binary32 on probabilities is that of their values. *)
Lemma leb_ulps (x y : float32) :
  prob_shape x -> prob_shape y -> ulps x <= ulps y -> leb x y = true.
Proof.
  intros Hx Hy Hle.
  destruct x as [sx|sx| |[|] mx ex]; try contradiction;
    destruct y as [sy|sy| |[|] my ey]; try contradiction.
  - reflexivity.
  - reflexivity.
  - exfalso. destruct (prob_shape_finite _ _ Hx) as (Hex & _).
    cbn [ulps cond_Zopp] in Hle.
    pose proof (pow2_pos (ex + 149) ltac:(lia)). nia.
  - destruct (prob_shape_finite _ _ Hx) as (Hex & Hdx & Hcx & Hmx).
    destruct (prob_shape_finite _ _ Hy) as (Hey & Hdy & Hcy & Hmy).
    pose proof (digits2_pos_bounds mx) as [Xlo Xhi].
    pose proof (digits2_pos_bounds my) as [Ylo Yhi].
    cbn [ulps cond_Zopp] in Hle.
    unfold leb, SFleb, SFcompare.
    destruct (Z.compare_spec ex ey) as [He|He|He].
    + subst ey.
      pose proof (pow2_pos (ex + 149) ltac:(lia)) as Hp.
      assert (Hm : Zpos mx <= Zpos my)
        by (apply (mul_pow2_le_inv _ _ (ex + 149)); lia).
      rewrite Pos.compare_cont_spec. cbn [Pos.switch_Eq].
      change (Zpos mx <= Zpos my) with (mx <= my)%positive in Hm.
      rewrite <- Pos.compare_le_iff in Hm.
      destruct (mx ?= my)%positive; [reflexivity|reflexivity|].
      now contradiction Hm.
    + reflexivity.
    + exfalso.
      assert (Hd24 : Zpos (digits2_pos mx) = 24) by lia.
      rewrite Hd24 in Xlo. change (2 ^ (24 - 1)) with (2 ^ 23) in Xlo.
      assert (Hy24 : Zpos my < 2 ^ 24).
      { assert (2 ^ Zpos (digits2_pos my) <= 2 ^ 24) by (apply pow2_le; lia).
        lia. }
      pose proof (pow2_pos (ey + 149) ltac:(lia)) as Hpy.
      pose proof (pow2_pos (ex + 149) ltac:(lia)) as Hpx.
      assert (H1 : Zpos my * 2 ^ (ey + 149) < 2 ^ 24 * 2 ^ (ey + 149))
        by (apply Z.mul_lt_mono_pos_r; lia).
      assert (H2 : 2 ^ 23 * 2 ^ (ex + 149) <= Zpos mx * 2 ^ (ex + 149))
        by (apply Z.mul_le_mono_nonneg_r; lia).
      rewrite <- (pow2_add 24 (ey + 149)) in H1 by lia.
      rewrite <- (pow2_add 23 (ex + 149)) in H2 by lia.
      assert (2 ^ (24 + (ey + 149)) <= 2 ^ (23 + (ex + 149)))
        by (apply pow2_le; lia).
      lia.
Qed.

(** The order of the values, as rational numbers. *)
Lemma ulps_le_F2Q (x y : float32) :
  prob_shape x -> prob_shape y -> ulps x <= ulps y -> (F2Q x <= F2Q y)%Q.
Proof.
  intros Hx Hy Hle. rewrite (F2Q_ulps x Hx), (F2Q_ulps y Hy).
  change (inject_Z (2 ^ 149)) with (inject_Z (Zpos (2 ^ 149))).
  rewrite <- !Qmake_Qdiv. unfold Qle; cbn [Qnum Qden].
  apply Z.mul_le_mono_nonneg_r; lia.
Qed.

(** Multiplying a probability by [1.0f] returns it unchanged. *)
Lemma mul_one_r (x : float32) : prob_shape x -> mul x one = x.
Proof.
  intros Hx. destruct x as [sx|sx| |[|] mx ex]; try contradiction.
  { unfold mul, one, SFmul. now rewrite xorb_false_r. }
  destruct (prob_shape_finite _ _ Hx) as (Hex & Hdx & Hcx & Hmx).
  pose proof (digits2_pos_bounds mx) as [Xlo Xhi].
  set (dx := Zpos (digits2_pos mx)) in *.
  assert (Hdx1 : 1 <= dx) by (subst dx; lia).
  assert (Hd : Zpos (digits2_pos (mx * 8388608)) = dx + 23).
  { apply digits2_pos_unique. rewrite Pos2Z.inj_mul.
    change (Zpos 8388608) with (2 ^ 23).
    replace (dx + 23 - 1) with (dx - 1 + 23) by lia.
    rewrite !pow2_add by lia.
    split; [apply Z.mul_le_mono_nonneg_r; lia
           |apply Z.mul_lt_mono_pos_r; lia]. }
  assert (Hdx2 : dx + ex <= 1).
  { assert (dx - 1 < - ex + 1); [|lia]. apply pow2_lt_inv.
    rewrite pow2_succ by lia. pose proof (pow2_pos (- ex) ltac:(lia)). lia. }
  pose proof (binary_round_aux_small (mx * 8388608) (ex + -23)) as Hround.
  cbv zeta in Hround. rewrite Hd, fexp_eq in Hround.
  replace (dx + 23 + (ex + -23) - 24) with (dx + ex - 24) in Hround by lia.
  rewrite Hcx in Hround.
  replace (ex - (ex + -23)) with 23 in Hround by lia.
  destruct Hround as (m1 & _ & _ & Hexact & _ & Hr); [lia|lia|].
  assert (Hm1 : m1 = Zpos mx).
  { rewrite Pos2Z.inj_mul in Hexact. change (Zpos 8388608) with (2 ^ 23) in *.
    specialize (Hexact ltac:(now exists (Zpos mx))).
    apply (Z.mul_cancel_r _ _ (2 ^ 23)); [|exact Hexact]. cbn. lia. }
  subst m1. unfold mul, one, SFmul. cbn [xorb].
  destruct Hr as [[H0 _]|(m' & e' & -> & Hb & He' & Hv)]; [lia|].
  unfold bounded, canonical_mantissa in Hb.
  apply andb_true_iff in Hb. destruct Hb as [Hc _].
  apply Z.eqb_eq in Hc. rewrite fexp_eq in Hc.
  pose proof (digits2_pos_bounds m') as [Mlo Mhi].
  assert (He : e' = ex).
  { destruct (Z.eq_dec e' ex) as [|Hne]; [assumption|exfalso].
    assert (Hd' : Zpos (digits2_pos m') = 24) by lia.
    rewrite Hd' in Mlo. change (2 ^ (24 - 1)) with (2 ^ 23) in Mlo.
    assert (2 ^ 1 <= 2 ^ (e' - ex)) by (apply pow2_le; lia).
    change (2 ^ 1) with 2 in *.
    assert (2 ^ dx <= 2 ^ 24) by (apply pow2_le; lia).
    change (2 ^ 24) with (2 * 2 ^ 23) in *. nia. }
  subst e'. rewrite Z.sub_diag in Hv. change (2 ^ 0) with 1 in Hv.
  f_equal. lia.
Qed.

(** Multiplying [1.0f] by a probability returns the probability. *)
Lemma mul_one_l (x : float32) : prob_shape x -> mul one x = x.
Proof.
  intros Hx. rewrite <- (mul_one_r x Hx) at 2.
  destruct x as [sx|sx| |sx mx ex]; try contradiction.
  - unfold mul, one, SFmul. now rewrite xorb_false_r.
  - unfold mul, one, SFmul.
    now rewrite Pos.mul_comm, Z.add_comm, xorb_comm.
Qed.

(** Multiplying a probability by a zero gives a zero. *)
Lemma mul_zero_r (x : float32) (s : bool) :
  prob_shape x -> exists s', mul x (S754_zero s) = S754_zero s'.
Proof.
  intros Hx. destruct x as [sx|sx| |sx mx ex]; try contradiction;
    unfold mul, SFmul; eauto.
Qed.

(** The sum of the units of [2^-149] of the values [f k], [k] in [l]. *)
Lemma sum_of_children (U : Z -> Z) (l : list Z) :
  fold_right Z.add 0
    (map U (flat_map (fun j => [2 * j + 1; 2 * j + 2]) l))
  = fold_right Z.add 0 (map (fun j => U (2 * j + 1) + U (2 * j + 2)) l).
Proof.
  induction l as [|j l IH]; [reflexivity|].
  cbn [flat_map app map fold_right]. rewrite IH. lia.
Qed.

Lemma sum_close (f g : Z -> Z) (c : Z) (l : list Z) :
  (forall j, In j l -> Z.abs (g j - f j) <= c) ->
  Z.abs (fold_right Z.add 0 (map g l) - fold_right Z.add 0 (map f l))
  <= Z.of_nat (length l) * c.
Proof.
  induction l as [|j l IH]; intros H; [cbn; lia|].
  cbn [map fold_right length].
  pose proof (H j ltac:(now left)).
  specialize (IH ltac:(intros; apply H; now right)).
  lia.
Qed.

(** A sum of values of probabilities, in units of [2^-149]. *)
Lemma sum_F2Q_ulps (f : Z -> float32) (l : list Z) :
  (forall k, In k l -> prob_shape (f k)) ->
  (fold_right Qplus 0 (map (fun k => F2Q (f k)) l)
   == inject_Z (fold_right Z.add 0%Z (map (fun k => ulps (f k)) l))
      / inject_Z (2 ^ 149))%Q.
Proof.
  induction l as [|k l IH]; intros H; [reflexivity|].
  cbn [map fold_right].
  rewrite IH by (intros; apply H; now right).
  rewrite (F2Q_ulps (f k)) by (apply H; now left).
  rewrite inject_Z_plus. field. discriminate.
Qed.

(** The mass of a level of a tree whose values are the products along the
    paths, in units of [2^-149]. *)
Lemma level_ulps (lp : Z -> float32) (h : Z) (d : nat) :
  (forall j, 0 <= j < h -> prob_shape (lp j)) ->
  2 ^ (Z.of_nat d + 1) - 1 <= 2 * h + 1 ->
  Z.abs (fold_right Z.add 0
           (map (fun k => ulps (path_product lp (Z.to_pos (k + 1))))
              (level (Z.of_nat d)))
         - 2 ^ 149)
  <= (2 ^ Z.of_nat d - 1) * (3 * 2 ^ 124).
Proof.
  intros Hlp. induction d as [|d IH]; intros Hfit.
  - change (level (Z.of_nat 0)) with [0]. cbn [map fold_right].
    change (path_product lp (Z.to_pos (0 + 1))) with one.
    rewrite ulps_one, Z.add_0_r, Z.sub_diag. cbn. lia.
  - replace (Z.of_nat (S d)) with (Z.of_nat d + 1) in * by lia.
    pose proof (pow2_pos (Z.of_nat d) ltac:(lia)) as Hp.
    rewrite (pow2_succ (Z.of_nat d + 1)) in Hfit by lia.
    rewrite (pow2_succ (Z.of_nat d)) in Hfit by lia.
    specialize (IH ltac:(rewrite pow2_succ by lia; lia)).
    rewrite level_succ by lia.
    rewrite (sum_of_children
               (fun k => ulps (path_product lp (Z.to_pos (k + 1))))).
    pose proof (sum_close
                  (fun j => ulps (path_product lp (Z.to_pos (j + 1))))
                  (fun j => ulps (path_product lp (Z.to_pos (2 * j + 1 + 1)))
                            + ulps (path_product lp
                                      (Z.to_pos (2 * j + 2 + 1))))
                  (3 * 2 ^ 124) (level (Z.of_nat d))) as Hclose.
    assert (Hlen : Z.of_nat (length (level (Z.of_nat d))) = 2 ^ Z.of_nat d)
      by (unfold level; rewrite length_seqZ; lia).
    rewrite Hlen in Hclose.
    rewrite (pow2_succ (Z.of_nat d)) by lia.
    assert (Hstep : forall j, In j (level (Z.of_nat d)) ->
              Z.abs (ulps (path_product lp (Z.to_pos (2 * j + 1 + 1)))
                     + ulps (path_product lp (Z.to_pos (2 * j + 2 + 1)))
                     - ulps (path_product lp (Z.to_pos (j + 1))))
              <= 3 * 2 ^ 124).
    { intros j Hj. apply level_range in Hj; [|lia].
      rewrite pow2_succ in Hj by lia.
      rewrite path_product_left, path_product_right by lia.
      apply split_conserves_ulps.
      - apply (path_product_prob lp h Hlp). rewrite Z2Pos.id by lia. lia.
      - apply Hlp. lia. }
    specialize (Hclose Hstep).
    set (E := 3 * 2 ^ 124) in *. set (P := 2 ^ Z.of_nat d) in *.
    lia.
Qed.

(** A zero times a probability is a zero. *)
Lemma mul_zero_l (x y : float32) :
  is_zero x = true -> prob_shape y -> is_zero (mul x y) = true.
Proof.
  destruct x as [sx|sx| |sx mx ex]; try discriminate. intros _ Hy.
  destruct y as [sy|sy| |sy my ey]; try contradiction; reflexivity.
Qed.

(** The product along a path that goes through a node whose own product
    is a zero. *)
Lemma path_product_zero (lp : Z -> float32) (h j : Z) (n : positive) :
  (forall j', 0 <= j' < h -> prob_shape (lp j')) ->
  Zpos n <= 2 * h + 1 -> 0 <= j ->
  In j (ancestors n) ->
  is_zero (path_product lp (Z.to_pos (j + 1))) = true ->
  is_zero (path_product lp n) = true.
Proof.
  intros Hlp Hn Hj Hin Hzero. induction n as [p IH|p IH|];
    cbn [path_product ancestors] in *; [| |contradiction].
  - assert (Hp : is_zero (path_product lp p) = true).
    { destruct Hin as [<-|Hin].
      - replace (Zpos p - 1 + 1) with (Zpos p) in Hzero by lia.
        now rewrite Pos2Z.id in Hzero.
      - apply IH; [lia|assumption]. }
    apply mul_zero_l; [exact Hp|]. apply sub_one_prob, Hlp. lia.
  - assert (Hp : is_zero (path_product lp p) = true).
    { destruct Hin as [<-|Hin].
      - replace (Zpos p - 1 + 1) with (Zpos p) in Hzero by lia.
        now rewrite Pos2Z.id in Hzero.
      - apply IH; [lia|assumption]. }
    apply mul_zero_l; [exact Hp|]. apply Hlp. lia.
Qed.

(** A NaN among the factors makes the product a NaN. *)
Lemma mul_nan_r (x : float32) : mul x S754_nan = S754_nan.
Proof. now destruct x. Qed.

Lemma mul_nan_l (y : float32) : mul S754_nan y = S754_nan.
Proof. reflexivity. Qed.

(** The product along a path that goes through a node whose split
    probability is a NaN. *)
Lemma path_product_nan (lp : Z -> float32) (j : Z) (n : positive) :
  In j (ancestors n) -> lp j = S754_nan -> path_product lp n = S754_nan.
Proof.
  intros Hin Hnan. induction n as [p IH|p IH|];
    cbn [path_product ancestors] in *; [| |contradiction];
    (destruct Hin as [<-|Hin];
     [rewrite Hnan; apply mul_nan_r|rewrite (IH Hin); apply mul_nan_l]).
Qed.

(** The rounded product of two probabilities against the exact one. *)
Lemma mul_prob_Q (x y : float32) :
  prob_shape x -> prob_shape y ->
  (Qabs (F2Q (mul x y) - F2Q x * F2Q y) <= 1 # 2 ^ 25)%Q.
Proof.
  intros Hx Hy. destruct (mul_prob x y Hx Hy) as [Hm Herr].
  rewrite (F2Q_ulps _ Hm), (F2Q_ulps _ Hx), (F2Q_ulps _ Hy).
  assert (E : (inject_Z (ulps (mul x y)) / inject_Z (2 ^ 149)
               - inject_Z (ulps x) / inject_Z (2 ^ 149)
                 * (inject_Z (ulps y) / inject_Z (2 ^ 149))
               == inject_Z (ulps (mul x y) * 2 ^ 149 - ulps x * ulps y)
                  / inject_Z (2 ^ 298))%Q).
  { unfold Z.sub. rewrite inject_Z_plus, inject_Z_opp, !inject_Z_mult.
    change (inject_Z (2 ^ 298)) with (inject_Z (2 ^ 149) * inject_Z (2 ^ 149))%Q.
    field. discriminate. }
  rewrite E.
  change (inject_Z (2 ^ 298)) with (inject_Z (Zpos (2 ^ 298))).
  rewrite <- Qmake_Qdiv. unfold Qle, Qabs; cbn [Qnum Qden].
  change (Zpos (2 ^ 25)) with (2 ^ 25).
  change (Zpos (2 ^ 298)) with (2 ^ 273 * 2 ^ 25).
  pose proof (pow2_pos 25 ltac:(lia)) as H25.
  rewrite Z.mul_assoc. apply Z.mul_le_mono_nonneg_r; lia.
Qed.

(** The rounded complement of a probability against the exact one. *)
Lemma sub_one_prob_Q (x : float32) :
  prob_shape x ->
  (Qabs (F2Q (sub one x) - (1 - F2Q x)) <= 1 # 2 ^ 25)%Q.
Proof.
  intros Hx. destruct (sub_one_prob x Hx) as [Hc Herr].
  rewrite (F2Q_ulps _ Hc), (F2Q_ulps _ Hx).
  assert (E : (inject_Z (ulps (sub one x)) / inject_Z (2 ^ 149)
               - (1 - inject_Z (ulps x) / inject_Z (2 ^ 149))
               == inject_Z (ulps (sub one x) - (2 ^ 149 - ulps x))
                  / inject_Z (2 ^ 149))%Q).
  { unfold Z.sub. rewrite !inject_Z_plus, !inject_Z_opp, inject_Z_plus,
      inject_Z_opp.
    field. discriminate. }
  rewrite E. apply ulps_bound_Q. lia.
Qed.

(** One step down the tree: the error of the parent, that of the factor
    and that of the product add up. *)
Lemma step_error (a e qt q r D : Q) :
  (0 <= a <= 1 -> 0 <= q <= 1 ->
   Qabs (a - e) <= D -> Qabs (qt - q) <= 1 # 2 ^ 25 ->
   Qabs (r - a * qt) <= 1 # 2 ^ 25 ->
   Qabs (r - e * q) <= D + (1 # 2 ^ 24))%Q.
Proof.
  intros [Ha0 Ha1] [Hq0 Hq1] He Hq Hr.
  apply Qabs_Qle_condition in He, Hq, Hr. apply Qabs_Qle_condition.
  destruct He as [He1 He2], Hq as [Hq2 Hq3], Hr as [Hr1 Hr2].
  assert (H25 : (1 # 2 ^ 24 == (1 # 2 ^ 25) + (1 # 2 ^ 25))%Q) by reflexivity.
  rewrite H25. set (eps := (1 # 2 ^ 25)%Q) in *.
  assert (Heps : (0 <= eps)%Q) by (subst eps; discriminate).
  split; nra.
Qed.

Lemma Qmake_succ (d : Z) (c : positive) :
  (d + 1 # c == (d # c) + (1 # c))%Q.
Proof. unfold Qeq, Qplus; cbn [Qnum Qden]. rewrite Pos2Z.inj_mul. ring. Qed.

(** The product along a path, rounded at every step, against the exact
    product of the same split probabilities. *)
Lemma path_product_accuracy (lp : Z -> float32) (h : Z) :
  (forall j, 0 <= j < h -> prob_shape (lp j)) ->
  forall n, Zpos n <= 2 * h + 1 ->
    (0 <= exact_path_product (fun j => F2Q (lp j)) n <= 1
     /\ Qabs (F2Q (path_product lp n)
              - exact_path_product (fun j => F2Q (lp j)) n)
        <= depth n # 2 ^ 24)%Q.
Proof.
  intros Hlp. induction n as [p IH|p IH|]; intros Hn;
    cbn [path_product exact_path_product depth].
  - destruct (IH ltac:(lia)) as [[He0 He1] Herr].
    assert (Hj : 0 <= Zpos p - 1 < h) by lia.
    pose proof (Hlp _ Hj) as Hl.
    pose proof (prob_shape_F2Q _ Hl) as [Hl0 Hl1].
    pose proof (path_product_prob lp h Hlp p ltac:(lia)) as Hp.
    pose proof (prob_shape_F2Q _ Hp) as Ha.
    destruct (sub_one_prob _ Hl) as [Hc _].
    split.
    + split; nra.
    + rewrite Qmake_succ.
      apply (step_error (F2Q (path_product lp p)) _
               (F2Q (sub one (lp (Zpos p - 1))))).
      * exact Ha.
      * split; lra.
      * exact Herr.
      * now apply sub_one_prob_Q.
      * now apply mul_prob_Q.
  - destruct (IH ltac:(lia)) as [[He0 He1] Herr].
    assert (Hj : 0 <= Zpos p - 1 < h) by lia.
    pose proof (Hlp _ Hj) as Hl.
    pose proof (prob_shape_F2Q _ Hl) as [Hl0 Hl1].
    pose proof (path_product_prob lp h Hlp p ltac:(lia)) as Hp.
    pose proof (prob_shape_F2Q _ Hp) as Ha.
    split.
    + split; nra.
    + rewrite Qmake_succ.
      apply (step_error (F2Q (path_product lp p)) _
               (F2Q (lp (Zpos p - 1)))).
      * exact Ha.
      * split; assumption.
      * exact Herr.
      * unfold Qminus. rewrite Qplus_opp_r. discriminate.
      * now apply mul_prob_Q.
  - split; [split; discriminate|]. cbn. discriminate.
Qed.

Section Numeric.
Context `{TF : TensorForest}.
Variable self : KFeatureRoutingFunction.
Variables input_data tree_parameters_tensor tree_biases_tensor : Tensor.
Hypothesis Hvalid :
  valid_invocation self input_data tree_parameters_tensor tree_biases_tensor
  = true.
Hypothesis Hlp :
  forall i j,
    0 <= i < num_data input_data -> 0 <= j < internal_nodes self ->
    is_prob (left_prob self input_data tree_parameters_tensor
               tree_biases_tensor i j) = true.

(** With split probabilities that are probabilities, so is every routing
    probability. *)
Lemma routing_probability_prob (i k : Z) :
  0 <= i < num_data input_data -> 0 <= k < max_nodes_ self ->
  prob_shape (routing_probability self input_data tree_parameters_tensor
                tree_biases_tensor i k).
Proof.
  intros Hi Hk.
  destruct (valid_facts self _ _ _ Hvalid)
    as (_ & _ & _ & _ & _ & Hmn & Hodd & Hh & _).
  unfold routing_probability.
  apply (path_product_prob _ (internal_nodes self)).
  - intros j Hj. apply is_prob_shape, Hlp; assumption.
  - rewrite Z2Pos.id by lia. lia.
Qed.

End Numeric.

(** A known shape of rank at least one passes [WithRankAtLeast]. *)
Lemma WithRankAtLeast_known (shp : list Z) :
  1 <= Z.of_nat (length shp) ->
  WithRankAtLeast (known shp) 1 = inr (known shp).
Proof.
  intros H. unfold WithRankAtLeast, known. cbv zeta. rewrite length_map.
  destruct (Z.leb_spec 1 (Z.of_nat (length shp))); [reflexivity|lia].
Qed.

(* ===================================================================== *)
(** * Further properties of the code *)
(* ===================================================================== *)

(** ** The constructor and the shape function *)

(** X1.  The constructor succeeds exactly when the four attributes can be
    read, and then every field of the kernel holds the attribute of its
    own name.  When a read fails, the status reported is that of the first
    read that fails in the order [max_nodes], [num_features_per_node],
    [layer_num], [random_seed]; the attributes before it were read and the
    ones after it are not asked for. *)
Theorem constructor_reads_in_order {status : Type}
    (context : OpKernelConstruction status) :
  (forall self,
     fst (construct_kernel context) = inr self
     <-> context "max_nodes"%string = inr (max_nodes_ self)
         /\ context "num_features_per_node"%string
            = inr (num_features_per_node_ self)
         /\ context "layer_num"%string = inr (layer_num_ self)
         /\ context "random_seed"%string = inr (random_seed_ self))
  /\ (forall s,
        fst (construct_kernel context) = inl s ->
        exists asked name,
          snd (construct_kernel context) = asked ++ [name]
          /\ context name = inl s
          /\ Forall (fun a => exists v, context a = inr v) asked
          /\ exists later, attributes_read = asked ++ name :: later).
Proof.
  split.
  - intros self. unfold construct_kernel. split.
    + destruct (context "max_nodes"%string) as [|mn]; [discriminate|].
      destruct (context "num_features_per_node"%string) as [|k];
        [discriminate|].
      destruct (context "layer_num"%string) as [|l]; [discriminate|].
      destruct (context "random_seed"%string) as [|r]; [discriminate|].
      cbn [fst]. intros E. injection E as <-. cbn. auto.
    + intros (-> & -> & -> & ->). destruct self; reflexivity.
  - intros s. unfold construct_kernel, attributes_read.
    destruct (context "max_nodes"%string) as [s0|mn] eqn:E0.
    { cbn [fst snd]. intros E. injection E as ->.
      exists [], "max_nodes"%string.
      repeat split; [assumption|constructor|eauto]. }
    destruct (context "num_features_per_node"%string) as [s1|k] eqn:E1.
    { cbn [fst snd]. intros E. injection E as ->.
      exists ["max_nodes"%string], "num_features_per_node"%string.
      repeat split; [assumption|repeat constructor; eauto|eauto]. }
    destruct (context "layer_num"%string) as [s2|l] eqn:E2.
    { cbn [fst snd]. intros E. injection E as ->.
      exists ["max_nodes"; "num_features_per_node"]%string,
        "layer_num"%string.
      repeat split; [assumption|repeat constructor; eauto|eauto]. }
    destruct (context "random_seed"%string) as [s3|r] eqn:E3.
    { cbn [fst snd]. intros E. injection E as ->.
      exists ["max_nodes"; "num_features_per_node"; "layer_num"]%string,
        "random_seed"%string.
      repeat split; [assumption|repeat constructor; eauto|eauto]. }
    discriminate.
Qed.

(** X2.  The shape function accepts its inputs exactly when neither
    [input_data] nor [tree_parameters] is known to be of rank 0, whatever
    the shape of [tree_biases]; the output is then the matrix of the first
    dimension of [input_data] and the first dimension of
    [tree_parameters], each unknown when the rank is.  A rejection is an
    InvalidArgument status. *)
Theorem shape_fn_accepts_iff (input0 input1 input2 output : ShapeHandle) :
  (shape_fn input0 input1 input2 = inr output
   <-> input0 <> Some [] /\ input1 <> Some []
       /\ output = Some [Dim input0 0; Dim input1 0])
  /\ (forall s, shape_fn input0 input1 input2 = inl s ->
        exists msg, s = InvalidArgument msg).
Proof.
  unfold shape_fn, WithRankAtLeast, Matrix. split.
  - destruct input0 as [[|d0 ds0]|], input1 as [[|d1 ds1]|];
      cbn [length Z.of_nat]; cbv zeta;
      repeat match goal with
             | |- context [1 <=? Z.of_nat (S (length ?l))] =>
                 replace (1 <=? Z.of_nat (S (length l))) with true
                   by (symmetry; apply Z.leb_le; lia)
             end;
      cbn [Z.leb Z.compare];
      (split;
       [intros E; try discriminate E; injection E as <-;
        repeat split; discriminate
       |intros (H0 & H1 & ->); try contradiction; reflexivity]).
  - intros s.
    destruct input0 as [ds0|]; cbv zeta;
      [destruct (1 <=? Z.of_nat (length ds0))|];
      try (intros E; injection E as <-; eauto);
      (destruct input1 as [ds1|]; cbv zeta;
       [destruct (1 <=? Z.of_nat (length ds1))|];
       try discriminate;
       intros E; injection E as <-; eauto).
Qed.

(** X3.  On a valid invocation the shape function infers the output shape
    [[dim 0 of input_data; dim 0 of tree_parameters]], while [Compute]
    allocates [[num_data; max_nodes]]: the two agree exactly when
    [tree_parameters] has [max_nodes] rows, although [Compute] reads
    [max_nodes / 2] of them only. *)
Theorem inferred_shape_matches_iff `{TF : TensorForest}
    (self : KFeatureRoutingFunction)
    (input_data tree_parameters_tensor tree_biases_tensor : Tensor) :
  valid_invocation self input_data tree_parameters_tensor tree_biases_tensor
  = true ->
  exists out,
    fst (Compute self input_data tree_parameters_tensor tree_biases_tensor)
    = Done out
    /\ shape_fn (known (shape input_data))
         (known (shape tree_parameters_tensor))
         (known (shape tree_biases_tensor))
       = inr (known [dim_size input_data 0;
                     dim_size tree_parameters_tensor 0])
    /\ (known [dim_size input_data 0; dim_size tree_parameters_tensor 0]
        = known (buf_shape out)
        <-> dim_size tree_parameters_tensor 0 = max_nodes_ self).
Proof.
  intros Hvalid.
  destruct (Compute_correct self _ _ _ Hvalid) as (out & Hrun & Hshape & _).
  destruct (valid_facts self _ _ _ Hvalid)
    as (Hd & Hnd & _ & _ & _ & _ & _ & _ & _ & _ & Hp & _).
  exists out. rewrite Hrun. split; [reflexivity|]. split.
  - unfold shape_fn, dims in *.
    rewrite !WithRankAtLeast_known by lia.
    unfold dim_size, Matrix, Dim, known.
    destruct (shape input_data) as [|a0 ra]; [cbn in Hd; lia|].
    destruct (shape tree_parameters_tensor) as [|p0 rp]; [cbn in Hp; lia|].
    reflexivity.
  - rewrite Hshape, Hnd. unfold known. cbn [map]. split.
    + intros E. now injection E.
    + now intros ->.
Qed.

Lemma inferred_shape_matches_iff_witness :
  valid_invocation tree7 batch_a weights7 biases7 = true
  /\ dim_size weights7 0 <> max_nodes_ tree7
  /\ exists out,
       fst (Compute tree7 batch_a weights7 biases7) = Done out
       /\ shape_fn (known (shape batch_a)) (known (shape weights7))
            (known (shape biases7))
          = inr (known [dim_size batch_a 0; dim_size weights7 0])
       /\ (known [dim_size batch_a 0; dim_size weights7 0]
           = known (buf_shape out)
           <-> dim_size weights7 0 = max_nodes_ tree7).
Proof.
  split; [reflexivity|]. split; [discriminate|].
  apply (inferred_shape_matches_iff tree7 batch_a weights7 biases7).
  reflexivity.
Defined.

(** ** How [Compute] ends *)


(** X5.  For a batch without rows [Compute] returns an output exactly when
    the bounds check passes, the capacity is not negative and
    [tree_biases] is a vector: the view [tensor<float, 1>()] of the biases
    is taken before the loops, rows or not. *)
Theorem empty_batch_output_iff `{TF : TensorForest}
    (self : KFeatureRoutingFunction)
    (input_data tree_parameters_tensor tree_biases_tensor : Tensor) :
  empty_batch input_data = true ->
  (exists out,
     fst (Compute self input_data tree_parameters_tensor tree_biases_tensor)
     = Done out)
  <-> CheckTensorBounds input_data = true /\ 0 <= max_nodes_ self
      /\ dims tree_biases_tensor = 1.
Proof.
  intros Hempty. split.
  - intros [out Hout]. apply Compute_Done in Hout.
    destruct Hout as (_ & Hchk & _ & Hmn & Hb & _). auto.
  - intros (Hchk & Hmn & Hb).
    apply andb_true_iff in Hempty. destruct Hempty as [_ Hrows].
    apply Z.eqb_eq in Hrows. unfold Compute.
    rewrite Hrows, Hchk. cbn [Z.ltb Z.compare andb negb].
    change (to_int32 0) with 0.
    unfold tensor1, allocate_output. rewrite Hb. cbn [Z.eqb Pos.eqb forallb].
    destruct (Z.leb_spec 0 (max_nodes_ self)); [|lia].
    cbn. eauto.
Qed.

Lemma empty_batch_output_iff_witness :
  empty_batch batch_rank3_empty = true
  /\ ((exists out,
         fst (Compute tree7 batch_rank3_empty weights7 biases7) = Done out)
      <-> CheckTensorBounds batch_rank3_empty = true
          /\ 0 <= max_nodes_ tree7 /\ dims biases7 = 1).
Proof.
  split; [reflexivity|].
  apply (empty_batch_output_iff tree7 batch_rank3_empty weights7 biases7).
  reflexivity.
Defined.





(** X8.  Whatever the inputs, an output [Compute] returns has the shape
    [[num_data; max_nodes]], that many cells, and a value in every one of
    them: no cell is handed back as it was allocated. *)
Theorem returned_output_is_initialised `{TF : TensorForest}
    (self : KFeatureRoutingFunction)
    (input_data tree_parameters_tensor tree_biases_tensor : Tensor)
    (out : Buffer) :
  fst (Compute self input_data tree_parameters_tensor tree_biases_tensor)
  = Done out ->
  buf_shape out = [num_data input_data; max_nodes_ self]
  /\ Z.of_nat (length (cells out)) = num_data input_data * max_nodes_ self
  /\ forall i k,
       0 <= i < num_data input_data -> 0 <= k < max_nodes_ self ->
       is_Some (cell out i k).
Proof.
  intros Hout. apply Compute_Done in Hout.
  destruct Hout as (_ & _ & Hnd0 & Hmn0 & _ & Hshape & st' & Hrun & Hcells & _).
  set (nd := num_data input_data) in *. set (mn := max_nodes_ self) in *.
  set (initialised := fun (s : Frame) (i k : Z) =>
         exists w, out_probs s !! Z.to_nat (offset mn i k) = Some (Some w)).
  assert (Hfinal : Z.of_nat (length (out_probs st')) = nd * mn
                   /\ forall i k, 0 <= i < nd -> 0 <= k < mn ->
                        initialised st' i k).
  { destruct (Z.eq_dec nd 0) as [Hz|Hnz].
    { replace (Z.to_nat nd) with 0%nat in Hrun by lia.
      cbn [for_loop] in Hrun. unfold ret in Hrun. injection Hrun as <-.
      cbn [out_probs]. split; [apply fresh_storage_length; lia|lia]. }
    pose proof Hrun as Hfacts.
    apply loops_end_facts in Hfacts;
      [|lia|cbn [out_probs]; apply fresh_storage_length; lia].
    destruct Hfacts as (Hmn & Hodd & _).
    assert (Hh : mn = 2 * Z.quot mn 2 + 1).
    { rewrite Z.quot_div_nonneg by lia. rewrite Z.odd_spec in Hodd.
      destruct Hodd as [q Hq].
      pose proof (Z.div_mod mn 2). pose proof (Z.mod_pos_bound mn 2). lia. }
    apply (for_loop_runs
             (fun i s => Z.of_nat (length (out_probs s)) = nd * mn
                         /\ forall i' k, 0 <= i' < i -> 0 <= k < mn ->
                              initialised s i' k)) in Hrun.
    - rewrite Z.add_0_l, Z2Nat.id in Hrun by lia. exact (proj1 Hrun).
    - cbn [out_probs]. split; [apply fresh_storage_length; lia|lia].
    - intros i s s' Hi [Hlen Hrows] Hstep.
      apply row_step_Some in Hstep.
      destruct Hstep as (point & _ & Hroot & Hnodes).
      fold mn in Hroot, Hnodes.
      apply (for_loop_runs
               (fun j s1 => Z.of_nat (length (out_probs s1)) = nd * mn
                            /\ (forall i' k, 0 <= i' < i -> 0 <= k < mn ->
                                  initialised s1 i' k)
                            /\ forall k, 0 <= k < 2 * j + 1 ->
                                 initialised s1 i k)) in Hnodes.
      + destruct Hnodes as [(Hlen' & Hrows' & Hrow') _].
        rewrite Z.add_0_l, Z2Nat.id in Hrow' by lia.
        split; [exact Hlen'|]. intros i' k Hi' Hk.
        destruct (Z.eq_dec i' i) as [->|Hne];
          [apply Hrow'; lia|apply Hrows'; lia].
      + cbn [out_probs]. rewrite length_insert. split; [exact Hlen|]. split.
        * intros i' k Hi' Hk. apply initialised_insert. now apply Hrows.
        * intros k Hk. replace k with 0 by lia.
          apply initialised_stored. lia.
      + intros j s1 s2 Hj (Hlen1 & Hrows1 & Hrow1) Hn.
        apply node_step_Some in Hn.
        destruct Hn as (prob & weight & bias & Hn). cbv zeta in Hn.
        destruct Hn as (_ & _ & _ & Hl & Hr & Hout & _).
        unfold initialised. rewrite Hout, !length_insert.
        split; [exact Hlen1|]. split.
        * intros i' k Hi' Hk. do 2 apply initialised_insert.
          now apply Hrows1.
        * intros k Hk.
          destruct (Z.eq_dec k (2 * j + 1 + 1)) as [->|Hne2];
            [apply initialised_stored; rewrite length_insert; lia|].
          apply initialised_insert.
          destruct (Z.eq_dec k (2 * j + 1)) as [->|Hne1];
            [apply initialised_stored; lia|].
          apply initialised_insert, Hrow1. lia. }
  destruct Hfinal as [Hlen Hinit].
  split; [exact Hshape|]. split; [now rewrite Hcells|].
  intros i k Hi Hk. destruct (Hinit i k Hi Hk) as [w Hw].
  exists w. unfold cell, rows, columns. rewrite Hshape, Hcells. cbn [nth].
  replace ((0 <=? i) && (i <? nd) && (0 <=? k) && (k <? mn)) with true
    by guard_holds.
  now rewrite Hw.
Qed.

Lemma returned_output_is_initialised_witness :
  exists out,
    fst (Compute tree3 batch3 weights3 biases3) = Done out
    /\ buf_shape out = [num_data batch3; max_nodes_ tree3]
    /\ Z.of_nat (length (cells out)) = num_data batch3 * max_nodes_ tree3
    /\ forall i k,
         0 <= i < num_data batch3 -> 0 <= k < max_nodes_ tree3 ->
         is_Some (cell out i k).
Proof.
  eexists. split; [reflexivity|].
  apply (returned_output_is_initialised tree3 batch3 weights3 biases3).
  reflexivity.
Defined.

(** ** The loops *)

(** X9.  For every capacity an [int32] can hold and every node [j] the
    loop visits, [2 * j], [left_child = 2 * j + 1] and
    [right_child = left_child + 1] are computed without overflow, and
    [right_child] is at most [max_nodes]. *)
Theorem child_indices_never_overflow (self : KFeatureRoutingFunction)
    (j : Z) :
  max_nodes_ self < 2 ^ 31 -> 0 <= j < internal_nodes self ->
  to_int32 (2 * j) = 2 * j
  /\ to_int32 (2 * j + 1) = 2 * j + 1
  /\ to_int32 (2 * j + 1 + 1) = 2 * j + 1 + 1
  /\ 2 * j + 1 + 1 <= max_nodes_ self.
Proof.
  unfold internal_nodes. intros Hmax Hj.
  assert (Hmn : 0 < max_nodes_ self).
  { destruct (Z_lt_le_dec 0 (max_nodes_ self)) as [|Hle]; [assumption|].
    pose proof (Z.quot_opp_l (max_nodes_ self) 2 ltac:(lia)).
    pose proof (Z.quot_pos (- max_nodes_ self) 2 ltac:(lia) ltac:(lia)).
    lia. }
  rewrite Z.quot_div_nonneg in Hj by lia.
  pose proof (Z.div_mod (max_nodes_ self) 2 ltac:(lia)).
  pose proof (Z.mod_pos_bound (max_nodes_ self) 2 ltac:(lia)).
  unfold to_int32. rewrite !Z.mod_small by lia. lia.
Qed.

Lemma child_indices_never_overflow_witness :
  max_nodes_ tree7 < 2 ^ 31 /\ 0 <= 2 < internal_nodes tree7
  /\ to_int32 (2 * 2) = 2 * 2
  /\ to_int32 (2 * 2 + 1) = 2 * 2 + 1
  /\ to_int32 (2 * 2 + 1 + 1) = 2 * 2 + 1 + 1
  /\ 2 * 2 + 1 + 1 <= max_nodes_ tree7.
Proof.
  split; [reflexivity|]. split; [split; [discriminate|reflexivity]|].
  apply (child_indices_never_overflow tree7 2);
    [reflexivity|split; [discriminate|reflexivity]].
Defined.

(** X10.  On a valid invocation the stores go through the output in
    row-major order: row after row, the columns from [0] to
    [max_nodes - 1]; the store number [n] goes to the offset [n] of the
    storage, and no cell is stored to twice. *)
Theorem stores_sweep_the_output `{TF : TensorForest}
    (self : KFeatureRoutingFunction)
    (input_data tree_parameters_tensor tree_biases_tensor : Tensor) :
  valid_invocation self input_data tree_parameters_tensor tree_biases_tensor
  = true ->
  let written :=
    stores (snd (Compute self input_data tree_parameters_tensor
                   tree_biases_tensor)) in
  written
  = flat_map (fun i => map (fun k => (i, k)) (seqZ 0 (max_nodes_ self)))
      (seqZ 0 (num_data input_data))
  /\ map (fun ik => offset (max_nodes_ self) (fst ik) (snd ik)) written
     = seqZ 0 (num_data input_data * max_nodes_ self)
  /\ NoDup written.
Proof.
  intros Hvalid written.
  destruct (Compute_correct self _ _ _ Hvalid) as (out & Hrun & _).
  destruct (valid_facts self _ _ _ Hvalid)
    as (_ & _ & Hnd & _ & _ & Hmn & Hodd & Hh & _).
  assert (Hw : written
               = flat_map (fun i => map (fun k => (i, k))
                                      (seqZ 0 (max_nodes_ self)))
                   (seqZ 0 (num_data input_data))).
  { subst written. rewrite Hrun. cbn [snd]. rewrite stores_expected.
    apply flat_map_ext. intros i.
    rewrite <- (Z2Nat.id (internal_nodes self)) at 1 by lia.
    rewrite (children_of_range (fun k => (i, k)) 0), Z2Nat.id by lia.
    change (2 * 0 + 1) with 1.
    rewrite Hodd.
    replace (2 * internal_nodes self + 1) with (1 + 2 * internal_nodes self)
      by lia.
    rewrite (seqZ_app 0 1 (2 * internal_nodes self)) by lia.
    reflexivity. }
  assert (Ho : map (fun ik => offset (max_nodes_ self) (fst ik) (snd ik))
                 written
               = seqZ 0 (num_data input_data * max_nodes_ self)).
  { rewrite Hw.
    rewrite <- (Z2Nat.id (num_data input_data)) by lia.
    rewrite <- rows_in_order by lia.
    rewrite flat_map_concat_map, concat_map, map_map, <- flat_map_concat_map.
    apply flat_map_ext. intros i. rewrite map_map. cbn [fst snd].
    unfold offset.
    transitivity (Z.add (i * max_nodes_ self) <$> seqZ 0 (max_nodes_ self));
      [reflexivity|].
    rewrite fmap_add_seqZ. f_equal. lia. }
  split; [exact Hw|]. split; [exact Ho|].
  apply (NoDup_fmap_1 (fun ik => offset (max_nodes_ self) (fst ik) (snd ik))).
  change (NoDup (map (fun ik => offset (max_nodes_ self) (fst ik) (snd ik))
                   written)).
  rewrite Ho. apply NoDup_seqZ.
Qed.

Lemma stores_sweep_the_output_witness :
  valid_invocation tree3 batch3 weights3 biases3 = true
  /\ stores (snd (Compute tree3 batch3 weights3 biases3))
     = [(0, 0); (0, 1); (0, 2)]
  /\ map (fun ik => offset (max_nodes_ tree3) (fst ik) (snd ik))
       (stores (snd (Compute tree3 batch3 weights3 biases3)))
     = [0; 1; 2]
  /\ NoDup (stores (snd (Compute tree3 batch3 weights3 biases3))).
Proof.
  split; [reflexivity|].
  exact (stores_sweep_the_output tree3 batch3 weights3 biases3 eq_refl).
Defined.

(** X11.  The value at node [k] depends on the weights and the biases of
    the nodes on the path from the root to [k] only: two valid invocations
    on the same batch whose tree parameters and biases agree on these
    nodes give the same column [k], whatever they hold for the other
    nodes. *)
Theorem output_depends_on_ancestors `{TF : TensorForest}
    (self : KFeatureRoutingFunction)
    (input_data params_a biases_a params_b biases_b : Tensor) (k : Z) :
  valid_invocation self input_data params_a biases_a = true ->
  valid_invocation self input_data params_b biases_b = true ->
  0 <= k < max_nodes_ self ->
  (forall j, In j (ancestors (Z.to_pos (k + 1))) ->
     Slice params_a j (j + 1) = Slice params_b j (j + 1)
     /\ flat biases_a !! Z.to_nat j = flat biases_b !! Z.to_nat j) ->
  exists out_a out_b,
    fst (Compute self input_data params_a biases_a) = Done out_a
    /\ fst (Compute self input_data params_b biases_b) = Done out_b
    /\ forall i, cell out_a i k = cell out_b i k.
Proof.
  intros Ha Hb Hk Hsame.
  destruct (Compute_correct self _ _ _ Ha) as (oa & Hra & Hsa & Hca).
  destruct (Compute_correct self _ _ _ Hb) as (ob & Hrb & Hsb & Hcb).
  exists oa, ob. rewrite Hra, Hrb. split; [reflexivity|].
  split; [reflexivity|]. intros i.
  destruct (Z_le_gt_dec 0 i) as [Hi0|Hi0];
    [destruct (Z_lt_le_dec i (num_data input_data)) as [Hi1|Hi1]|].
  - rewrite Hca, Hcb by lia. f_equal.
    unfold routing_probability. apply path_product_local. intros j Hj.
    destruct (Hsame j Hj) as [Hw Hbias].
    unfold left_prob, row_of, bias_of. now rewrite Hw, Hbias.
  - rewrite (cell_outside oa _ _ i k Hsa), (cell_outside ob _ _ i k Hsb)
      by lia.
    reflexivity.
  - rewrite (cell_outside oa _ _ i k Hsa), (cell_outside ob _ _ i k Hsb)
      by lia.
    reflexivity.
Qed.

Lemma output_depends_on_ancestors_witness :
  valid_invocation tree7 batch_a weights7 biases7 = true
  /\ valid_invocation tree7 batch_a weights7' biases7' = true
  /\ 0 <= 2 < max_nodes_ tree7
  /\ ancestors (Z.to_pos (2 + 1)) = [0]
  /\ Slice weights7 1 (1 + 1) <> Slice weights7' 1 (1 + 1)
  /\ exists out_a out_b,
       fst (Compute tree7 batch_a weights7 biases7) = Done out_a
       /\ fst (Compute tree7 batch_a weights7' biases7') = Done out_b
       /\ forall i, cell out_a i 2 = cell out_b i 2.
Proof.
  split; [reflexivity|]. split; [reflexivity|].
  split; [split; [discriminate|reflexivity]|].
  split; [reflexivity|]. split; [discriminate|].
  apply (output_depends_on_ancestors tree7 batch_a weights7 biases7
           weights7' biases7' 2);
    [reflexivity|reflexivity|split; [discriminate|reflexivity]|].
  intros j [<-|[]]. split; reflexivity.
Defined.

(** X12.  The row index reaches the values through the feature selector
    only: with a selector that does not depend on the index it is given,
    a row yields the same probabilities wherever it sits in whichever
    batch. *)
Theorem rows_can_move_under_blind_selector `{TF : TensorForest}
    (self : KFeatureRoutingFunction)
    (input_a input_b tree_parameters_tensor tree_biases_tensor : Tensor)
    (i i' : Z) :
  (forall tree_num n n' seed nf k fs,
     GetFeatureSet tree_num n seed nf k fs
     = GetFeatureSet tree_num n' seed nf k fs) ->
  valid_invocation self input_a tree_parameters_tensor tree_biases_tensor
  = true ->
  valid_invocation self input_b tree_parameters_tensor tree_biases_tensor
  = true ->
  0 <= i < num_data input_a -> 0 <= i' < num_data input_b ->
  Slice input_a i (i + 1) = Slice input_b i' (i' + 1) ->
  exists out_a out_b,
    fst (Compute self input_a tree_parameters_tensor tree_biases_tensor)
    = Done out_a
    /\ fst (Compute self input_b tree_parameters_tensor tree_biases_tensor)
       = Done out_b
    /\ forall k, cell out_a i k = cell out_b i' k.
Proof.
  intros Hblind Ha Hb Hia Hib Hrow.
  destruct (Compute_correct self _ _ _ Ha) as (oa & Hra & Hsa & Hca).
  destruct (Compute_correct self _ _ _ Hb) as (ob & Hrb & Hsb & Hcb).
  destruct (valid_facts self _ _ _ Ha)
    as (Hda & Hna & _ & Hfa & _ & Hmn & _).
  destruct (valid_facts self _ _ _ Hb) as (Hdb & Hnb & _ & Hfb & _).
  exists oa, ob. rewrite Hra, Hrb. split; [reflexivity|].
  split; [reflexivity|]. intros k.
  destruct (Z_le_gt_dec 0 k) as [Hk0|Hk0];
    [destruct (Z_lt_le_dec k (max_nodes_ self)) as [Hk1|Hk1]|].
  - rewrite Hca, Hcb by lia. f_equal.
    unfold routing_probability. apply path_product_ext. intros j.
    assert (Hnf : num_features input_a = num_features input_b).
    { rewrite Hfa, Hfb. apply (Slice_row_features _ _ i i'); congruence. }
    unfold left_prob, feature_subset, row_of.
    now rewrite Hnf, Hrow, (Hblind _ i i').
  - rewrite (cell_outside oa _ _ i k Hsa), (cell_outside ob _ _ i' k Hsb)
      by lia.
    reflexivity.
  - rewrite (cell_outside oa _ _ i k Hsa), (cell_outside ob _ _ i' k Hsb)
      by lia.
    reflexivity.
Qed.

Lemma rows_can_move_under_blind_selector_witness :
  (forall tree_num n n' seed nf k fs,
     @GetFeatureSet index_blind tree_num n seed nf k fs
     = @GetFeatureSet index_blind tree_num n' seed nf k fs)
  /\ @valid_invocation index_blind tree7 batch_a weights7 biases7 = true
  /\ @valid_invocation index_blind tree7 batch_c weights7 biases7 = true
  /\ 0 <= 0 < num_data batch_a /\ 0 <= 1 < num_data batch_c
  /\ Slice batch_a 0 (0 + 1) = Slice batch_c 1 (1 + 1)
  /\ exists out_a out_b,
       fst (@Compute index_blind tree7 batch_a weights7 biases7)
       = Done out_a
       /\ fst (@Compute index_blind tree7 batch_c weights7 biases7)
          = Done out_b
       /\ forall k, cell out_a 0 k = cell out_b 1 k.
Proof.
  split; [reflexivity|]. split; [reflexivity|]. split; [reflexivity|].
  split; [split; [discriminate|reflexivity]|].
  split; [split; [discriminate|reflexivity]|].
  split; [reflexivity|].
  apply (@rows_can_move_under_blind_selector index_blind tree7 batch_a
           batch_c weights7 biases7 0 1);
    [reflexivity|reflexivity|reflexivity|split; [discriminate|reflexivity]
    |split; [discriminate|reflexivity]|reflexivity].
Defined.

(** ** Values *)

(** X13.  The children of the root hold the split probability of the root
    and its binary32 complement themselves:
    [output[i, 1] = left_prob] and [output[i, 2] = 1.0f - left_prob],
    without a rounding of the products by [1.0f]. *)
Theorem first_level_is_exact `{TF : TensorForest}
    (self : KFeatureRoutingFunction)
    (input_data tree_parameters_tensor tree_biases_tensor : Tensor)
    (i : Z) :
  valid_invocation self input_data tree_parameters_tensor tree_biases_tensor
  = true ->
  0 <= i < num_data input_data -> 3 <= max_nodes_ self ->
  is_prob (left_prob self input_data tree_parameters_tensor
             tree_biases_tensor i 0) = true ->
  exists out,
    fst (Compute self input_data tree_parameters_tensor tree_biases_tensor)
    = Done out
    /\ cell out i 1
       = Some (left_prob self input_data tree_parameters_tensor
                 tree_biases_tensor i 0)
    /\ cell out i 2
       = Some (sub one
                 (left_prob self input_data tree_parameters_tensor
                    tree_biases_tensor i 0)).
Proof.
  intros Hvalid Hi Hmn Hlp.
  destruct (Compute_correct self _ _ _ Hvalid) as (out & Hrun & _ & Hcell).
  apply is_prob_shape in Hlp. destruct (sub_one_prob _ Hlp) as [Hc _].
  exists out. rewrite Hrun. split; [reflexivity|].
  rewrite !Hcell by lia.
  change 1 with (2 * 0 + 1) at 1. change 2 with (2 * 0 + 2) at 2.
  rewrite routing_probability_left, routing_probability_right by lia.
  rewrite routing_probability_root.
  now rewrite (mul_one_l _ Hlp), (mul_one_l _ Hc).
Qed.

Lemma first_level_is_exact_witness :
  valid_invocation tree7 batch_a weights7 biases7 = true
  /\ 0 <= 1 < num_data batch_a /\ 3 <= max_nodes_ tree7
  /\ is_prob (left_prob tree7 batch_a weights7 biases7 1 0) = true
  /\ exists out,
       fst (Compute tree7 batch_a weights7 biases7) = Done out
       /\ cell out 1 1 = Some (left_prob tree7 batch_a weights7 biases7 1 0)
       /\ cell out 1 2
          = Some (sub one (left_prob tree7 batch_a weights7 biases7 1 0)).
Proof.
  split; [reflexivity|]. split; [split; [discriminate|reflexivity]|].
  split; [discriminate|]. split; [reflexivity|].
  apply (first_level_is_exact tree7 batch_a weights7 biases7 1);
    [reflexivity|split; [discriminate|reflexivity]|discriminate
    |reflexivity].
Defined.

(** X14.  A split probability of exactly [1.0f] or zero moves the whole
    mass of a node to one child: that child holds the value of the node
    itself and the other child holds a zero. *)
Theorem hard_split_moves_all_mass `{TF : TensorForest}
    (self : KFeatureRoutingFunction)
    (input_data tree_parameters_tensor tree_biases_tensor : Tensor)
    (i j : Z) :
  valid_invocation self input_data tree_parameters_tensor tree_biases_tensor
  = true ->
  (forall i j,
     0 <= i < num_data input_data -> 0 <= j < internal_nodes self ->
     is_prob (left_prob self input_data tree_parameters_tensor
                tree_biases_tensor i j) = true) ->
  0 <= i < num_data input_data -> 0 <= j < internal_nodes self ->
  exists out prob,
    fst (Compute self input_data tree_parameters_tensor tree_biases_tensor)
    = Done out
    /\ cell out i j = Some prob
    /\ (left_prob self input_data tree_parameters_tensor tree_biases_tensor
          i j = one ->
        cell out i (2 * j + 1) = Some prob
        /\ exists s, cell out i (2 * j + 2) = Some (S754_zero s))
    /\ (forall s0,
          left_prob self input_data tree_parameters_tensor
            tree_biases_tensor i j = S754_zero s0 ->
          (exists s, cell out i (2 * j + 1) = Some (S754_zero s))
          /\ cell out i (2 * j + 2) = Some prob).
Proof.
  intros Hvalid Hlp Hi Hj.
  destruct (Compute_correct self _ _ _ Hvalid) as (out & Hrun & _ & Hcell).
  destruct (valid_facts self _ _ _ Hvalid)
    as (_ & _ & _ & _ & _ & Hmn & Hodd & Hh & _).
  pose proof (routing_probability_prob self _ _ _ Hvalid Hlp i j Hi
                ltac:(lia)) as Hp.
  eexists out, _. rewrite Hrun. split; [reflexivity|].
  split; [apply Hcell; lia|].
  rewrite !Hcell by lia.
  rewrite routing_probability_left, routing_probability_right by lia.
  split.
  - intros ->. rewrite (mul_one_r _ Hp). split; [reflexivity|].
    change (sub one one) with (S754_zero false).
    destruct (mul_zero_r _ false Hp) as [s ->]. eauto.
  - intros s0 ->. change (sub one (S754_zero s0)) with one.
    rewrite (mul_one_r _ Hp). split; [|reflexivity].
    destruct (mul_zero_r _ s0 Hp) as [s ->]. eauto.
Qed.

Lemma hard_split_moves_all_mass_witness :
  valid_invocation tree7 batch_a weights7 biases_hard = true
  /\ (forall i j,
        0 <= i < num_data batch_a -> 0 <= j < internal_nodes tree7 ->
        is_prob (left_prob tree7 batch_a weights7 biases_hard i j) = true)
  /\ 0 <= 0 < num_data batch_a /\ 0 <= 0 < internal_nodes tree7
  /\ left_prob tree7 batch_a weights7 biases_hard 0 0 = one
  /\ exists out prob,
       fst (Compute tree7 batch_a weights7 biases_hard) = Done out
       /\ cell out 0 0 = Some prob
       /\ (left_prob tree7 batch_a weights7 biases_hard 0 0 = one ->
           cell out 0 (2 * 0 + 1) = Some prob
           /\ exists s, cell out 0 (2 * 0 + 2) = Some (S754_zero s))
       /\ (forall s0,
             left_prob tree7 batch_a weights7 biases_hard 0 0
             = S754_zero s0 ->
             (exists s, cell out 0 (2 * 0 + 1) = Some (S754_zero s))
             /\ cell out 0 (2 * 0 + 2) = Some prob).
Proof.
  assert (Hlp : forall i j,
            0 <= i < num_data batch_a -> 0 <= j < internal_nodes tree7 ->
            is_prob (left_prob tree7 batch_a weights7 biases_hard i j)
            = true).
  { intros i j _ Hj. change (internal_nodes tree7) with 3 in Hj.
    assert (j = 0 \/ j = 1 \/ j = 2) as [-> | [-> | ->]] by lia;
      reflexivity. }
  split; [reflexivity|]. split; [exact Hlp|].
  split; [split; [discriminate|reflexivity]|].
  split; [split; [discriminate|reflexivity]|].
  split; [reflexivity|].
  apply (hard_split_moves_all_mass tree7 batch_a weights7 biases_hard 0 0);
    [reflexivity|exact Hlp|split; [discriminate|reflexivity]
    |split; [discriminate|reflexivity]].
Defined.

(** X15.  With split probabilities that are probabilities, mass does not
    come back below a node that has none: when node [j] of a row holds a
    zero, so does every node [k] below it. *)
Theorem zero_stays_zero_below `{TF : TensorForest}
    (self : KFeatureRoutingFunction)
    (input_data tree_parameters_tensor tree_biases_tensor : Tensor)
    (i j k : Z) :
  valid_invocation self input_data tree_parameters_tensor tree_biases_tensor
  = true ->
  (forall i j,
     0 <= i < num_data input_data -> 0 <= j < internal_nodes self ->
     is_prob (left_prob self input_data tree_parameters_tensor
                tree_biases_tensor i j) = true) ->
  0 <= i < num_data input_data -> 0 <= k < max_nodes_ self ->
  In j (ancestors (Z.to_pos (k + 1))) ->
  exists out vj vk,
    fst (Compute self input_data tree_parameters_tensor tree_biases_tensor)
    = Done out
    /\ cell out i j = Some vj /\ cell out i k = Some vk
    /\ (is_zero vj = true -> is_zero vk = true).
Proof.
  intros Hvalid Hlp Hi Hk Hin.
  destruct (Compute_correct self _ _ _ Hvalid) as (out & Hrun & _ & Hcell).
  destruct (valid_facts self _ _ _ Hvalid)
    as (_ & _ & _ & _ & _ & Hmn & Hodd & Hh & _).
  assert (Hanc : forall n j', In j' (ancestors n) -> 0 <= j' < Zpos n - 1).
  { induction n as [p IH|p IH|]; cbn [ancestors]; intros j' Hj';
      [| |contradiction];
      (destruct Hj' as [<-|Hj']; [lia|specialize (IH _ Hj'); lia]). }
  pose proof (Hanc _ _ Hin) as Hj. rewrite Z2Pos.id in Hj by lia.
  do 3 eexists. rewrite Hrun. split; [reflexivity|].
  split; [apply Hcell; lia|]. split; [apply Hcell; lia|].
  unfold routing_probability.
  apply (path_product_zero _ (internal_nodes self)).
  - intros j' Hj'. apply is_prob_shape, Hlp; assumption.
  - rewrite Z2Pos.id by lia. lia.
  - lia.
  - exact Hin.
Qed.

Lemma zero_stays_zero_below_witness :
  valid_invocation tree7 batch_a weights7 biases_hard = true
  /\ (forall i j,
        0 <= i < num_data batch_a -> 0 <= j < internal_nodes tree7 ->
        is_prob (left_prob tree7 batch_a weights7 biases_hard i j) = true)
  /\ 0 <= 0 < num_data batch_a /\ 0 <= 5 < max_nodes_ tree7
  /\ In 2 (ancestors (Z.to_pos (5 + 1)))
  /\ exists out vj vk,
       fst (Compute tree7 batch_a weights7 biases_hard) = Done out
       /\ cell out 0 2 = Some vj /\ cell out 0 5 = Some vk
       /\ (is_zero vj = true -> is_zero vk = true).
Proof.
  assert (Hlp : forall i j,
            0 <= i < num_data batch_a -> 0 <= j < internal_nodes tree7 ->
            is_prob (left_prob tree7 batch_a weights7 biases_hard i j)
            = true).
  { intros i j _ Hj. change (internal_nodes tree7) with 3 in Hj.
    assert (j = 0 \/ j = 1 \/ j = 2) as [-> | [-> | ->]] by lia;
      reflexivity. }
  split; [reflexivity|]. split; [exact Hlp|].
  split; [split; [discriminate|reflexivity]|].
  split; [split; [discriminate|reflexivity]|].
  split; [now left|].
  apply (zero_stays_zero_below tree7 batch_a weights7 biases_hard 0 2 5);
    [reflexivity|exact Hlp|split; [discriminate|reflexivity]
    |split; [discriminate|reflexivity]|now left].
Defined.

(** X16.  A split probability that is a NaN makes every node below its
    node a NaN, whatever the other split probabilities are. *)
Theorem nan_poisons_subtree `{TF : TensorForest}
    (self : KFeatureRoutingFunction)
    (input_data tree_parameters_tensor tree_biases_tensor : Tensor)
    (i j k : Z) :
  valid_invocation self input_data tree_parameters_tensor tree_biases_tensor
  = true ->
  0 <= i < num_data input_data -> 0 <= k < max_nodes_ self ->
  In j (ancestors (Z.to_pos (k + 1))) ->
  left_prob self input_data tree_parameters_tensor tree_biases_tensor i j
  = S754_nan ->
  exists out,
    fst (Compute self input_data tree_parameters_tensor tree_biases_tensor)
    = Done out
    /\ cell out i k = Some S754_nan.
Proof.
  intros Hvalid Hi Hk Hin Hnan.
  destruct (Compute_correct self _ _ _ Hvalid) as (out & Hrun & _ & Hcell).
  exists out. rewrite Hrun. split; [reflexivity|].
  rewrite Hcell by assumption. f_equal.
  unfold routing_probability. now apply (path_product_nan _ j).
Qed.

Lemma nan_poisons_subtree_witness :
  valid_invocation tree7 batch_a weights7 biases_nan = true
  /\ 0 <= 0 < num_data batch_a /\ 0 <= 4 < max_nodes_ tree7
  /\ In 1 (ancestors (Z.to_pos (4 + 1)))
  /\ left_prob tree7 batch_a weights7 biases_nan 0 1 = S754_nan
  /\ exists out,
       fst (Compute tree7 batch_a weights7 biases_nan) = Done out
       /\ cell out 0 4 = Some S754_nan.
Proof.
  split; [reflexivity|]. split; [split; [discriminate|reflexivity]|].
  split; [split; [discriminate|reflexivity]|].
  split; [now left|]. split; [reflexivity|].
  apply (nan_poisons_subtree tree7 batch_a weights7 biases_nan 0 1 4);
    [reflexivity|split; [discriminate|reflexivity]
    |split; [discriminate|reflexivity]|now left|reflexivity].
Defined.

(** X17.  With split probabilities that are probabilities, no node holds
    more than its parent: [output[i, 2j+1] <= output[i, j]] and
    [output[i, 2j+2] <= output[i, j]], by the comparison of binary32 and
    as rational numbers. *)
Theorem child_not_above_parent `{TF : TensorForest}
    (self : KFeatureRoutingFunction)
    (input_data tree_parameters_tensor tree_biases_tensor : Tensor) :
  valid_invocation self input_data tree_parameters_tensor tree_biases_tensor
  = true ->
  (forall i j,
     0 <= i < num_data input_data -> 0 <= j < internal_nodes self ->
     is_prob (left_prob self input_data tree_parameters_tensor
                tree_biases_tensor i j) = true) ->
  exists out,
    fst (Compute self input_data tree_parameters_tensor tree_biases_tensor)
    = Done out
    /\ forall i j,
         0 <= i < num_data input_data -> 0 <= j < internal_nodes self ->
         exists prob left right,
           cell out i j = Some prob
           /\ cell out i (2 * j + 1) = Some left
           /\ cell out i (2 * j + 2) = Some right
           /\ leb left prob = true /\ leb right prob = true
           /\ (F2Q left <= F2Q prob)%Q /\ (F2Q right <= F2Q prob)%Q.
Proof.
  intros Hvalid Hlp.
  destruct (Compute_correct self _ _ _ Hvalid) as (out & Hrun & _ & Hcell).
  destruct (valid_facts self _ _ _ Hvalid)
    as (_ & _ & _ & _ & _ & Hmn & Hodd & Hh & _).
  exists out. rewrite Hrun. split; [reflexivity|].
  intros i j Hi Hj. do 3 eexists.
  split; [apply Hcell; lia|]. split; [apply Hcell; lia|].
  split; [apply Hcell; lia|].
  rewrite routing_probability_left, routing_probability_right by lia.
  pose proof (routing_probability_prob self _ _ _ Hvalid Hlp i j Hi
                ltac:(lia)) as Hp.
  assert (Hl : prob_shape
                 (left_prob self input_data tree_parameters_tensor
                    tree_biases_tensor i j))
    by (apply is_prob_shape, Hlp; assumption).
  destruct (sub_one_prob _ Hl) as [Hc _].
  destruct (mul_prob _ _ Hp Hl) as [Hml _].
  destruct (mul_prob _ _ Hp Hc) as [Hmr _].
  pose proof (mul_prob_le _ _ Hp Hl) as Hlle.
  pose proof (mul_prob_le _ _ Hp Hc) as Hrle.
  repeat split;
    first [now apply leb_ulps | now apply ulps_le_F2Q].
Qed.

Lemma child_not_above_parent_witness :
  valid_invocation tree7 batch_a weights7 biases7 = true
  /\ (forall i j,
        0 <= i < num_data batch_a -> 0 <= j < internal_nodes tree7 ->
        is_prob (left_prob tree7 batch_a weights7 biases7 i j) = true)
  /\ exists out,
       fst (Compute tree7 batch_a weights7 biases7) = Done out
       /\ forall i j,
            0 <= i < num_data batch_a -> 0 <= j < internal_nodes tree7 ->
            exists prob left right,
              cell out i j = Some prob
              /\ cell out i (2 * j + 1) = Some left
              /\ cell out i (2 * j + 2) = Some right
              /\ leb left prob = true /\ leb right prob = true
              /\ (F2Q left <= F2Q prob)%Q /\ (F2Q right <= F2Q prob)%Q.
Proof.
  assert (Hlp : forall i j,
            0 <= i < num_data batch_a -> 0 <= j < internal_nodes tree7 ->
            is_prob (left_prob tree7 batch_a weights7 biases7 i j) = true).
  { intros i j _ Hj. change (internal_nodes tree7) with 3 in Hj.
    assert (j = 0 \/ j = 1 \/ j = 2) as [-> | [-> | ->]] by lia;
      reflexivity. }
  split; [reflexivity|]. split; [exact Hlp|].
  apply (child_not_above_parent tree7 batch_a weights7 biases7);
    [reflexivity|exact Hlp].
Defined.

(** X18.  With split probabilities that are probabilities, the values at
    depth [d] of a row add up to one within [3 * (2^d - 1) * 2^-25], the
    sum taken exactly; for a complete tree the leaves are the last
    level. *)
Theorem level_mass_near_one `{TF : TensorForest}
    (self : KFeatureRoutingFunction)
    (input_data tree_parameters_tensor tree_biases_tensor : Tensor) :
  valid_invocation self input_data tree_parameters_tensor tree_biases_tensor
  = true ->
  (forall i j,
     0 <= i < num_data input_data -> 0 <= j < internal_nodes self ->
     is_prob (left_prob self input_data tree_parameters_tensor
                tree_biases_tensor i j) = true) ->
  exists out,
    fst (Compute self input_data tree_parameters_tensor tree_biases_tensor)
    = Done out
    /\ forall i d,
         0 <= i < num_data input_data -> 0 <= d ->
         2 ^ (d + 1) - 1 <= max_nodes_ self ->
         (Qabs (level_mass out i d - 1) <= 3 * (2 ^ d - 1) # 2 ^ 25)%Q.
Proof.
  intros Hvalid Hlp.
  destruct (Compute_correct self _ _ _ Hvalid) as (out & Hrun & _ & Hcell).
  destruct (valid_facts self _ _ _ Hvalid)
    as (_ & _ & _ & _ & _ & Hmn & Hodd & Hh & _).
  exists out. rewrite Hrun. split; [reflexivity|].
  intros i d Hi Hd Hfit. unfold level_mass.
  pose proof (pow2_pos d Hd) as Hp.
  rewrite (map_ext_in _
             (fun k => F2Q (routing_probability self input_data
                              tree_parameters_tensor tree_biases_tensor
                              i k))).
  2:{ intros k Hk. apply level_range in Hk; [|lia].
      rewrite Hcell by lia. reflexivity. }
  rewrite sum_F2Q_ulps.
  2:{ intros k Hk. apply level_range in Hk; [|lia].
      apply routing_probability_prob; [assumption|assumption|lia|lia]. }
  assert (E : (inject_Z
                 (fold_right Z.add 0%Z
                    (map (fun k => ulps (routing_probability self input_data
                                           tree_parameters_tensor
                                           tree_biases_tensor i k))
                       (level d)))
               / inject_Z (2 ^ 149) - 1
               == inject_Z
                    (fold_right Z.add 0%Z
                       (map (fun k => ulps (routing_probability self
                                              input_data
                                              tree_parameters_tensor
                                              tree_biases_tensor i k))
                          (level d))
                     - 2 ^ 149) / inject_Z (2 ^ 149))%Q).
  { unfold Z.sub. rewrite inject_Z_plus, inject_Z_opp. field. discriminate. }
  rewrite E. apply ulps_bound_Q.
  rewrite <- (Z2Nat.id d) by lia.
  replace (3 * (2 ^ Z.of_nat (Z.to_nat d) - 1) * 2 ^ 124)
    with ((2 ^ Z.of_nat (Z.to_nat d) - 1) * (3 * 2 ^ 124)) by ring.
  apply (level_ulps _ (internal_nodes self)).
  - intros j Hj. apply is_prob_shape, Hlp; assumption.
  - rewrite Z2Nat.id by lia. lia.
Qed.

Lemma level_mass_near_one_witness :
  valid_invocation tree7 batch_a weights7 biases7 = true
  /\ (forall i j,
        0 <= i < num_data batch_a -> 0 <= j < internal_nodes tree7 ->
        is_prob (left_prob tree7 batch_a weights7 biases7 i j) = true)
  /\ exists out,
       fst (Compute tree7 batch_a weights7 biases7) = Done out
       /\ forall i d,
            0 <= i < num_data batch_a -> 0 <= d ->
            2 ^ (d + 1) - 1 <= max_nodes_ tree7 ->
            (Qabs (level_mass out i d - 1) <= 3 * (2 ^ d - 1) # 2 ^ 25)%Q.
Proof.
  assert (Hlp : forall i j,
            0 <= i < num_data batch_a -> 0 <= j < internal_nodes tree7 ->
            is_prob (left_prob tree7 batch_a weights7 biases7 i j) = true).
  { intros i j _ Hj. change (internal_nodes tree7) with 3 in Hj.
    assert (j = 0 \/ j = 1 \/ j = 2) as [-> | [-> | ->]] by lia;
      reflexivity. }
  split; [reflexivity|]. split; [exact Hlp|].
  apply (level_mass_near_one tree7 batch_a weights7 biases7);
    [reflexivity|exact Hlp].
Defined.

(** X19.  With split probabilities that are probabilities, the value at
    node [k] is within [depth(k) * 2^-24] of the product, in exact
    arithmetic, of the split probabilities along the path from the root to
    [k] (with [1 - left_prob] for every step to the right). *)
Theorem values_close_to_exact_products `{TF : TensorForest}
    (self : KFeatureRoutingFunction)
    (input_data tree_parameters_tensor tree_biases_tensor : Tensor) :
  valid_invocation self input_data tree_parameters_tensor tree_biases_tensor
  = true ->
  (forall i j,
     0 <= i < num_data input_data -> 0 <= j < internal_nodes self ->
     is_prob (left_prob self input_data tree_parameters_tensor
                tree_biases_tensor i j) = true) ->
  exists out,
    fst (Compute self input_data tree_parameters_tensor tree_biases_tensor)
    = Done out
    /\ forall i k,
         0 <= i < num_data input_data -> 0 <= k < max_nodes_ self ->
         exists v,
           cell out i k = Some v
           /\ (Qabs (F2Q v
                     - exact_path_product
                         (fun j => F2Q (left_prob self input_data
                                          tree_parameters_tensor
                                          tree_biases_tensor i j))
                         (Z.to_pos (k + 1)))
               <= depth (Z.to_pos (k + 1)) # 2 ^ 24)%Q.
Proof.
  intros Hvalid Hlp.
  destruct (Compute_correct self _ _ _ Hvalid) as (out & Hrun & _ & Hcell).
  destruct (valid_facts self _ _ _ Hvalid)
    as (_ & _ & _ & _ & _ & Hmn & Hodd & Hh & _).
  exists out. rewrite Hrun. split; [reflexivity|].
  intros i k Hi Hk. eexists. split; [now apply Hcell|].
  unfold routing_probability.
  apply (path_product_accuracy _ (internal_nodes self)).
  - intros j Hj. apply is_prob_shape, Hlp; assumption.
  - rewrite Z2Pos.id by lia. lia.
Qed.

Lemma values_close_to_exact_products_witness :
  valid_invocation tree7 batch_a weights7 biases7 = true
  /\ (forall i j,
        0 <= i < num_data batch_a -> 0 <= j < internal_nodes tree7 ->
        is_prob (left_prob tree7 batch_a weights7 biases7 i j) = true)
  /\ exists out,
       fst (Compute tree7 batch_a weights7 biases7) = Done out
       /\ forall i k,
            0 <= i < num_data batch_a -> 0 <= k < max_nodes_ tree7 ->
            exists v,
              cell out i k = Some v
              /\ (Qabs (F2Q v
                        - exact_path_product
                            (fun j => F2Q (left_prob tree7 batch_a weights7
                                             biases7 i j))
                            (Z.to_pos (k + 1)))
                  <= depth (Z.to_pos (k + 1)) # 2 ^ 24)%Q.
Proof.
  assert (Hlp : forall i j,
            0 <= i < num_data batch_a -> 0 <= j < internal_nodes tree7 ->
            is_prob (left_prob tree7 batch_a weights7 biases7 i j) = true).
  { intros i j _ Hj. change (internal_nodes tree7) with 3 in Hj.
    assert (j = 0 \/ j = 1 \/ j = 2) as [-> | [-> | ->]] by lia;
      reflexivity. }
  split; [reflexivity|]. split; [exact Hlp|].
  apply (values_close_to_exact_products tree7 batch_a weights7 biases7);
    [reflexivity|exact Hlp].
Defined.
